(** * Projective geometry and Jacobian engine of DPVO

    A shallow embedding of [dpvo/projective_ops.py] and proofs of the
    properties its specification states.

    Numbers.  The tensors of the source hold floating-point numbers whose
    precision is that of the caller's tensors.  They are modelled by exact
    rationals [Q]: every source operation used here ([+], [-], [*], [/],
    comparisons, [clamp], [abs]) has its exact counterpart, and every
    definition below evaluates.  Rounding, overflow and NaN are outside this
    model; the only division whose divisor can be zero is the division by
    the focal lengths [fx], [fy] in the inverse projections (a rational
    quotient by zero is [0] where the source yields an infinity or NaN).

    Tensors.  A tensor is a nested list, outermost dimension first.  The
    last dimension of a tensor that the source takes apart with [unbind]
    is a record.  The shape of a tensor is the shape of the nested list
    (a torch tensor is never ragged), so a dimension of size zero hides
    the sizes of the dimensions inside it.

    Errors.  An index out of range raises [IndexError] in the source and
    incompatible shapes raise [RuntimeError]; both are results here. *)

From Stdlib Require Import QArith Qabs Lqa ZArith List Bool Lia.
Import ListNotations.
Open Scope Q_scope.

(** ** Results of fallible tensor operations *)

Inductive error : Type :=
| IndexError
| ShapeError.

Inductive result (A : Type) : Type :=
| Ok (a : A)
| Err (e : error).
Arguments Ok {A} a.
Arguments Err {A} e.

Definition bind {A B : Type} (c : result A) (k : A -> result B) : result B :=
  match c with
  | Ok a => k a
  | Err e => Err e
  end.

Notation "x <- c ;; k" := (bind c (fun x => k))
  (at level 61, c at next level, right associativity).

Fixpoint mapM {A B : Type} (f : A -> result B) (l : list A) : result (list B) :=
  match l with
  | [] => Ok []
  | a :: l' => b <- f a ;; bs <- mapM f l' ;; Ok (b :: bs)
  end.

Definition of_option {A : Type} (e : error) (o : option A) : result A :=
  match o with
  | Some a => Ok a
  | None => Err e
  end.

(** ** Comparisons and elementary functions on numbers *)

Definition Qltb (a b : Q) : bool := negb (Qle_bool b a).

(** [t.float()] of a boolean tensor entry. *)
Definition to_float (b : bool) : Q := if b then 1 else 0.

(** [z.clamp(min=m)]. *)
Definition clamp_min (z m : Q) : Q := if Qltb z m then m else z.

Definition MIN_DEPTH : Q := 2 # 10.

(** ** Indexing and broadcasting *)

(** [t[i]] along one dimension: a negative index counts from the end. *)
Definition index {A : Type} (l : list A) (i : Z) : result A :=
  let n := Z.of_nat (length l) in
  if ((0 <=? i) && (i <? n))%Z then of_option IndexError (nth_error l (Z.to_nat i))
  else if ((- n <=? i) && (i <? 0))%Z then of_option IndexError (nth_error l (Z.to_nat (i + n)))
  else Err IndexError.

(** [t[:, idx]] for an index tensor [idx]: the batch dimension is kept and
    dimension 1 is gathered. *)
Definition index_dim1 {A : Type} (t : list (list A)) (idx : list Z) : result (list (list A)) :=
  mapM (fun row => mapM (index row) idx) t.

(** Two operands of an elementwise operation along one dimension: a
    dimension of size one is expanded to the size of the other. *)
Definition bzip {A B : Type} (xs : list A) (ys : list B) : result (list (A * B)) :=
  match xs, ys with
  | [x], _ => Ok (map (pair x) ys)
  | _, [y] => Ok (map (fun x => (x, y)) xs)
  | _, _ => if Nat.eqb (length xs) (length ys) then Ok (combine xs ys) else Err ShapeError
  end.

(** As [bzip], when the result must have the shape of the left operand
    (it is stacked with tensors of that shape): only the right operand
    may be expanded. *)
Definition bzip_into {A B : Type} (xs : list A) (ys : list B) : result (list (A * B)) :=
  if Nat.eqb (length xs) (length ys) then Ok (combine xs ys)
  else match ys with
       | [y] => Ok (map (fun x => (x, y)) xs)
       | _ => Err ShapeError
       end.

(** Operands that must have the same size along a dimension. *)
Definition zip_strict {A B : Type} (xs : list A) (ys : list B) : result (list (A * B)) :=
  if Nat.eqb (length xs) (length ys) then Ok (combine xs ys) else Err ShapeError.

Definition bmap2 {A B C : Type} (f : A -> B -> result C) (xs : list A) (ys : list B)
  : result (list C) :=
  ps <- bzip xs ys ;; mapM (fun p => f (fst p) (snd p)) ps.

Definition bmap2_into {A B C : Type} (f : A -> B -> result C) (xs : list A) (ys : list B)
  : result (list C) :=
  ps <- bzip_into xs ys ;; mapM (fun p => f (fst p) (snd p)) ps.

Definition smap2 {A B C : Type} (f : A -> B -> result C) (xs : list A) (ys : list B)
  : result (list C) :=
  ps <- zip_strict xs ys ;; mapM (fun p => f (fst p) (snd p)) ps.

(** A two-dimensional grid and its traversal with the row and column
    number of each entry, as [torch.meshgrid(arange(ht), arange(wd))]
    pairs them with the entries of an [ht] x [wd] map. *)
Definition grid (A : Type) : Type := list (list A).

Definition grid_map {A B : Type} (f : A -> B) (g : grid A) : grid B := map (map f) g.

Fixpoint imap_from {A B : Type} (f : nat -> A -> B) (n : nat) (l : list A) : list B :=
  match l with
  | [] => []
  | a :: l' => f n a :: imap_from f (S n) l'
  end.

Definition imap {A B : Type} (f : nat -> A -> B) (l : list A) : list B := imap_from f 0 l.

(** [f r c a] for the entry [a] in row [r] and column [c]. *)
Definition grid_imap {A B : Type} (f : nat -> nat -> A -> B) (g : grid A) : grid B :=
  imap (fun r row => imap (fun c a => f r c a) row) g.

(** ** Data model *)

(** Intrinsics of one frame: the last dimension of the intrinsics tensor. *)
Record intr : Type := { fx : Q; fy : Q; cx : Q; cy : Q }.

(** The three channels [x, y, d] of a patch at one position of its grid.
    A patch of the source has shape (3, p, p) and is read channel by
    channel with [unbind(dim=2)]; here it is a p x p grid of [pixel]s. *)
Record pixel : Type := { px_x : Q; px_y : Q; px_d : Q }.

Definition patch : Type := grid pixel.

(** A homogeneous point (X, Y, Z, W). *)
Record hpoint : Type := { hX : Q; hY : Q; hZ : Q; hW : Q }.

(** The data of a rigid transform, in the order of the pose tensor:
    translation, then unit quaternion (x, y, z, w).  The order is the one
    of the constants [[0,0,0,1]] and [[-0.1,0,0,0,0,0,1]] of the source. *)
Record SE3 : Type := { tx : Q; ty : Q; tz : Q; qx : Q; qy : Q; qz : Q; qw : Q }.

(** A matrix, as a list of rows. *)
Definition matrix : Type := list (list Q).

(** The operations of the Lie-group library that the source calls on
    poses.  The library is not part of the embedded source: the code is
    verified for every implementation of this interface. *)
Class LieOps : Type := {
  lie_mul : SE3 -> SE3 -> SE3;          (* [A * B] for two poses *)
  lie_inv : SE3 -> SE3;                 (* [A.inv()] *)
  lie_act : SE3 -> hpoint -> hpoint;    (* [A * X] for a homogeneous point *)
  lie_adjT : SE3 -> list Q -> list Q;   (* [A.adjT(a)] for a tangent 6-vector *)
  lie_matrix : SE3 -> matrix            (* [A.matrix()], 4 x 4 *)
}.

(** ** Inverse and forward projection *)

(** One entry of [iproj]. *)
Definition iproj_pt (p : pixel) (K : intr) : hpoint :=
  let i := 1 in
  let xn := (px_x p - cx K) / fx K in
  let yn := (px_y p - cy K) / fy K in
  {| hX := xn; hY := yn; hZ := i; hW := px_d p |}.

(** [iproj(patches, intrinsics)]: patches (B, E, 3, p, p), intrinsics
    (B, E, 4).  The stacked result has the shape of [patches]. *)
Definition iproj (patches : list (list patch)) (intrinsics : list (list intr))
  : result (list (list (grid hpoint))) :=
  bmap2_into (bmap2_into (fun P K => Ok (grid_map (fun p => iproj_pt p K) P))) patches intrinsics.

(** One entry of [proj]: [[x, y]] or, with [depth], [[x, y, d]]. *)
Definition proj_pt (P : hpoint) (K : intr) (depth : bool) : list Q :=
  let d := 1 / clamp_min (hZ P) (1 # 10) in
  let x := fx K * (d * hX P) + cx K in
  let y := fy K * (d * hY P) + cy K in
  if depth then [x; y; d] else [x; y].

(** [proj(X, intrinsics, depth)]: X (B, E, h, w, 4), intrinsics (B, E, 4).
    With [depth] the stacked result has the shape of [X]. *)
Definition proj (X : list (list (grid hpoint))) (intrinsics : list (list intr)) (depth : bool)
  : result (list (list (grid (list Q)))) :=
  let entry := fun G K => Ok (grid_map (fun P => proj_pt P K depth) G) in
  if depth then bmap2_into (bmap2_into entry) X intrinsics
  else bmap2 (bmap2 entry) X intrinsics.

(** One entry of [proj_disps] (without its Jacobian): [[x, y]] or, with
    [return_depth], [[x, y, D*d]]. *)
Definition proj_disps_pt (P : hpoint) (K : intr) (return_depth : bool) : list Q :=
  let Z := if Qltb (hZ P) ((5 # 10) * MIN_DEPTH) then 1 else hZ P in
  let d := 1 / Z in
  let x := fx K * (hX P * d) + cx K in
  let y := fy K * (hY P * d) + cy K in
  if return_depth then [x; y; hW P * d] else [x; y].

(** The 2 x 4 matrix [proj_jac] of one entry of [proj_disps]. *)
Definition proj_disps_jac (P : hpoint) (K : intr) : matrix :=
  let Z := if Qltb (hZ P) ((5 # 10) * MIN_DEPTH) then 1 else hZ P in
  let d := 1 / Z in
  let o := 0 in
  [ [fx K * d; o; (- fx K) * hX P * d * d; o];
    [o; fy K * d; (- fy K) * hY P * d * d; o] ].

(** [proj_disps(Xs, intrinsics, jacobian, return_depth)]: Xs (B, N, H, W, 4),
    intrinsics (B, N, 4).  The second component is [None] without
    [jacobian]. *)
Definition proj_disps (Xs : list (list (grid hpoint))) (intrinsics : list (list intr))
    (jacobian return_depth : bool)
  : result (list (list (grid (list Q))) * option (list (list (grid matrix)))) :=
  let entry := fun G K => Ok (grid_map (fun P => proj_disps_pt P K return_depth) G) in
  coords <- (if return_depth then bmap2_into (bmap2_into entry) Xs intrinsics
             else bmap2 (bmap2 entry) Xs intrinsics) ;;
  if jacobian then
    jac <- bmap2_into (bmap2_into (fun G K => Ok (grid_map (fun P => proj_disps_jac P K) G)))
             Xs intrinsics ;;
    Ok (coords, Some jac)
  else Ok (coords, None).

(** One entry of [iproj_disps]: the pixel in row [r], column [c] of a
    depth map, with value [disp]. *)
Definition iproj_disps_pt (r c : nat) (disp : Q) (K : intr) : hpoint :=
  let x := inject_Z (Z.of_nat c) in
  let y := inject_Z (Z.of_nat r) in
  let i := 1 in
  {| hX := (x - cx K) / fx K; hY := (y - cy K) / fy K; hZ := i; hW := disp |}.

(** [iproj_disps(disps, intrinsics)]: disps (B, N, ht, wd), intrinsics
    (B, N, 4).  The pixel grid is built from the sizes [ht], [wd] alone, so
    the stacked tensors have the same shape only when the two leading
    dimensions of [disps] and [intrinsics] are equal. *)
Definition iproj_disps (disps : list (list (grid Q))) (intrinsics : list (list intr))
  : result (list (list (grid hpoint))) :=
  smap2 (smap2 (fun D K => Ok (grid_imap (fun r c v => iproj_disps_pt r c v K) D)))
    disps intrinsics.

(** ** Matrices *)

Definition dot (u v : list Q) : Q :=
  fold_right Qplus 0 (map (fun p => fst p * snd p) (combine u v)).

Definition column (M : matrix) (j : nat) : list Q := map (fun row => nth j row 0) M.

(** The product of two matrices whose sizes agree. *)
Definition mat_product (A B : matrix) : matrix :=
  map (fun row => map (fun j => dot row (column B j)) (seq 0 (length (hd [] B)))) A.

(** [torch.matmul(A, B)] of two matrices: the rows of [A] must be as long
    as [B] has rows. *)
Definition matmul (A B : matrix) : result matrix :=
  if forallb (fun row => Nat.eqb (length row) (length B)) A
  then Ok (mat_product A B)
  else Err ShapeError.

(** [t[..., p//2, p//2, :]] for a grid with [p] rows. *)
Definition center {A : Type} (g : grid A) : result A :=
  let p := length g in
  row <- of_option IndexError (nth_error g (p / 2)) ;;
  of_option IndexError (nth_error row (p / 2)).

(** [t.view(1, n, ...)] of a tensor whose two leading dimensions are
    (B, E): the B * E entries are regrouped as 1 x n. *)
Definition view1 {A : Type} (t : list (list A)) (n : nat) : result (list (list A)) :=
  let flat := concat t in
  if Nat.eqb (length flat) n then Ok [flat] else Err ShapeError.

(** ** The relative transform engine *)

(** [G[..., 3:] = [0, 0, 0, 1]] on one pose: the quaternion becomes the
    identity rotation, the translation stays. *)
Definition set_rotation_identity (G : SE3) : SE3 :=
  {| tx := tx G; ty := ty G; tz := tz G; qx := 0; qy := 0; qz := 0; qw := 1 |}.

(** The 4 x 6 matrix [Ja] at the point (X, Y, Z, H). *)
Definition Ja_of (P : hpoint) : matrix :=
  let X := hX P in let Y := hY P in let Z := hZ P in let H := hW P in
  let o := 0 in
  [ [H; o; o; o; Z; - Y];
    [o; H; o; - Z; o; X];
    [o; o; H; Y; - X; o];
    [o; o; o; o; o; o] ].

(** [d] of the Jacobian path: [1/Z] where [|Z| > 0.2], zero elsewhere. *)
Definition jac_d (Z : Q) : Q := if Qltb (2 # 10) (Qabs Z) then 1 / Z else 0.

(** The 2 x 4 matrix [Jp] at the point (X, Y, Z, H) for the intrinsics [K]. *)
Definition Jp_of (P : hpoint) (K : intr) : matrix :=
  let X := hX P in let Y := hY P in
  let o := 0 in
  let d := jac_d (hZ P) in
  [ [fx K * d; o; (- fx K) * X * d * d; o];
    [o; fy K * d; (- fy K) * Y * d * d; o] ].

(** What [transform] returns, by its flags. *)
Inductive transform_out : Type :=
| Coords (x1 : list (list (grid (list Q))))
| CoordsValid (x1 : list (list (grid (list Q)))) (valid : list (list (grid Q)))
| CoordsJac (x1 : list (list (grid (list Q)))) (valid : list (list Q))
            (Ji Jj Jz : list (list matrix)).

Section Engine.

Context {L : LieOps}.

(** [poses[:, jj] * poses[:, ii].inv()] on gathered poses. *)
Definition relative_pose (Gj Gi : list (list SE3)) : result (list (list SE3)) :=
  bmap2 (bmap2 (fun gj gi => Ok (lie_mul gj (lie_inv gi)))) Gj Gi.

(** [G[:, :, None, None] * X]: each pose acts on the points of its grid. *)
Definition act_grids (G : list (list SE3)) (X : list (list (grid hpoint)))
  : result (list (list (grid hpoint))) :=
  bmap2 (bmap2 (fun g P => Ok (grid_map (lie_act g) P))) G X.

(** The block [if jacobian:] of [transform], from the relative poses
    [Gij], the transformed points [X1] and the reprojection [x1]. *)
Definition transform_jacobian (intrinsics : list (list intr)) (ii jj : list Z)
    (Gij : list (list SE3)) (X1 : list (list (grid hpoint)))
    (x1 : list (list (grid (list Q)))) : result transform_out :=
  Xc <- mapM (mapM center) X1 ;;
  Kj <- index_dim1 intrinsics jj ;;
  Ja <- view1 (map (map Ja_of) Xc) (length ii) ;;
  Jp <- bmap2_into (bmap2_into (fun P K => Ok (Jp_of P K))) Xc Kj ;;
  Jp <- view1 Jp (length ii) ;;
  Jj <- bmap2 (bmap2 matmul) Jp Ja ;;
  Ji <- bmap2 (bmap2 (fun g J => Ok (map (fun a => map Qopp (lie_adjT g a)) J))) Gij Jj ;;
  Jz <- bmap2 (bmap2 (fun J g => matmul J (map (skipn 3) (lie_matrix g)))) Jp Gij ;;
  Ok (CoordsJac x1 (map (map (fun P => to_float (Qltb (2 # 10) (hZ P)))) Xc) Ji Jj Jz).

Definition transform (poses : list (list SE3)) (patches : list (list patch))
    (intrinsics : list (list intr)) (ii jj kk : list Z)
    (depth valid jacobian tonly : bool) : result transform_out :=
  (* backproject *)
  Pk <- index_dim1 patches kk ;;
  Ki <- index_dim1 intrinsics ii ;;
  X0 <- iproj Pk Ki ;;
  (* transform *)
  Gj <- index_dim1 poses jj ;;
  Gi <- index_dim1 poses ii ;;
  Gij <- relative_pose Gj Gi ;;
  let Gij := if tonly then map (map set_rotation_identity) Gij else Gij in
  X1 <- act_grids Gij X0 ;;
  (* project *)
  Kj <- index_dim1 intrinsics jj ;;
  x1 <- proj X1 Kj depth ;;
  if jacobian then transform_jacobian intrinsics ii jj Gij X1 x1
  else if valid then
    Ok (CoordsValid x1 (map (map (grid_map (fun P => to_float (Qltb (2 # 10) (hZ P))))) X1))
  else Ok (Coords x1).

(** The first component of what [transform] returns, whatever the flags. *)
Definition out_coords (o : transform_out) : list (list (grid (list Q))) :=
  match o with
  | Coords x1 => x1
  | CoordsValid x1 _ => x1
  | CoordsJac x1 _ _ _ _ => x1
  end.

(** ** Dense flow and flow magnitude *)

(** [u - v] on the last dimension. *)
Definition vsub (u v : list Q) : list Q := map (fun p => fst p - snd p) (combine u v).

Definition grid_map2 {A B C : Type} (f : A -> B -> C) (g : grid A) (h : grid B) : grid C :=
  map (fun p => map (fun q => f (fst q) (snd q)) (combine (fst p) (snd p))) (combine g h).

(** An elementwise operation on two tensors of grids, (B, E, h, w, ...). *)
Definition tmap2 {A B C : Type} (f : A -> B -> C)
    (s : list (list (grid A))) (t : list (list (grid B))) : result (list (list (grid C))) :=
  bmap2 (bmap2 (fun g h => Ok (grid_map2 f g h))) s t.

Section FlowMag.

(** [v.norm(dim=-1)], the Euclidean norm of torch, taken as given: the
    rationals have no square root. *)
Variable norm : list Q -> Q.


End FlowMag.

(** The pose written over the relative transform of an edge from a frame
    to itself in [projective_transform]. *)
Definition self_edge_pose : SE3 :=
  {| tx := - (1 # 10); ty := 0; tz := 0; qx := 0; qy := 0; qz := 0; qw := 1 |}.

(** [G.data[:, mask] = g0]: the boolean mask is as long as dimension 1. *)
Definition assign_masked (G : list (list SE3)) (mask : list bool) (g0 : SE3)
  : result (list (list SE3)) :=
  mapM (fun row => smap2 (fun (m : bool) g => Ok (if m then g0 else g)) mask row) G.

Definition projective_transform (poses : list (list SE3)) (depths : list (list (grid Q)))
    (intrinsics : list (list intr)) (ii jj : list Z)
  : result (list (list (grid (list Q))) * list (list (grid (list Q)))) :=
  (* inverse project (pinhole) *)
  Di <- index_dim1 depths ii ;;
  Ki <- index_dim1 intrinsics ii ;;
  X0 <- iproj_disps Di Ki ;;
  (* transform *)
  Gj <- index_dim1 poses jj ;;
  Gi <- index_dim1 poses ii ;;
  Gij <- relative_pose Gj Gi ;;
  mask <- bmap2 (fun i j => Ok (Z.eqb i j)) ii jj ;;
  Gij <- assign_masked Gij mask self_edge_pose ;;
  X1 <- act_grids Gij X0 ;;
  (* project (pinhole) *)
  Kj <- index_dim1 intrinsics jj ;;
  x1 <- proj X1 Kj false ;;
  (* exclude points too close to camera *)
  valid <- tmap2 (fun P1 P0 => to_float (Qltb MIN_DEPTH (hZ P1) && Qltb MIN_DEPTH (hZ P0)))
             X1 X0 ;;
  Ok (x1, map (map (grid_map (fun v => [v]))) valid).

Definition induced_flow (poses : list (list SE3)) (disps : list (list (grid Q)))
    (intrinsics : list (list intr)) (ii jj : list Z)
  : result (list (list (grid (list Q))) * list (list (grid (list Q)))) :=
  r <- projective_transform poses disps intrinsics ii jj ;;
  let coords0 := fun (r c : nat) => [inject_Z (Z.of_nat c); inject_Z (Z.of_nat r)] in
  Ok (map (map (grid_imap (fun r c v => vsub (firstn 2 v) (coords0 r c)))) (fst r), snd r).

End Engine.

(** ** A rigid-transform instance of the pose interface *)

Module Rigid.

(** The rotation matrix of a unit quaternion (x, y, z, w), by rows. *)
Definition rotation (g : SE3) : matrix :=
  let x := qx g in let y := qy g in let z := qz g in let w := qw g in
  [ [1 - 2 * (y * y + z * z); 2 * (x * y - z * w); 2 * (x * z + y * w)];
    [2 * (x * y + z * w); 1 - 2 * (x * x + z * z); 2 * (y * z - x * w)];
    [2 * (x * z - y * w); 2 * (y * z + x * w); 1 - 2 * (x * x + y * y)] ].

(** [R v] and [R^T v] for a 3-vector [v]. *)
Definition rotate (g : SE3) (v : list Q) : list Q := map (fun row => dot row v) (rotation g).

Definition rotate_back (g : SE3) (v : list Q) : list Q :=
  map (fun j => dot (column (rotation g) j) v) (seq 0 3).

Definition cross (u v : list Q) : list Q :=
  let u0 := nth 0 u 0 in let u1 := nth 1 u 0 in let u2 := nth 2 u 0 in
  let v0 := nth 0 v 0 in let v1 := nth 1 v 0 in let v2 := nth 2 v 0 in
  [u1 * v2 - u2 * v1; u2 * v0 - u0 * v2; u0 * v1 - u1 * v0].

Definition translation (g : SE3) : list Q := [tx g; ty g; tz g].

Definition with_translation (t : list Q) (x y z w : Q) : SE3 :=
  {| tx := nth 0 t 0; ty := nth 1 t 0; tz := nth 2 t 0; qx := x; qy := y; qz := z; qw := w |}.

(** Modelled from the spec: the group operations of the Lie-group library
    (composition, inverse, action on a homogeneous point, adjoint
    transpose, matrix form), which is outside the embedded source.  A pose
    is a translation [t] and a unit quaternion of rotation [R]:
    [A * B] has rotation [RA RB] and translation [tA + RA tB]. *)
Definition mul (a b : SE3) : SE3 :=
  let x1 := qx a in let y1 := qy a in let z1 := qz a in let w1 := qw a in
  let x2 := qx b in let y2 := qy b in let z2 := qz b in let w2 := qw b in
  let t := map (fun p => fst p + snd p) (combine (translation a) (rotate a (translation b))) in
  with_translation t
    (w1 * x2 + x1 * w2 + y1 * z2 - z1 * y2)
    (w1 * y2 - x1 * z2 + y1 * w2 + z1 * x2)
    (w1 * z2 + x1 * y2 - y1 * x2 + z1 * w2)
    (w1 * w2 - x1 * x2 - y1 * y2 - z1 * z2).

(** Modelled from the spec: the inverse of the Lie-group library, with
    rotation [R^T] and translation [- R^T t]. *)
Definition inv (a : SE3) : SE3 :=
  with_translation (map Qopp (rotate_back a (translation a)))
    (- qx a) (- qy a) (- qz a) (qw a).

(** Modelled from the spec: the action of the Lie-group library on a
    homogeneous point, (X, Y, Z, W) |-> (R (X, Y, Z) + W t, W). *)
Definition act (a : SE3) (P : hpoint) : hpoint :=
  let r := rotate a [hX P; hY P; hZ P] in
  {| hX := nth 0 r 0 + tx a * hW P;
     hY := nth 1 r 0 + ty a * hW P;
     hZ := nth 2 r 0 + tz a * hW P;
     hW := hW P |}.

(** Modelled from the spec: the adjoint transpose of the Lie-group
    library on a tangent vector (translation part [u], rotation part [v]):
    [(R^T u, R^T (v - t x u))]. *)
Definition adjT (a : SE3) (xi : list Q) : list Q :=
  let u := firstn 3 xi in
  let v := skipn 3 xi in
  let c := cross (translation a) u in
  rotate_back a u ++ rotate_back a (map (fun p => fst p - snd p) (combine v c)).

(** Modelled from the spec: the 4 x 4 matrix of a pose in the Lie-group
    library, [[R t] [0 1]]. *)
Definition to_matrix (a : SE3) : matrix :=
  map (fun p => fst p ++ [snd p]) (combine (rotation a) (translation a)) ++ [[0; 0; 0; 1]].

#[export] Instance ops : LieOps :=
  {| lie_mul := mul; lie_inv := inv; lie_act := act; lie_adjT := adjT; lie_matrix := to_matrix |}.

Definition identity : SE3 :=
  {| tx := 0; ty := 0; tz := 0; qx := 0; qy := 0; qz := 0; qw := 1 |}.

End Rigid.

(** ** Vocabulary of the statements *)

(** The entry of batch [b] and edge [e] of a tensor (B, E, ...). *)
Definition at2 {A : Type} (t : list (list A)) (b e : nat) : option A :=
  match nth_error t b with
  | Some row => nth_error row e
  | None => None
  end.

(** The sizes of the two leading dimensions. *)
Definition shape2 {A : Type} (t : list (list A)) : list nat := map (@length A) t.

(** An index that [index] accepts for a dimension of size [n]. *)
Definition in_range (n : nat) (i : Z) : Prop := (- Z.of_nat n <= i < Z.of_nat n)%Z.

Definition all_in_range {A : Type} (t : list (list A)) (idx : list Z) : Prop :=
  Forall (fun row => Forall (in_range (length row)) idx) t.

(** The invariants of the visibility graph and of the buffers: parallel
    index arrays of one length, one batch size, every frame index in range
    of the pose and intrinsics buffers and every patch index in range of
    the patch buffer. *)
Record wf_inputs {P : Type} (poses : list (list SE3)) (patches : list (list P))
    (intrinsics : list (list intr)) (ii jj kk : list Z) : Prop := {
  wf_batch_patches : length patches = length poses;
  wf_batch_intrinsics : length intrinsics = length poses;
  wf_len_jj : length jj = length ii;
  wf_len_kk : length kk = length ii;
  wf_ii_poses : all_in_range poses ii;
  wf_jj_poses : all_in_range poses jj;
  wf_ii_intrinsics : all_in_range intrinsics ii;
  wf_jj_intrinsics : all_in_range intrinsics jj;
  wf_kk_patches : all_in_range patches kk
}.

(** What one edge (i, j, k) reads in one batch entry: its patch (or depth
    map), the intrinsics and the poses of its two frames. *)
Record edge_data (P : Type) : Type := {
  e_src : P;
  e_Ki : intr;
  e_Kj : intr;
  e_Gi : SE3;
  e_Gj : SE3
}.
Arguments e_src {P} _.
Arguments e_Ki {P} _.
Arguments e_Kj {P} _.
Arguments e_Gi {P} _.
Arguments e_Gj {P} _.

Definition edge_of {P : Type} (Gb : list SE3) (Pb : list P) (Kb : list intr) (i j k : Z)
  : result (edge_data P) :=
  src <- index Pb k ;;
  Ki <- index Kb i ;;
  Kj <- index Kb j ;;
  Gi <- index Gb i ;;
  Gj <- index Gb j ;;
  Ok {| e_src := src; e_Ki := Ki; e_Kj := Kj; e_Gi := Gi; e_Gj := Gj |}.

Section EdgeVocabulary.

Context {L : LieOps}.

(** The relative pose of an edge, pose j composed with the inverse of
    pose i, with its rotation reset in translation-only mode. *)
Definition edge_Gij {P : Type} (ed : edge_data P) (tonly : bool) : SE3 :=
  let g := lie_mul (e_Gj ed) (lie_inv (e_Gi ed)) in
  if tonly then set_rotation_identity g else g.

(** A patch pixel of an edge, backprojected and moved to frame j. *)
Definition edge_point (ed : edge_data patch) (tonly : bool) (p : pixel) : hpoint :=
  lie_act (edge_Gij ed tonly) (iproj_pt p (e_Ki ed)).

(** The reprojection of the patch of an edge. *)
Definition edge_coords (ed : edge_data patch) (depth tonly : bool) : grid (list Q) :=
  grid_map (fun p => proj_pt (edge_point ed tonly p) (e_Kj ed) depth) (e_src ed).

End EdgeVocabulary.

(** Entrywise equality of matrices of rationals. *)
Definition mat_eq (A B : matrix) : Prop := Forall2 (Forall2 Qeq) A B.

(** A grid has a center entry. *)
Definition has_center {A : Type} (g : grid A) : Prop := exists a, center g = Ok a.


(** The tensors that [transform] computes from the gathered operands when
    no shape error occurs. *)
Section ClosedForms.

Context {L : LieOps}.

Definition X0_of (Pk : list (list patch)) (Ki : list (list intr)) : list (list (grid hpoint)) :=
  grid_map2 (fun P K => grid_map (fun p => iproj_pt p K) P) Pk Ki.

Definition Gij_of (Gj Gi : list (list SE3)) (tonly : bool) : list (list SE3) :=
  let G := grid_map2 (fun gj gi => lie_mul gj (lie_inv gi)) Gj Gi in
  if tonly then map (map set_rotation_identity) G else G.

Definition X1_of (Gij : list (list SE3)) (X0 : list (list (grid hpoint)))
  : list (list (grid hpoint)) :=
  grid_map2 (fun g P => grid_map (lie_act g) P) Gij X0.

Definition x1_of (X1 : list (list (grid hpoint))) (Kj : list (list intr)) (depth : bool)
  : list (list (grid (list Q))) :=
  grid_map2 (fun G K => grid_map (fun P => proj_pt P K depth) G) X1 Kj.

(** The validity flag of a point: [(Z > 0.2).float()]. *)
Definition valid_flag (P : hpoint) : Q := to_float (Qltb (2 # 10) (hZ P)).

(** The Jacobians of the block [if jacobian:] from the center points [Xc]
    of the edges. *)
Definition Jp_t (Xc : list (list hpoint)) (Kj : list (list intr)) : list (list matrix) :=
  grid_map2 Jp_of Xc Kj.

Definition Jj_t (Xc : list (list hpoint)) (Kj : list (list intr)) : list (list matrix) :=
  grid_map2 mat_product (Jp_t Xc Kj) (map (map Ja_of) Xc).

Definition Ji_t (Gij : list (list SE3)) (Xc : list (list hpoint)) (Kj : list (list intr))
  : list (list matrix) :=
  grid_map2 (fun g J => map (fun a => map Qopp (lie_adjT g a)) J) Gij (Jj_t Xc Kj).

Definition Jz_t (Gij : list (list SE3)) (Xc : list (list hpoint)) (Kj : list (list intr))
  : list (list matrix) :=
  grid_map2 (fun J g => mat_product J (map (skipn 3) (lie_matrix g))) (Jp_t Xc Kj) Gij.

End ClosedForms.

(** What the block [if jacobian:] asks of its inputs beyond [wf_inputs]:
    a batch of one (the [view(1, len(ii), ...)] of the source) and a
    center pixel in every patch. *)
Record wf_jacobian_inputs (poses : list (list SE3)) (patches : list (list patch)) : Prop := {
  wf_batch_one : length poses = 1%nat;
  wf_centers : Forall (Forall has_center) patches
}.

(** The matrix form of a pose is 4 x 4. *)
Definition matrix_4x4 (L : LieOps) : Prop :=
  forall g, length (lie_matrix g) = 4%nat /\ Forall (fun r => length r = 4%nat) (lie_matrix g).

(** ** Concrete scenes *)

Module Scene.

(** Unit focal lengths and the principal point at the origin. *)
Definition K1 : intr := {| fx := 1; fy := 1; cx := 0; cy := 0 |}.

Definition K2 : intr := {| fx := 2; fy := 3; cx := 5; cy := 7 |}.

Definition px (x y d : Q) : pixel := {| px_x := x; px_y := y; px_d := d |}.

(** A 3 x 3 patch around the pixel (0, 0), at depth term 1. *)
Definition patch3 : patch :=
  [ [px (-1) (-1) 1; px 0 (-1) 1; px 1 (-1) 1];
    [px (-1) 0 1; px 0 0 1; px 1 0 1];
    [px (-1) 1 1; px 0 1 1; px 1 1 1] ].

(** The same patch with another pixel in its last column of the middle
    row: the center pixel is the same. *)
Definition patch3' : patch :=
  [ [px (-1) (-1) 1; px 0 (-1) 1; px 1 (-1) 1];
    [px (-1) 0 1; px 0 0 1; px 0 0 1];
    [px (-1) 1 1; px 0 1 1; px 1 1 1] ].

(** A one-pixel patch at the pixel (0, 0), depth term 1. *)
Definition patch1 : patch := [ [px 0 0 1] ].

(** Translations along the optical axis and a rotation about the y axis
    (quaternion (0, 3/5, 0, 4/5)). *)
Definition forward1 : SE3 :=
  {| tx := 0; ty := 0; tz := 1; qx := 0; qy := 0; qz := 0; qw := 1 |}.

Definition backward1 : SE3 :=
  {| tx := 0; ty := 0; tz := - (1); qx := 0; qy := 0; qz := 0; qw := 1 |}.

Definition turned : SE3 :=
  {| tx := 0; ty := 0; tz := 0; qx := 0; qy := 3 # 5; qz := 0; qw := 4 # 5 |}.

(** A half turn about the y axis: the camera looks backwards. *)
Definition reversed : SE3 :=
  {| tx := 0; ty := 0; tz := 0; qx := 0; qy := 1; qz := 0; qw := 0 |}.

End Scene.

(** ** Derivatives over the rationals *)

(** [l] is the derivative of [f] at [x]: near [x] the function differs
    from its linear approximation by at most a multiple of the squared
    step. *)
Definition is_derivative (f : Q -> Q) (x l : Q) : Prop :=
  exists C delta, 0 < delta /\
    forall h, Qabs h < delta -> Qabs (f (x + h) - f x - l * h) <= C * (h * h).

(** The coordinate number [c] of a homogeneous point, and the point with
    that coordinate replaced. *)
Definition coord (c : nat) (P : hpoint) : Q := nth c [hX P; hY P; hZ P; hW P] 0.

Definition with_coord (c : nat) (P : hpoint) (v : Q) : hpoint :=
  match c with
  | 0%nat => {| hX := v; hY := hY P; hZ := hZ P; hW := hW P |}
  | 1%nat => {| hX := hX P; hY := v; hZ := hZ P; hW := hW P |}
  | 2%nat => {| hX := hX P; hY := hY P; hZ := v; hW := hW P |}
  | _ => {| hX := hX P; hY := hY P; hZ := hZ P; hW := v |}
  end.

(** The entry in row [r] and column [c] of a matrix. *)
Definition entry (M : matrix) (r c : nat) : Q := nth c (nth r M []) 0.

(** ** Validity flags and bounded pixels *)

(** The flag [v] is 1 exactly when the Z coordinate of [X] exceeds 0.2,
    and 0 when it does not. *)
Definition flag_matches (v : Q) (X : hpoint) : Prop :=
  (v = 1 <-> 2 # 10 < hZ X) /\ (hZ X <= 2 # 10 -> v = 0).

(** The pixel [pix] is the projection of [X] with a depth term in (0, 10]. *)
Definition bounded_pixel (pix : list Q) (X : hpoint) (K : intr) (depth : bool) : Prop :=
  exists d, 0 < d /\ d <= 10 /\
    pix = (let x := fx K * (d * hX X) + cx K in
           let y := fy K * (d * hY X) + cy K in
           if depth then [x; y; d] else [x; y]).

(** The tensors that [projective_transform] computes from the gathered
    operands when no shape error occurs. *)
Definition X0_dense_of (Di : list (list (grid Q))) (Ki : list (list intr))
  : list (list (grid hpoint)) :=
  grid_map2 (fun D K => grid_imap (fun r c v => iproj_disps_pt r c v K) D) Di Ki.

Definition mask_of (ii jj : list Z) : list bool :=
  map (fun p => Z.eqb (fst p) (snd p)) (combine ii jj).

Definition masked (G : list (list SE3)) (mask : list bool) (g0 : SE3) : list (list SE3) :=
  map (fun row => map (fun p : bool * SE3 => if fst p then g0 else snd p) (combine mask row)) G.

(** The validity of a pixel of the dense path, from its transformed point
    [P1] and its backprojected point [P0]. *)
Definition dense_flag (P1 P0 : hpoint) : Q :=
  to_float (Qltb MIN_DEPTH (hZ P1) && Qltb MIN_DEPTH (hZ P0)).

Module DenseScene.

(** Two frames with a 1 x 2 depth map each, every value 1. *)
Definition depths_one : list (list (grid Q)) := [[ [[1; 1]]; [[1; 1]] ]].

(** Two frames with a 1 x 1 depth map each, of value 0.1. *)
Definition depths_shallow : list (list (grid Q)) := [[ [[1 # 10]]; [[1 # 10]] ]].

End DenseScene.

(** ** Further functions of the source *)


Section PointCloud.

Context {L : LieOps}.

(** [point_cloud(poses, patches, intrinsics, ix)]: the inverse of pose
    [ix[m]] acts on the backprojection of patch [m]. *)
Definition point_cloud (poses : list (list SE3)) (patches : list (list patch))
    (intrinsics : list (list intr)) (ix : list Z) : result (list (list (grid hpoint))) :=
  G <- index_dim1 poses ix ;;
  K <- index_dim1 intrinsics ix ;;
  X <- iproj patches K ;;
  act_grids (map (map lie_inv) G) X.

End PointCloud.

(** ** Vocabulary of the further statements *)

(** Two homogeneous points with equal coordinates. *)
Definition hpoint_eq (P P' : hpoint) : Prop :=
  hX P == hX P' /\ hY P == hY P' /\ hZ P == hZ P' /\ hW P == hW P'.

(** Two vectors with equal entries. *)
Definition vec_eq (u v : list Q) : Prop := Forall2 Qeq u v.

(** The tensors (B, E, ...) and (B, E', ...) joined along dimension 1. *)
Definition append_edges {A : Type} (s t : list (list A)) : list (list A) :=
  map (fun p => fst p ++ snd p) (combine s t).

(** The sizes of the operands of [transform] agree: one batch size and
    index arrays of one length. *)
Record shapes_agree {P : Type} (poses : list (list SE3)) (patches : list (list P))
    (intrinsics : list (list intr)) (ii jj kk : list Z) : Prop := {
  sa_patches : length patches = length poses;
  sa_intrinsics : length intrinsics = length poses;
  sa_jj : length jj = length ii;
  sa_kk : length kk = length ii
}.

(** Every index is in range of the buffer it reads. *)
Record indices_in_range {P : Type} (poses : list (list SE3)) (patches : list (list P))
    (intrinsics : list (list intr)) (ii jj kk : list Z) : Prop := {
  ir_ii_poses : all_in_range poses ii;
  ir_jj_poses : all_in_range poses jj;
  ir_ii_intrinsics : all_in_range intrinsics ii;
  ir_jj_intrinsics : all_in_range intrinsics jj;
  ir_kk_patches : all_in_range patches kk
}.

Section SelfEdgePose.

Context {L : LieOps}.

(** The pose written over self edges is the translation by (-0.1, 0, 0):
    it moves a homogeneous point (X, Y, Z, W) to (X - 0.1 W, Y, Z, W). *)
Definition self_edge_pose_translates : Prop :=
  forall P, hpoint_eq (lie_act self_edge_pose P)
              {| hX := hX P - (1 # 10) * hW P; hY := hY P; hZ := hZ P; hW := hW P |}.

End SelfEdgePose.

(** The position an index names in a dimension of size [n]: a negative
    index counts from the end. *)
Definition position (n : nat) (i : Z) : nat :=
  Z.to_nat (if (0 <=? i)%Z then i else i + Z.of_nat n).

(** The action of the poses of a buffer is compatible with the
    composition [g * g'.inv()]. *)
Definition acts_compatibly {L : LieOps} (poses : list (list SE3)) : Prop :=
  forall g g' P, In g (concat poses) -> In g' (concat poses) ->
    hpoint_eq (lie_act (lie_mul g (lie_inv g')) P) (lie_act g (lie_act (lie_inv g') P)).

(** ** The frame pairs of the pose loss (train.py) *)

(** [torch.arange(n)]. *)
Definition arange (n : nat) : list Z := map Z.of_nat (seq 0 n).

(** [torch.meshgrid(xs, ys)]: two grids of [length xs] rows and
    [length ys] columns; the first repeats [xs] along the rows, the second
    repeats [ys] along the columns. *)
Definition meshgrid (xs ys : list Z) : grid Z * grid Z :=
  (map (fun x => map (fun _ => x) ys) xs, map (fun _ => ys) xs).

(** [t.reshape(-1)] of a grid: its rows one after the other. *)
Definition reshape_flat {A : Type} (g : grid A) : list A := concat g.

(** [ii != jj], entry by entry. *)
Definition ne_mask (ii jj : list Z) : list bool :=
  map (fun p => negb (fst p =? snd p)%Z) (combine ii jj).

(** [t[k]] for a boolean mask [k]: the entries whose mask is set, in order. *)
Definition mask_select {A : Type} (k : list bool) (t : list A) : list A :=
  map snd (filter fst (combine k t)).

(** The index arrays [ii], [jj] that the training loop builds from the
    number [N] of frames. *)
Definition train_edges (N : nat) : list Z * list Z :=
  let (gi, gj) := meshgrid (arange N) (arange N) in
  let ii := reshape_flat gi in
  let jj := reshape_flat gj in
  let k := ne_mask ii jj in
  (mask_select k ii, mask_select k jj).
(** * Properties *)

(** Shape equations follow from the shapes of the operands at hand. *)
Ltac shapes :=
  solve [ assumption
        | symmetry; assumption
        | etransitivity; [eassumption | symmetry; eassumption]
        | etransitivity; [eassumption | eassumption] ].

(** ** The error monad on lists *)

Lemma bind_ok {A B : Type} (c : result A) (k : A -> result B) (b : B) :
  bind c k = Ok b -> exists a, c = Ok a /\ k a = Ok b.
Proof. destruct c as [a|e]; simpl; intros H; [exists a; auto | discriminate]. Qed.

Lemma mapM_pure {A B : Type} (g : A -> B) (l : list A) :
  mapM (fun a => Ok (g a)) l = Ok (map g l).
Proof. induction l as [|a l IH]; simpl; [reflexivity | rewrite IH; reflexivity]. Qed.

Lemma mapM_ext {A B : Type} (f g : A -> result B) (l : list A) :
  (forall a, In a l -> f a = g a) -> mapM f l = mapM g l.
Proof.
  induction l as [|a l IH]; simpl; intros H; [reflexivity|].
  rewrite (H a) by auto. rewrite IH by auto. reflexivity.
Qed.

Lemma mapM_length {A B : Type} (f : A -> result B) (l : list A) (r : list B) :
  mapM f l = Ok r -> length r = length l.
Proof.
  revert r; induction l as [|a l IH]; simpl; intros r H.
  - inversion H; reflexivity.
  - apply bind_ok in H as (b & _ & H). apply bind_ok in H as (bs & Hbs & H).
    inversion H; subst; simpl. f_equal; auto.
Qed.

Lemma mapM_nth_error {A B : Type} (f : A -> result B) (l : list A) (r : list B) :
  mapM f l = Ok r ->
  forall n a, nth_error l n = Some a -> exists b, nth_error r n = Some b /\ f a = Ok b.
Proof.
  revert r; induction l as [|a0 l IH]; simpl; intros r H n a Hn.
  - destruct n; discriminate.
  - apply bind_ok in H as (b & Hb & H). apply bind_ok in H as (bs & Hbs & H).
    inversion H; subst. destruct n as [|n]; simpl in *.
    + inversion Hn; subst. exists b; auto.
    + eauto.
Qed.

Lemma mapM_ok {A B : Type} (f : A -> result B) (l : list A) :
  Forall (fun a => exists b, f a = Ok b) l -> exists r, mapM f l = Ok r.
Proof.
  induction 1 as [|a l (b & Hb) _ (r & Hr)]; simpl.
  - exists []; reflexivity.
  - exists (b :: r). rewrite Hb, Hr. reflexivity.
Qed.

(** ** Zipping operands of equal size *)

Lemma bzip_same {A B : Type} (xs : list A) (ys : list B) :
  length xs = length ys -> bzip xs ys = Ok (combine xs ys).
Proof.
  intros H. unfold bzip.
  destruct xs as [|x [|x' xs]], ys as [|y [|y' ys]]; simpl in *; try discriminate; try reflexivity.
  assert (E : length xs = length ys) by lia. rewrite E, Nat.eqb_refl. reflexivity.
Qed.

Lemma bzip_into_same {A B : Type} (xs : list A) (ys : list B) :
  length xs = length ys -> bzip_into xs ys = Ok (combine xs ys).
Proof. intros H. unfold bzip_into. rewrite H, Nat.eqb_refl. reflexivity. Qed.

Lemma zip_strict_same {A B : Type} (xs : list A) (ys : list B) :
  length xs = length ys -> zip_strict xs ys = Ok (combine xs ys).
Proof. intros H. unfold zip_strict. rewrite H, Nat.eqb_refl. reflexivity. Qed.

Lemma bmap2_same {A B C : Type} (f : A -> B -> result C) (xs : list A) (ys : list B) :
  length xs = length ys ->
  bmap2 f xs ys = mapM (fun p => f (fst p) (snd p)) (combine xs ys).
Proof. intros H. unfold bmap2. rewrite bzip_same by exact H. reflexivity. Qed.

Lemma bmap2_into_same {A B C : Type} (f : A -> B -> result C) (xs : list A) (ys : list B) :
  length xs = length ys ->
  bmap2_into f xs ys = mapM (fun p => f (fst p) (snd p)) (combine xs ys).
Proof. intros H. unfold bmap2_into. rewrite bzip_into_same by exact H. reflexivity. Qed.

Lemma smap2_same {A B C : Type} (f : A -> B -> result C) (xs : list A) (ys : list B) :
  length xs = length ys ->
  smap2 f xs ys = mapM (fun p => f (fst p) (snd p)) (combine xs ys).
Proof. intros H. unfold smap2. rewrite zip_strict_same by exact H. reflexivity. Qed.

Lemma nth_error_combine_some {A B : Type} (xs : list A) (ys : list B) (n : nat) (a : A) (b : B) :
  nth_error xs n = Some a -> nth_error ys n = Some b ->
  nth_error (combine xs ys) n = Some (a, b).
Proof.
  revert ys n; induction xs as [|x xs IH]; intros [|y ys] [|n]; simpl; try discriminate.
  - intros H1 H2; inversion H1; inversion H2; reflexivity.
  - apply IH.
Qed.

Lemma in_combine_shape {A B : Type} (s : list (list A)) (t : list (list B)) (p : list A * list B) :
  shape2 s = shape2 t -> In p (combine s t) -> length (fst p) = length (snd p).
Proof.
  revert t; induction s as [|x s IH]; intros [|y t]; simpl; try contradiction; try discriminate.
  intros H [Hp|Hp].
  - subst p; simpl. injection H; auto.
  - injection H as _ H. eauto.
Qed.

Lemma shape2_length {A B : Type} (s : list (list A)) (t : list (list B)) :
  shape2 s = shape2 t -> length s = length t.
Proof. unfold shape2; intros H. apply (f_equal (@length nat)) in H. now rewrite !length_map in H. Qed.

(** ** Elementwise operations on tensors of one shape *)

Section Pure2.

Context {A B C : Type} (g : A -> B -> C).

Let row (p : list A * list B) : list C :=
  map (fun q => g (fst q) (snd q)) (combine (fst p) (snd p)).

Lemma grid_map2_rows (s : list (list A)) (t : list (list B)) :
  grid_map2 g s t = map row (combine s t).
Proof. reflexivity. Qed.

Lemma bmap2_pure2 (s : list (list A)) (t : list (list B)) :
  shape2 s = shape2 t ->
  bmap2 (bmap2 (fun a b => Ok (g a b))) s t = Ok (grid_map2 g s t).
Proof.
  intros H. rewrite bmap2_same by (apply shape2_length; exact H).
  transitivity (mapM (fun p => Ok (row p)) (combine s t)); [|apply mapM_pure].
  apply mapM_ext. intros p Hp.
  rewrite bmap2_same by (eapply in_combine_shape; eauto). apply mapM_pure.
Qed.

Lemma bmap2_into_pure2 (s : list (list A)) (t : list (list B)) :
  shape2 s = shape2 t ->
  bmap2_into (bmap2_into (fun a b => Ok (g a b))) s t = Ok (grid_map2 g s t).
Proof.
  intros H. rewrite bmap2_into_same by (apply shape2_length; exact H).
  transitivity (mapM (fun p => Ok (row p)) (combine s t)); [|apply mapM_pure].
  apply mapM_ext. intros p Hp.
  rewrite bmap2_into_same by (eapply in_combine_shape; eauto). apply mapM_pure.
Qed.

Lemma smap2_pure2 (s : list (list A)) (t : list (list B)) :
  shape2 s = shape2 t ->
  smap2 (smap2 (fun a b => Ok (g a b))) s t = Ok (grid_map2 g s t).
Proof.
  intros H. rewrite smap2_same by (apply shape2_length; exact H).
  transitivity (mapM (fun p => Ok (row p)) (combine s t)); [|apply mapM_pure].
  apply mapM_ext. intros p Hp.
  rewrite smap2_same by (eapply in_combine_shape; eauto). apply mapM_pure.
Qed.

Lemma shape2_grid_map2 (s : list (list A)) (t : list (list B)) :
  shape2 s = shape2 t -> shape2 (grid_map2 g s t) = shape2 s.
Proof.
  revert t; induction s as [|x s IH]; intros [|y t] H; try discriminate H; try reflexivity.
  injection H as Hxy H. unfold grid_map2 in *; simpl. f_equal.
  - rewrite length_map, length_combine, <- Hxy. apply Nat.min_id.
  - apply IH; exact H.
Qed.

Lemma at2_grid_map2 (s : list (list A)) (t : list (list B)) (b e : nat) (x : A) (y : B) :
  at2 s b e = Some x -> at2 t b e = Some y -> at2 (grid_map2 g s t) b e = Some (g x y).
Proof.
  unfold at2. destruct (nth_error s b) as [rs|] eqn:Hs; [|discriminate].
  destruct (nth_error t b) as [rt|] eqn:Ht; [|discriminate]. intros Hx Hy.
  rewrite grid_map2_rows, nth_error_map, (nth_error_combine_some _ _ _ _ _ Hs Ht). simpl.
  unfold row; simpl. rewrite nth_error_map, (nth_error_combine_some _ _ _ _ _ Hx Hy). reflexivity.
Qed.

End Pure2.

Lemma at2_map_map {A B : Type} (f : A -> B) (t : list (list A)) (b e : nat) :
  at2 (map (map f) t) b e = option_map f (at2 t b e).
Proof.
  unfold at2. rewrite nth_error_map. destruct (nth_error t b) as [r|]; simpl; [|reflexivity].
  apply nth_error_map.
Qed.

Lemma shape2_map_map {A B : Type} (f : A -> B) (t : list (list A)) :
  shape2 (map (map f) t) = shape2 t.
Proof. unfold shape2. rewrite map_map. apply map_ext. intros r. apply length_map. Qed.

(** ** Gathering along dimension 1 *)

Lemma index_ok {A : Type} (l : list A) (i : Z) :
  in_range (length l) i -> exists a, index l i = Ok a.
Proof.
  unfold in_range, index. intros H.
  destruct ((0 <=? i) && (i <? Z.of_nat (length l)))%Z eqn:E1.
  - apply andb_prop in E1 as [E1 E2]. apply Z.leb_le in E1. apply Z.ltb_lt in E2.
    destruct (nth_error l (Z.to_nat i)) as [a|] eqn:Hn.
    + exists a; reflexivity.
    + apply nth_error_None in Hn. lia.
  - assert (E2 : ((- Z.of_nat (length l) <=? i) && (i <? 0))%Z = true).
    { apply andb_true_intro. apply andb_false_elim in E1 as [E1|E1].
      - apply Z.leb_gt in E1. split; [apply Z.leb_le | apply Z.ltb_lt]; lia.
      - apply Z.ltb_ge in E1. lia. }
    rewrite E2. apply andb_prop in E2 as [E2 E3]. apply Z.leb_le in E2. apply Z.ltb_lt in E3.
    destruct (nth_error l (Z.to_nat (i + Z.of_nat (length l)))) as [a|] eqn:Hn.
    + exists a; reflexivity.
    + apply nth_error_None in Hn. lia.
Qed.

Lemma index_dim1_ok {A : Type} (t : list (list A)) (idx : list Z) :
  all_in_range t idx -> exists r, index_dim1 t idx = Ok r.
Proof.
  intros H. apply mapM_ok. eapply Forall_impl; [|exact H]. intros row Hrow.
  apply mapM_ok. eapply Forall_impl; [|exact Hrow]. intros i. apply index_ok.
Qed.

Lemma index_dim1_shape {A : Type} (t : list (list A)) (idx : list Z) (r : list (list A)) :
  index_dim1 t idx = Ok r -> shape2 r = repeat (length idx) (length t).
Proof.
  unfold index_dim1. revert r; induction t as [|row t IH]; simpl; intros r H.
  - inversion H; reflexivity.
  - apply bind_ok in H as (x & Hx & H). apply bind_ok in H as (xs & Hxs & H).
    inversion H; subst; simpl. f_equal; [eapply mapM_length; eauto | auto].
Qed.

Lemma index_dim1_at {A : Type} (t : list (list A)) (idx : list Z) (r : list (list A))
    (b e : nat) (row : list A) (i : Z) :
  index_dim1 t idx = Ok r -> nth_error t b = Some row -> nth_error idx e = Some i ->
  exists a, at2 r b e = Some a /\ index row i = Ok a.
Proof.
  intros H Hb He. unfold index_dim1 in H.
  destruct (mapM_nth_error _ _ _ H _ _ Hb) as (rr & Hrr & Hrow).
  destruct (mapM_nth_error _ _ _ Hrow _ _ He) as (a & Ha & Hi).
  exists a. unfold at2. rewrite Hrr. auto.
Qed.

(** Every edge of a well-formed input reads its data without error. *)
Lemma edge_of_ok {P : Type} (poses : list (list SE3)) (patches : list (list P))
    (intrinsics : list (list intr)) (ii jj kk : list Z) (b e : nat)
    (Gb : list SE3) (Pb : list P) (Kb : list intr) (i j k : Z) :
  wf_inputs poses patches intrinsics ii jj kk ->
  nth_error poses b = Some Gb -> nth_error patches b = Some Pb ->
  nth_error intrinsics b = Some Kb ->
  nth_error ii e = Some i -> nth_error jj e = Some j -> nth_error kk e = Some k ->
  exists ed, edge_of Gb Pb Kb i j k = Ok ed.
Proof.
  intros W HG HP HK Hi Hj Hk.
  assert (R : forall (X : Type) (t : list (list X)) (row : list X) idx (x : Z),
             all_in_range t idx -> nth_error t b = Some row -> nth_error idx e = Some x ->
             exists a, index row x = Ok a).
  { intros X t row idx x Ht Hrow Hx. apply index_ok.
    unfold all_in_range in Ht. rewrite Forall_forall in Ht.
    specialize (Ht row (nth_error_In _ _ Hrow)). rewrite Forall_forall in Ht.
    apply Ht. eapply nth_error_In; eauto. }
  destruct (R _ _ _ _ _ (wf_kk_patches _ _ _ _ _ _ W) HP Hk) as (src & Hsrc).
  destruct (R _ _ _ _ _ (wf_ii_intrinsics _ _ _ _ _ _ W) HK Hi) as (Ki & HKi).
  destruct (R _ _ _ _ _ (wf_jj_intrinsics _ _ _ _ _ _ W) HK Hj) as (Kj & HKj).
  destruct (R _ _ _ _ _ (wf_ii_poses _ _ _ _ _ _ W) HG Hi) as (Gi & HGi).
  destruct (R _ _ _ _ _ (wf_jj_poses _ _ _ _ _ _ W) HG Hj) as (Gj & HGj).
  unfold edge_of. rewrite Hsrc, HKi, HKj, HGi, HGj. simpl. eauto.
Qed.

(** ** The front of [transform]: backprojection, relative pose, action
    and projection *)

Section Front.

Context {L : LieOps}.


Lemma gathers_ok {P : Type} (poses : list (list SE3)) (patches : list (list P))
    (intrinsics : list (list intr)) (ii jj kk : list Z) :
  wf_inputs poses patches intrinsics ii jj kk ->
  exists Pk Ki Kj Gi Gj,
    index_dim1 patches kk = Ok Pk /\ index_dim1 intrinsics ii = Ok Ki /\
    index_dim1 intrinsics jj = Ok Kj /\ index_dim1 poses ii = Ok Gi /\
    index_dim1 poses jj = Ok Gj /\
    let sh := repeat (length ii) (length poses) in
    shape2 Pk = sh /\ shape2 Ki = sh /\ shape2 Kj = sh /\ shape2 Gi = sh /\ shape2 Gj = sh.
Proof.
  intros W.
  destruct (index_dim1_ok _ _ (wf_kk_patches _ _ _ _ _ _ W)) as (Pk & HPk).
  destruct (index_dim1_ok _ _ (wf_ii_intrinsics _ _ _ _ _ _ W)) as (Ki & HKi).
  destruct (index_dim1_ok _ _ (wf_jj_intrinsics _ _ _ _ _ _ W)) as (Kj & HKj).
  destruct (index_dim1_ok _ _ (wf_ii_poses _ _ _ _ _ _ W)) as (Gi & HGi).
  destruct (index_dim1_ok _ _ (wf_jj_poses _ _ _ _ _ _ W)) as (Gj & HGj).
  exists Pk, Ki, Kj, Gi, Gj. repeat split; try assumption.
  - rewrite (index_dim1_shape _ _ _ HPk), (wf_len_kk _ _ _ _ _ _ W),
      (wf_batch_patches _ _ _ _ _ _ W). reflexivity.
  - rewrite (index_dim1_shape _ _ _ HKi), (wf_batch_intrinsics _ _ _ _ _ _ W). reflexivity.
  - rewrite (index_dim1_shape _ _ _ HKj), (wf_len_jj _ _ _ _ _ _ W),
      (wf_batch_intrinsics _ _ _ _ _ _ W). reflexivity.
  - rewrite (index_dim1_shape _ _ _ HGi). reflexivity.
  - rewrite (index_dim1_shape _ _ _ HGj), (wf_len_jj _ _ _ _ _ _ W). reflexivity.
Qed.

Lemma shape2_Gij_of (Gj Gi : list (list SE3)) (tonly : bool) :
  shape2 Gj = shape2 Gi -> shape2 (Gij_of Gj Gi tonly) = shape2 Gj.
Proof.
  intros H. unfold Gij_of. destruct tonly; [rewrite shape2_map_map|];
    apply shape2_grid_map2; exact H.
Qed.

(** With operands of one shape the front of [transform] raises nothing
    and computes the closed forms. *)
Lemma front_eq (Pk : list (list patch)) (Ki Kj : list (list intr)) (Gi Gj : list (list SE3))
    (depth tonly : bool) (sh : list nat) :
  shape2 Pk = sh -> shape2 Ki = sh -> shape2 Kj = sh -> shape2 Gi = sh -> shape2 Gj = sh ->
  let Gij := Gij_of Gj Gi tonly in
  let X1 := X1_of Gij (X0_of Pk Ki) in
  iproj Pk Ki = Ok (X0_of Pk Ki) /\
  relative_pose Gj Gi = Ok (Gij_of Gj Gi false) /\
  act_grids Gij (X0_of Pk Ki) = Ok X1 /\
  proj X1 Kj depth = Ok (x1_of X1 Kj depth) /\
  shape2 Gij = sh /\ shape2 X1 = sh.
Proof.
  intros HP HKi HKj HGi HGj Gij X1.
  assert (S0 : shape2 (X0_of Pk Ki) = sh).
  { unfold X0_of. rewrite shape2_grid_map2; shapes. }
  assert (SG : shape2 Gij = sh).
  { unfold Gij. rewrite shape2_Gij_of; shapes. }
  assert (S1 : shape2 X1 = sh).
  { unfold X1, X1_of. rewrite shape2_grid_map2; shapes. }
  repeat split; try assumption.
  - apply bmap2_into_pure2; shapes.
  - apply bmap2_pure2; shapes.
  - apply bmap2_pure2; shapes.
  - unfold proj, x1_of. destruct depth; [apply bmap2_into_pure2 | apply bmap2_pure2]; shapes.
Qed.

End Front.

Section FrontEdges.

Context {L : LieOps}.

Lemma edge_of_inv {P : Type} (Gb : list SE3) (Pb : list P) (Kb : list intr) (i j k : Z)
    (ed : edge_data P) :
  edge_of Gb Pb Kb i j k = Ok ed ->
  index Pb k = Ok (e_src ed) /\ index Kb i = Ok (e_Ki ed) /\ index Kb j = Ok (e_Kj ed) /\
  index Gb i = Ok (e_Gi ed) /\ index Gb j = Ok (e_Gj ed).
Proof.
  unfold edge_of. intros H.
  apply bind_ok in H as (src & Hsrc & H). apply bind_ok in H as (Ki & HKi & H).
  apply bind_ok in H as (Kj & HKj & H). apply bind_ok in H as (Gi & HGi & H).
  apply bind_ok in H as (Gj & HGj & H). inversion H; subst; simpl. auto.
Qed.

Lemma grid_map_map {A B C : Type} (f : A -> B) (g : B -> C) (t : grid A) :
  grid_map g (grid_map f t) = grid_map (fun a => g (f a)) t.
Proof.
  unfold grid_map. rewrite map_map. apply map_ext. intros r. apply map_map.
Qed.

(** The entry of an edge in a gathered tensor is what [edge_of] reads. *)
Lemma gathered_at {A : Type} (t r : list (list A)) (idx : list Z) (b e : nat)
    (row : list A) (i : Z) (a : A) :
  index_dim1 t idx = Ok r -> nth_error t b = Some row -> nth_error idx e = Some i ->
  index row i = Ok a -> at2 r b e = Some a.
Proof.
  intros H Hb He Ha. destruct (index_dim1_at _ _ _ _ _ _ _ H Hb He) as (a' & Hat & Hi).
  rewrite Hi in Ha. inversion Ha; subst. exact Hat.
Qed.

Lemma at2_Gij_of (Gj Gi : list (list SE3)) (tonly : bool) (b e : nat) (gj gi : SE3) :
  at2 Gj b e = Some gj -> at2 Gi b e = Some gi ->
  at2 (Gij_of Gj Gi tonly) b e =
    Some (let g := lie_mul gj (lie_inv gi) in if tonly then set_rotation_identity g else g).
Proof.
  intros Hj Hi. unfold Gij_of.
  pose proof (at2_grid_map2 (fun gj gi => lie_mul gj (lie_inv gi)) _ _ _ _ _ _ Hj Hi) as H.
  destruct tonly; [rewrite at2_map_map, H; reflexivity | exact H].
Qed.

Lemma front_at (poses : list (list SE3)) (patches : list (list patch))
    (intrinsics : list (list intr)) (ii jj kk : list Z)
    (Pk : list (list patch)) (Ki Kj : list (list intr)) (Gi Gj : list (list SE3))
    (b e : nat) (Gb : list SE3) (Pb : list patch) (Kb : list intr) (i j k : Z)
    (ed : edge_data patch) (depth tonly : bool) :
  index_dim1 patches kk = Ok Pk -> index_dim1 intrinsics ii = Ok Ki ->
  index_dim1 intrinsics jj = Ok Kj -> index_dim1 poses ii = Ok Gi ->
  index_dim1 poses jj = Ok Gj ->
  nth_error poses b = Some Gb -> nth_error patches b = Some Pb ->
  nth_error intrinsics b = Some Kb ->
  nth_error ii e = Some i -> nth_error jj e = Some j -> nth_error kk e = Some k ->
  edge_of Gb Pb Kb i j k = Ok ed ->
  let Gij := Gij_of Gj Gi tonly in
  let X1 := X1_of Gij (X0_of Pk Ki) in
  at2 Gij b e = Some (edge_Gij ed tonly) /\
  at2 Kj b e = Some (e_Kj ed) /\
  at2 X1 b e = Some (grid_map (edge_point ed tonly) (e_src ed)) /\
  at2 (x1_of X1 Kj depth) b e = Some (edge_coords ed depth tonly).
Proof.
  intros HPk HKi HKj HGi HGj HG HP HK Hi Hj Hk Hed Gij X1.
  apply edge_of_inv in Hed as (Es & EKi & EKj & EGi & EGj).
  pose proof (gathered_at _ _ _ _ _ _ _ _ HPk HP Hk Es) as As.
  pose proof (gathered_at _ _ _ _ _ _ _ _ HKi HK Hi EKi) as AKi.
  pose proof (gathered_at _ _ _ _ _ _ _ _ HKj HK Hj EKj) as AKj.
  pose proof (gathered_at _ _ _ _ _ _ _ _ HGi HG Hi EGi) as AGi.
  pose proof (gathered_at _ _ _ _ _ _ _ _ HGj HG Hj EGj) as AGj.
  assert (AG : at2 Gij b e = Some (edge_Gij ed tonly)).
  { unfold Gij. rewrite (at2_Gij_of _ _ _ _ _ _ _ AGj AGi). reflexivity. }
  assert (A0 : at2 (X0_of Pk Ki) b e = Some (grid_map (fun p => iproj_pt p (e_Ki ed)) (e_src ed))).
  { exact (at2_grid_map2 (fun P K => grid_map (fun p => iproj_pt p K) P) _ _ _ _ _ _ As AKi). }
  assert (A1 : at2 X1 b e = Some (grid_map (edge_point ed tonly) (e_src ed))).
  { unfold X1, X1_of.
    rewrite (at2_grid_map2 (fun g P => grid_map (lie_act g) P) _ _ _ _ _ _ AG A0), grid_map_map.
    reflexivity. }
  repeat split; try assumption.
  unfold x1_of.
  rewrite (at2_grid_map2 (fun G K => grid_map (fun P => proj_pt P K depth) G) _ _ _ _ _ _ A1 AKj),
    grid_map_map.
  reflexivity.
Qed.

(** [transform] on well-formed inputs: the gathers succeed and the front
    computes its closed forms; what is left is the choice of the flags. *)
Lemma transform_wf (poses : list (list SE3)) (patches : list (list patch))
    (intrinsics : list (list intr)) (ii jj kk : list Z) (depth valid jacobian tonly : bool) :
  wf_inputs poses patches intrinsics ii jj kk ->
  exists Pk Ki Kj Gi Gj,
    (index_dim1 patches kk = Ok Pk /\ index_dim1 intrinsics ii = Ok Ki /\
     index_dim1 intrinsics jj = Ok Kj /\ index_dim1 poses ii = Ok Gi /\
     index_dim1 poses jj = Ok Gj) /\
    let Gij := Gij_of Gj Gi tonly in
    let X1 := X1_of Gij (X0_of Pk Ki) in
    let x1 := x1_of X1 Kj depth in
    (shape2 Gij = repeat (length ii) (length poses) /\
     shape2 X1 = repeat (length ii) (length poses) /\
     shape2 Kj = repeat (length ii) (length poses)) /\
    transform poses patches intrinsics ii jj kk depth valid jacobian tonly =
      if jacobian then transform_jacobian intrinsics ii jj Gij X1 x1
      else if valid then
        Ok (CoordsValid x1 (map (map (grid_map (fun P => to_float (Qltb (2 # 10) (hZ P))))) X1))
      else Ok (Coords x1).
Proof.
  intros W.
  destruct (gathers_ok _ _ _ _ _ _ W) as (Pk & Ki & Kj & Gi & Gj & HPk & HKi & HKj & HGi & HGj & S).
  simpl in S. destruct S as (SP & SKi & SKj & SGi & SGj).
  exists Pk, Ki, Kj, Gi, Gj. split; [auto 10|].
  destruct (front_eq Pk Ki Kj Gi Gj depth tonly _ SP SKi SKj SGi SGj)
    as (E0 & EG & E1 & Ex & SG & S1).
  intros Gij X1 x1. split; [subst Gij X1; auto|].
  assert (EG' : (if tonly then map (map set_rotation_identity) (Gij_of Gj Gi false)
                 else Gij_of Gj Gi false) = Gij_of Gj Gi tonly).
  { unfold Gij_of. destruct tonly; reflexivity. }
  subst Gij X1 x1. simpl in E1, Ex.
  unfold transform. rewrite HPk, HKi. cbn [bind]. rewrite E0. cbn [bind].
  rewrite HGj, HGi. cbn [bind]. rewrite EG. cbn [bind]. cbv zeta. rewrite EG'.
  rewrite E1. cbn [bind]. rewrite HKj. cbn [bind]. rewrite Ex. reflexivity.
Qed.

End FrontEdges.

(** ** The Jacobian block *)

Section JacobianBlock.

Context {L : LieOps}.


Lemma view1_single {A : Type} (t : list (list A)) (n : nat) :
  shape2 t = [n] -> view1 t n = Ok t.
Proof.
  destruct t as [|row [|row' t]]; try discriminate. simpl. intros H.
  unfold view1. simpl. rewrite app_nil_r. injection H as H. rewrite H, Nat.eqb_refl. reflexivity.
Qed.

(** An operation that succeeds on the entries at hand is an elementwise
    map. *)
Lemma bmap2_on {A B C : Type} (PA : A -> Prop) (PB : B -> Prop)
    (f : A -> B -> result C) (g : A -> B -> C) (s : list (list A)) (t : list (list B)) :
  (forall a b, PA a -> PB b -> f a b = Ok (g a b)) ->
  Forall (Forall PA) s -> Forall (Forall PB) t -> shape2 s = shape2 t ->
  bmap2 (bmap2 f) s t = Ok (grid_map2 g s t).
Proof.
  intros Hf Hs Ht Hsh. rewrite <- (bmap2_pure2 g s t Hsh).
  rewrite !bmap2_same by (apply shape2_length; exact Hsh).
  apply mapM_ext. intros [rs rt] Hin. simpl.
  pose proof (in_combine_shape _ _ _ Hsh Hin) as Hlen. simpl in Hlen.
  rewrite !bmap2_same by exact Hlen.
  apply mapM_ext. intros [a b] Hab. simpl.
  rewrite Forall_forall in Hs, Ht.
  pose proof (Hs _ (in_combine_l _ _ _ _ Hin)) as Hrs.
  pose proof (Ht _ (in_combine_r _ _ _ _ Hin)) as Hrt.
  rewrite Forall_forall in Hrs, Hrt.
  apply Hf; [apply Hrs; eapply in_combine_l; eauto | apply Hrt; eapply in_combine_r; eauto].
Qed.

Lemma Forall2_grid_map2_l {A B C : Type} (PA : A -> Prop) (PC : C -> Prop) (g : A -> B -> C)
    (s : list (list A)) (t : list (list B)) :
  (forall a b, PA a -> PC (g a b)) -> Forall (Forall PA) s -> Forall (Forall PC) (grid_map2 g s t).
Proof.
  intros Hg Hs. rewrite Forall_forall in Hs. apply Forall_forall. intros r Hr.
  unfold grid_map2 in Hr. apply in_map_iff in Hr as ([rs rt] & <- & Hin). simpl.
  pose proof (Hs _ (in_combine_l _ _ _ _ Hin)) as Hrs. rewrite Forall_forall in Hrs.
  apply Forall_forall. intros c Hc. apply in_map_iff in Hc as ([a b] & <- & Hab). simpl.
  apply Hg, Hrs. eapply in_combine_l; eauto.
Qed.

Lemma Forall2_grid_map2_r {A B C : Type} (PB : B -> Prop) (PC : C -> Prop) (g : A -> B -> C)
    (s : list (list A)) (t : list (list B)) :
  (forall a b, PB b -> PC (g a b)) -> Forall (Forall PB) t -> Forall (Forall PC) (grid_map2 g s t).
Proof.
  intros Hg Ht. rewrite Forall_forall in Ht. apply Forall_forall. intros r Hr.
  unfold grid_map2 in Hr. apply in_map_iff in Hr as ([rs rt] & <- & Hin). simpl.
  pose proof (Ht _ (in_combine_r _ _ _ _ Hin)) as Hrt. rewrite Forall_forall in Hrt.
  apply Forall_forall. intros c Hc. apply in_map_iff in Hc as ([a b] & <- & Hab). simpl.
  apply Hg, Hrt. eapply in_combine_r; eauto.
Qed.

Lemma Forall2_map_map {A B : Type} (PB : B -> Prop) (f : A -> B) (t : list (list A)) :
  (forall a, PB (f a)) -> Forall (Forall PB) (map (map f) t).
Proof.
  intros Hf. apply Forall_forall. intros r Hr. apply in_map_iff in Hr as (r0 & <- & _).
  apply Forall_forall. intros c Hc. apply in_map_iff in Hc as (a & <- & _). apply Hf.
Qed.

Lemma matmul_Jp_Ja (P P' : hpoint) (K : intr) :
  matmul (Jp_of P K) (Ja_of P') = Ok (mat_product (Jp_of P K) (Ja_of P')).
Proof. reflexivity. Qed.

Lemma matmul_rows4 (A B : matrix) :
  Forall (fun r => length r = 4%nat) A -> length B = 4%nat ->
  matmul A B = Ok (mat_product A B).
Proof.
  intros HA HB. unfold matmul.
  replace (forallb (fun row => Nat.eqb (length row) (length B)) A) with true; [reflexivity|].
  symmetry. apply forallb_forall. intros r Hr. rewrite Forall_forall in HA.
  rewrite (HA r Hr), HB. reflexivity.
Qed.

Lemma Jp_of_rows4 (P : hpoint) (K : intr) : Forall (fun r => length r = 4%nat) (Jp_of P K).
Proof. repeat constructor. Qed.

(** With a batch of one and a center in every grid the block raises
    nothing and computes the closed forms. *)
Lemma transform_jacobian_eq (intrinsics : list (list intr)) (ii jj : list Z)
    (Gij : list (list SE3)) (X1 : list (list (grid hpoint))) (x1 : list (list (grid (list Q))))
    (Kj : list (list intr)) (Xc : list (list hpoint)) :
  (forall g, length (lie_matrix g) = 4%nat) ->
  index_dim1 intrinsics jj = Ok Kj ->
  mapM (mapM center) X1 = Ok Xc ->
  shape2 Xc = [length ii] -> shape2 Gij = [length ii] -> shape2 Kj = [length ii] ->
  transform_jacobian intrinsics ii jj Gij X1 x1 =
    Ok (CoordsJac x1 (map (map valid_flag) Xc) (Ji_t Gij Xc Kj) (Jj_t Xc Kj) (Jz_t Gij Xc Kj)).
Proof.
  intros HM HKj HXc Sc SG SK.
  assert (SJa : shape2 (map (map Ja_of) Xc) = [length ii]) by (rewrite shape2_map_map; exact Sc).
  assert (SJp : shape2 (Jp_t Xc Kj) = [length ii]).
  { unfold Jp_t. rewrite shape2_grid_map2; shapes. }
  assert (SJj : shape2 (Jj_t Xc Kj) = [length ii]).
  { unfold Jj_t. rewrite shape2_grid_map2; shapes. }
  assert (FJp : Forall (Forall (fun A => Forall (fun r => length r = 4%nat) A)) (Jp_t Xc Kj)).
  { unfold Jp_t. apply Forall2_grid_map2_l with (PA := fun _ => True).
    - intros a b _. apply Jp_of_rows4.
    - apply Forall_forall. intros r _. apply Forall_forall. auto. }
  unfold transform_jacobian. rewrite HXc. cbn [bind]. rewrite HKj. cbn [bind].
  rewrite (view1_single _ _ SJa). cbn [bind].
  rewrite (bmap2_into_pure2 Jp_of Xc Kj) by shapes. cbn [bind].
  fold (Jp_t Xc Kj). rewrite (view1_single _ _ SJp). cbn [bind].
  rewrite (bmap2_on (fun A => Forall (fun r => length r = 4%nat) A) (fun B => length B = 4%nat)
             matmul mat_product); cycle 1.
  { intros; apply matmul_rows4; assumption. }
  { exact FJp. }
  { apply Forall2_map_map. reflexivity. }
  { shapes. }
  cbn [bind]. fold (Jj_t Xc Kj).
  rewrite (bmap2_pure2 (fun g J => map (fun a => map Qopp (lie_adjT g a)) J)) by shapes.
  cbn [bind]. fold (Ji_t Gij Xc Kj).
  rewrite (bmap2_on (fun A => Forall (fun r => length r = 4%nat) A) (fun _ => True)
             (fun J g => matmul J (map (skipn 3) (lie_matrix g)))
             (fun J g => mat_product J (map (skipn 3) (lie_matrix g)))); cycle 1.
  { intros A g HA _. apply matmul_rows4; [exact HA|]. rewrite length_map. apply HM. }
  { exact FJp. }
  { apply Forall_forall. intros r _. apply Forall_forall. auto. }
  { shapes. }
  reflexivity.
Qed.

End JacobianBlock.

(** ** Centers of grids *)

Lemma center_grid_map {A B : Type} (f : A -> B) (g : grid A) (a : A) :
  center g = Ok a -> center (grid_map f g) = Ok (f a).
Proof.
  unfold center, grid_map. rewrite length_map, nth_error_map.
  destruct (nth_error g (length g / 2)) as [row|]; [|discriminate]. cbn [of_option bind option_map].
  rewrite nth_error_map.
  destruct (nth_error row (length g / 2)) as [a'|]; [|discriminate]. cbn [of_option option_map].
  intros H. inversion H; reflexivity.
Qed.

Lemma index_In {A : Type} (l : list A) (i : Z) (a : A) : index l i = Ok a -> In a l.
Proof.
  unfold index. intros H.
  destruct ((0 <=? i) && (i <? Z.of_nat (length l)))%Z.
  - destruct (nth_error l (Z.to_nat i)) eqn:E; [|discriminate].
    inversion H; subst. eapply nth_error_In; eauto.
  - destruct ((- Z.of_nat (length l) <=? i) && (i <? 0))%Z; [|discriminate].
    destruct (nth_error l (Z.to_nat (i + Z.of_nat (length l)))) eqn:E; [|discriminate].
    inversion H; subst. eapply nth_error_In; eauto.
Qed.

Lemma mapM2_ok {A B : Type} (f : A -> result B) (t : list (list A)) :
  Forall (Forall (fun a => exists b, f a = Ok b)) t -> exists r, mapM (mapM f) t = Ok r.
Proof.
  intros H. apply mapM_ok. eapply Forall_impl; [|exact H]. intros row. apply mapM_ok.
Qed.

Lemma mapM2_shape {A B : Type} (f : A -> result B) (t : list (list A)) (r : list (list B)) :
  mapM (mapM f) t = Ok r -> shape2 r = shape2 t.
Proof.
  revert r; induction t as [|row t IH]; simpl; intros r H.
  - inversion H; reflexivity.
  - apply bind_ok in H as (x & Hx & H). apply bind_ok in H as (xs & Hxs & H).
    inversion H; subst; simpl. f_equal; [eapply mapM_length; eauto | auto].
Qed.

Lemma mapM2_at {A B : Type} (f : A -> result B) (t : list (list A)) (r : list (list B))
    (b e : nat) (a : A) :
  mapM (mapM f) t = Ok r -> at2 t b e = Some a -> exists c, at2 r b e = Some c /\ f a = Ok c.
Proof.
  unfold at2. intros H Ha. destruct (nth_error t b) as [row|] eqn:Hb; [|discriminate].
  destruct (mapM_nth_error _ _ _ H _ _ Hb) as (rr & Hrr & Hrow).
  destruct (mapM_nth_error _ _ _ Hrow _ _ Ha) as (c & Hc & Hf).
  exists c. rewrite Hrr. auto.
Qed.

(** ** Extensionality of tensors *)

Lemma list_ext_some {A : Type} (l l' : list A) :
  length l = length l' ->
  (forall n x y, nth_error l n = Some x -> nth_error l' n = Some y -> x = y) -> l = l'.
Proof.
  revert l'; induction l as [|a l IH]; intros [|a' l'] Hlen H; try discriminate; [reflexivity|].
  f_equal.
  - apply (H 0%nat); reflexivity.
  - apply IH; [simpl in Hlen; lia|]. intros n x y Hx Hy. apply (H (S n)); assumption.
Qed.

Lemma tensor_ext {A : Type} (s t : list (list A)) :
  shape2 s = shape2 t ->
  (forall b e x y, at2 s b e = Some x -> at2 t b e = Some y -> x = y) -> s = t.
Proof.
  intros Hsh H. apply list_ext_some; [apply shape2_length; exact Hsh|].
  intros b r r' Hr Hr'. apply list_ext_some.
  - unfold shape2 in Hsh. apply (f_equal (fun l => nth_error l b)) in Hsh.
    rewrite !nth_error_map, Hr, Hr' in Hsh. simpl in Hsh. congruence.
  - intros e x y Hx Hy. apply (H b e); unfold at2; [rewrite Hr | rewrite Hr']; assumption.
Qed.

Lemma at2_shape_repeat {A : Type} (t : list (list A)) (n m b e : nat) (a : A) :
  shape2 t = repeat n m -> at2 t b e = Some a -> (b < m)%nat /\ (e < n)%nat.
Proof.
  unfold at2. intros Hsh H. destruct (nth_error t b) as [row|] eqn:Hb; [|discriminate].
  assert (Hlen : nth_error (shape2 t) b = Some (length row)).
  { unfold shape2. rewrite nth_error_map, Hb. reflexivity. }
  rewrite Hsh in Hlen.
  assert (Hbm : (b < m)%nat).
  { rewrite <- (repeat_length n m). apply nth_error_Some. congruence. }
  split; [exact Hbm|].
  rewrite nth_error_repeat in Hlen by exact Hbm. inversion Hlen; subst n.
  apply nth_error_Some. congruence.
Qed.

(** ** [transform] with [jacobian] on well-formed inputs *)

Section JacobianPath.

Context {L : LieOps}.

Lemma mapM_Forall {A B : Type} (f : A -> result B) (Q : B -> Prop) (l : list A) (r : list B) :
  (forall a b, In a l -> f a = Ok b -> Q b) -> mapM f l = Ok r -> Forall Q r.
Proof.
  revert r; induction l as [|a l IH]; simpl; intros r Hf H.
  - inversion H; constructor.
  - apply bind_ok in H as (b & Hb & H). apply bind_ok in H as (bs & Hbs & H).
    inversion H; subst. constructor; [eapply Hf; eauto | apply IH; auto].
    intros; eapply Hf; eauto.
Qed.

Lemma index_dim1_Forall {A : Type} (Q : A -> Prop) (t r : list (list A)) (idx : list Z) :
  Forall (Forall Q) t -> index_dim1 t idx = Ok r -> Forall (Forall Q) r.
Proof.
  intros Ht H. unfold index_dim1 in H. eapply mapM_Forall; [|exact H].
  intros row rr Hrow Hrr. simpl in Hrr. eapply mapM_Forall; [|exact Hrr].
  intros i a _ Hi. simpl in Hi. rewrite Forall_forall in Ht.
  specialize (Ht row Hrow). rewrite Forall_forall in Ht. apply Ht. eapply index_In; eauto.
Qed.

Lemma has_center_grid_map {A B : Type} (f : A -> B) (g : grid A) :
  has_center g -> has_center (grid_map f g).
Proof. intros (a & Ha). exists (f a). apply center_grid_map; exact Ha. Qed.

(** The outputs of the Jacobian path and their entries, edge by edge. *)
Lemma transform_jacobian_spec (poses : list (list SE3)) (patches : list (list patch))
    (intrinsics : list (list intr)) (ii jj kk : list Z) (depth valid tonly : bool) :
  wf_inputs poses patches intrinsics ii jj kk ->
  wf_jacobian_inputs poses patches ->
  matrix_4x4 L ->
  exists x1 vm Ji Jj Jz,
    transform poses patches intrinsics ii jj kk depth valid true tonly
      = Ok (CoordsJac x1 vm Ji Jj Jz) /\
    shape2 vm = [length ii] /\ shape2 Ji = [length ii] /\ shape2 Jj = [length ii] /\
    shape2 Jz = [length ii] /\
    forall b e Gb Pb Kb i j k,
      nth_error poses b = Some Gb -> nth_error patches b = Some Pb ->
      nth_error intrinsics b = Some Kb ->
      nth_error ii e = Some i -> nth_error jj e = Some j -> nth_error kk e = Some k ->
      exists ed pc,
        edge_of Gb Pb Kb i j k = Ok ed /\ center (e_src ed) = Ok pc /\
        let c := edge_point ed tonly pc in
        let K := e_Kj ed in
        let g := edge_Gij ed tonly in
        at2 x1 b e = Some (edge_coords ed depth tonly) /\
        at2 vm b e = Some (valid_flag c) /\
        at2 Jj b e = Some (mat_product (Jp_of c K) (Ja_of c)) /\
        at2 Ji b e =
          Some (map (fun a => map Qopp (lie_adjT g a)) (mat_product (Jp_of c K) (Ja_of c))) /\
        at2 Jz b e = Some (mat_product (Jp_of c K) (map (skipn 3) (lie_matrix g))).
Proof.
  intros W [HB HC] HM.
  destruct (transform_wf poses patches intrinsics ii jj kk depth valid true tonly W)
    as (Pk & Ki & Kj & Gi & Gj & (HPk & HKi & HKj & HGi & HGj) & H).
  cbv zeta in H. destruct H as ((SG & S1 & SK) & Ht).
  rewrite HB in SG, S1, SK. simpl in SG, S1, SK.
  set (Gij := Gij_of Gj Gi tonly) in *. set (X1 := X1_of Gij (X0_of Pk Ki)) in *.
  assert (HCk : Forall (Forall has_center) Pk) by (eapply index_dim1_Forall; eauto).
  assert (HC1 : Forall (Forall (fun G => exists c, center G = Ok c)) X1).
  { unfold X1, X1_of. apply Forall2_grid_map2_r with (PB := has_center).
    - intros g G HG. apply (has_center_grid_map (lie_act g)). exact HG.
    - unfold X0_of. apply Forall2_grid_map2_l with (PA := has_center); [|exact HCk].
      intros P K HP. apply (has_center_grid_map (fun p => iproj_pt p K)). exact HP. }
  destruct (mapM2_ok _ _ HC1) as (Xc & HXc).
  assert (Sc : shape2 Xc = [length ii]) by (rewrite (mapM2_shape _ _ _ HXc); exact S1).
  rewrite (transform_jacobian_eq intrinsics ii jj Gij X1 _ Kj Xc
             (fun g => proj1 (HM g)) HKj HXc Sc SG SK) in Ht.
  eexists _, _, _, _, _. split; [exact Ht|].
  assert (SJp : shape2 (Jp_t Xc Kj) = [length ii]).
  { unfold Jp_t. rewrite shape2_grid_map2; shapes. }
  assert (SJj : shape2 (Jj_t Xc Kj) = [length ii]).
  { unfold Jj_t. rewrite shape2_grid_map2; [exact SJp | rewrite shape2_map_map; shapes]. }
  split; [rewrite shape2_map_map; exact Sc|].
  split; [unfold Ji_t; rewrite shape2_grid_map2; shapes|].
  split; [exact SJj|].
  split; [unfold Jz_t; rewrite shape2_grid_map2; shapes|].
  intros b e Gb Pb Kb i j k HG HP HK Hi Hj Hk.
  destruct (edge_of_ok _ _ _ _ _ _ _ _ _ _ _ _ _ _ W HG HP HK Hi Hj Hk) as (ed & Hed).
  destruct (front_at _ _ _ _ _ _ _ _ _ _ _ _ _ _ _ _ _ _ _ _ depth tonly
              HPk HKi HKj HGi HGj HG HP HK Hi Hj Hk Hed) as (AG & AK & A1 & Ax).
  fold Gij in AG, A1, Ax. fold X1 in A1, Ax.
  assert (Hc : has_center (e_src ed)).
  { destruct (edge_of_inv _ _ _ _ _ _ _ Hed) as (Es & _).
    rewrite Forall_forall in HC. specialize (HC Pb (nth_error_In _ _ HP)).
    rewrite Forall_forall in HC. apply HC. eapply index_In; eauto. }
  destruct Hc as (pc & Hpc). exists ed, pc. split; [exact Hed|]. split; [exact Hpc|].
  destruct (mapM2_at _ _ _ _ _ _ HXc A1) as (c & Ac & Ec).
  rewrite (center_grid_map (edge_point ed tonly) _ _ Hpc) in Ec. inversion Ec; subst c.
  assert (AJp : at2 (Jp_t Xc Kj) b e = Some (Jp_of (edge_point ed tonly pc) (e_Kj ed))).
  { exact (at2_grid_map2 Jp_of _ _ _ _ _ _ Ac AK). }
  assert (AJa : at2 (map (map Ja_of) Xc) b e = Some (Ja_of (edge_point ed tonly pc))).
  { rewrite at2_map_map, Ac. reflexivity. }
  assert (AJj : at2 (Jj_t Xc Kj) b e =
                Some (mat_product (Jp_of (edge_point ed tonly pc) (e_Kj ed))
                        (Ja_of (edge_point ed tonly pc)))).
  { exact (at2_grid_map2 mat_product _ _ _ _ _ _ AJp AJa). }
  cbv zeta. repeat split.
  - exact Ax.
  - rewrite at2_map_map, Ac. reflexivity.
  - exact AJj.
  - exact (at2_grid_map2 (fun g J => map (fun a => map Qopp (lie_adjT g a)) J)
             _ _ _ _ _ _ AG AJj).
  - exact (at2_grid_map2 (fun J g => mat_product J (map (skipn 3) (lie_matrix g)))
             _ _ _ _ _ _ AJp AG).
Qed.

End JacobianPath.

(** ** [transform] without [jacobian] on well-formed inputs *)

Section CoordsPath.

Context {L : LieOps}.

Lemma transform_coords_spec (poses : list (list SE3)) (patches : list (list patch))
    (intrinsics : list (list intr)) (ii jj kk : list Z) (depth tonly : bool) :
  wf_inputs poses patches intrinsics ii jj kk ->
  exists x1,
    transform poses patches intrinsics ii jj kk depth false false tonly = Ok (Coords x1) /\
    shape2 x1 = repeat (length ii) (length poses) /\
    forall b e Gb Pb Kb i j k,
      nth_error poses b = Some Gb -> nth_error patches b = Some Pb ->
      nth_error intrinsics b = Some Kb ->
      nth_error ii e = Some i -> nth_error jj e = Some j -> nth_error kk e = Some k ->
      exists ed,
        edge_of Gb Pb Kb i j k = Ok ed /\ at2 x1 b e = Some (edge_coords ed depth tonly).
Proof.
  intros W.
  destruct (transform_wf poses patches intrinsics ii jj kk depth false false tonly W)
    as (Pk & Ki & Kj & Gi & Gj & (HPk & HKi & HKj & HGi & HGj) & H).
  cbv zeta in H. destruct H as ((SG & S1 & SK) & Ht).
  eexists. split; [exact Ht|]. split.
  { unfold x1_of. rewrite shape2_grid_map2; shapes. }
  intros b e Gb Pb Kb i j k HG HP HK Hi Hj Hk.
  destruct (edge_of_ok _ _ _ _ _ _ _ _ _ _ _ _ _ _ W HG HP HK Hi Hj Hk) as (ed & Hed).
  destruct (front_at _ _ _ _ _ _ _ _ _ _ _ _ _ _ _ _ _ _ _ _ depth tonly
              HPk HKi HKj HGi HGj HG HP HK Hi Hj Hk Hed) as (_ & _ & _ & Ax).
  exists ed. split; [exact Hed | exact Ax].
Qed.

Lemma transform_valid_spec (poses : list (list SE3)) (patches : list (list patch))
    (intrinsics : list (list intr)) (ii jj kk : list Z) (depth tonly : bool) :
  wf_inputs poses patches intrinsics ii jj kk ->
  exists x1 vm,
    transform poses patches intrinsics ii jj kk depth true false tonly
      = Ok (CoordsValid x1 vm) /\
    forall b e Gb Pb Kb i j k,
      nth_error poses b = Some Gb -> nth_error patches b = Some Pb ->
      nth_error intrinsics b = Some Kb ->
      nth_error ii e = Some i -> nth_error jj e = Some j -> nth_error kk e = Some k ->
      exists ed,
        edge_of Gb Pb Kb i j k = Ok ed /\
        at2 x1 b e = Some (edge_coords ed depth tonly) /\
        at2 vm b e = Some (grid_map (fun p => valid_flag (edge_point ed tonly p)) (e_src ed)).
Proof.
  intros W.
  destruct (transform_wf poses patches intrinsics ii jj kk depth true false tonly W)
    as (Pk & Ki & Kj & Gi & Gj & (HPk & HKi & HKj & HGi & HGj) & H).
  cbv zeta in H. destruct H as (_ & Ht).
  eexists _, _. split; [exact Ht|].
  intros b e Gb Pb Kb i j k HG HP HK Hi Hj Hk.
  destruct (edge_of_ok _ _ _ _ _ _ _ _ _ _ _ _ _ _ W HG HP HK Hi Hj Hk) as (ed & Hed).
  destruct (front_at _ _ _ _ _ _ _ _ _ _ _ _ _ _ _ _ _ _ _ _ depth tonly
              HPk HKi HKj HGi HGj HG HP HK Hi Hj Hk Hed) as (_ & _ & A1 & Ax).
  exists ed. split; [exact Hed|]. split; [exact Ax|].
  rewrite at2_map_map, A1. simpl. rewrite grid_map_map. reflexivity.
Qed.

End CoordsPath.

(** ** Comparisons, the clamp and the validity flag *)

Lemma Qltb_lt (a b : Q) : Qltb a b = true <-> a < b.
Proof.
  unfold Qltb. rewrite negb_true_iff. split.
  - intros H. apply Qnot_le_lt. intros Hle. apply Qle_bool_iff in Hle. congruence.
  - intros H. destruct (Qle_bool b a) eqn:E; [|reflexivity].
    apply Qle_bool_iff in E. exfalso. apply (Qlt_not_le _ _ H E).
Qed.

Lemma Qltb_ge (a b : Q) : Qltb a b = false <-> b <= a.
Proof.
  unfold Qltb. rewrite negb_false_iff. apply Qle_bool_iff.
Qed.

Lemma clamp_min_bounds (z : Q) : 1 # 10 <= clamp_min z (1 # 10).
Proof.
  unfold clamp_min. destruct (Qltb z (1 # 10)) eqn:E.
  - apply Qle_refl.
  - apply Qltb_ge in E. exact E.
Qed.

Lemma clamp_min_above (z m : Q) : m <= z -> clamp_min z m = z.
Proof.
  intros H. unfold clamp_min. apply Qltb_ge in H. rewrite H. reflexivity.
Qed.

Lemma clamp_min_below (z m : Q) : z < m -> clamp_min z m = m.
Proof.
  intros H. unfold clamp_min. apply Qltb_lt in H. rewrite H. reflexivity.
Qed.

(** The depth term of [proj] lies in (0, 10] whatever the point. *)
Lemma proj_depth_bounded (z : Q) :
  0 < 1 / clamp_min z (1 # 10) /\ 1 / clamp_min z (1 # 10) <= 10.
Proof.
  pose proof (clamp_min_bounds z) as H. set (c := clamp_min z (1 # 10)) in *.
  assert (Hc : 0 < c) by lra.
  split.
  - apply Qlt_shift_div_l; lra.
  - apply Qle_shift_div_r; lra.
Qed.

Lemma valid_flag_true (P : hpoint) : valid_flag P = 1 <-> 2 # 10 < hZ P.
Proof.
  unfold valid_flag, to_float. rewrite <- Qltb_lt.
  destruct (Qltb (2 # 10) (hZ P)); split; intros H; try reflexivity; discriminate.
Qed.

Lemma valid_flag_false (P : hpoint) : valid_flag P = 0 <-> hZ P <= 2 # 10.
Proof.
  unfold valid_flag, to_float. rewrite <- Qltb_ge.
  destruct (Qltb (2 # 10) (hZ P)); split; intros H; try reflexivity; discriminate.
Qed.

(** ** Matrices of known size *)

Lemma list4 {A : Type} (l : list A) :
  length l = 4%nat -> exists a b c d, l = [a; b; c; d].
Proof.
  destruct l as [|a [|b [|c [|d [|x l]]]]]; try discriminate. intros _. eauto.
Qed.

(** The last column of a 4 x 4 matrix is the image of the basis vector
    (0, 0, 0, 1). *)
Lemma last_column_image (M : matrix) :
  length M = 4%nat -> Forall (fun r => length r = 4%nat) M ->
  mat_eq (map (skipn 3) M) (mat_product M [[0]; [0]; [0]; [1]]).
Proof.
  intros HM HR. destruct (list4 M HM) as (r0 & r1 & r2 & r3 & ->).
  inversion HR as [|? ? H0 HR1]; subst. inversion HR1 as [|? ? H1 HR2]; subst.
  inversion HR2 as [|? ? H2 HR3]; subst. inversion HR3 as [|? ? H3 _]; subst.
  destruct (list4 _ H0) as (? & ? & ? & ? & ->). destruct (list4 _ H1) as (? & ? & ? & ? & ->).
  destruct (list4 _ H2) as (? & ? & ? & ? & ->). destruct (list4 _ H3) as (? & ? & ? & ? & ->).
  unfold mat_eq, mat_product, dot, column. simpl.
  repeat constructor; ring.
Qed.

(** The product with a 2 x 4 matrix on the left respects entrywise
    equality of 4 x 1 matrices. *)
Lemma mat_product_2x4_4x1 (a0 a1 a2 a3 b0 b1 b2 b3 : Q) (B B' : matrix) :
  length B = 4%nat -> Forall (fun r => length r = 1%nat) B -> mat_eq B B' ->
  mat_eq (mat_product [[a0; a1; a2; a3]; [b0; b1; b2; b3]] B)
         (mat_product [[a0; a1; a2; a3]; [b0; b1; b2; b3]] B').
Proof.
  intros HB HR HE. destruct (list4 B HB) as (r0 & r1 & r2 & r3 & ->).
  inversion HR as [|? ? H0 HR1]; subst. inversion HR1 as [|? ? H1 HR2]; subst.
  inversion HR2 as [|? ? H2 HR3]; subst. inversion HR3 as [|? ? H3 _]; subst.
  destruct r0 as [|x0 [|? ?]]; try discriminate. destruct r1 as [|x1 [|? ?]]; try discriminate.
  destruct r2 as [|x2 [|? ?]]; try discriminate. destruct r3 as [|x3 [|? ?]]; try discriminate.
  inversion HE as [|? s0 ? B1 E0 HE1]; subst. inversion HE1 as [|? s1 ? B2 E1 HE2]; subst.
  inversion HE2 as [|? s2 ? B3 E2 HE3]; subst. inversion HE3 as [|? s3 ? B4 E3 HE4]; subst.
  inversion HE4; subst.
  inversion E0 as [|? y0 ? ? Q0 T0]; subst. inversion T0; subst.
  inversion E1 as [|? y1 ? ? Q1 T1]; subst. inversion T1; subst.
  inversion E2 as [|? y2 ? ? Q2 T2]; subst. inversion T2; subst.
  inversion E3 as [|? y3 ? ? Q3 T3]; subst. inversion T3; subst.
  unfold mat_eq, mat_product, dot, column. simpl.
  repeat constructor; rewrite Q0, Q1, Q2, Q3; reflexivity.
Qed.

Lemma rigid_matrix_4x4 : matrix_4x4 Rigid.ops.
Proof. intros g. split; [reflexivity | repeat constructor]. Qed.

(** ** The projection Jacobian *)

Lemma jac_d_flat (z : Q) : Qabs z <= 2 # 10 -> jac_d z = 0.
Proof. intros H. unfold jac_d. apply Qltb_ge in H. rewrite H. reflexivity. Qed.

Lemma jac_d_inverse (z : Q) : 2 # 10 < Qabs z -> jac_d z = 1 / z.
Proof. intros H. unfold jac_d. apply Qltb_lt in H. rewrite H. reflexivity. Qed.

Lemma Qabs_above (z : Q) : 2 # 10 < z -> 2 # 10 < Qabs z.
Proof. intros H. rewrite Qabs_pos; lra. Qed.

(** Away from zero the inverse stays bounded under a small step. *)
Lemma inverse_bounded (z h : Q) :
  2 # 10 < Qabs z -> Qabs h < 1 # 10 ->
  ~ z == 0 /\ ~ z + h == 0 /\ Qabs (1 / (z + h)) <= 10.
Proof.
  intros Hz Hh.
  apply Qabs_Qlt_condition in Hh. destruct Hh as [Hh1 Hh2].
  assert (Hz' : 2 # 10 < z \/ z < - (2 # 10)).
  { revert Hz. apply Qabs_case; intros; lra. }
  destruct Hz' as [Hp|Hn].
  - split; [lra|]. split; [lra|].
    rewrite Qabs_pos.
    + apply Qle_shift_div_r; lra.
    + apply Qle_shift_div_l; lra.
  - split; [lra|]. split; [lra|].
    assert (E : 1 / (z + h) == - (1 / (- (z + h)))) by (field; lra).
    rewrite E, Qabs_opp, Qabs_pos.
    + apply Qle_shift_div_r; lra.
    + apply Qle_shift_div_l; lra.
Qed.

(** The remainder of [v |-> a * ((1/v) * b) + c] after its linear
    approximation at [z] is quadratic in the step. *)
Lemma inverse_remainder (a b c z h : Q) :
  2 # 10 < Qabs z -> Qabs h < 1 # 10 ->
  Qabs ((a * ((1 / (z + h)) * b) + c) - (a * ((1 / z) * b) + c)
        - ((- a) * b * (1 / z) * (1 / z)) * h)
    <= (Qabs (a * b) * (10 * ((1 / z) * (1 / z)))) * (h * h).
Proof.
  intros Hz Hh. destruct (inverse_bounded z h Hz Hh) as (Z0 & Z1 & Hu).
  assert (E : (a * ((1 / (z + h)) * b) + c) - (a * ((1 / z) * b) + c)
              - ((- a) * b * (1 / z) * (1 / z)) * h
              == (a * b) * ((h * h) * ((1 / z) * (1 / z)) * (1 / (z + h)))) by (field; auto).
  assert (S0 : 0 <= h * h) by nra.
  assert (W0 : 0 <= (1 / z) * (1 / z)) by nra.
  assert (SW : 0 <= (h * h) * ((1 / z) * (1 / z))) by nra.
  rewrite E. clear E.
  set (s := h * h) in *. set (w := 1 / z * (1 / z)) in *. set (v := 1 / (z + h)) in *.
  rewrite (Qabs_Qmult (a * b)), (Qabs_Qmult (s * w)), (Qabs_pos (s * w)) by exact SW.
  set (A := Qabs (a * b)).
  assert (A0 : 0 <= A) by apply Qabs_nonneg.
  set (u := Qabs v) in *.
  assert (U0 : 0 <= u) by apply Qabs_nonneg.
  assert (ASW : 0 <= A * (s * w)) by nra.
  nra.
Qed.

Lemma is_derivative_exact (f : Q -> Q) (x l : Q) :
  (forall h, f (x + h) - f x - l * h == 0) -> is_derivative f x l.
Proof.
  intros H. exists 0, 1. split; [lra|]. intros h _. rewrite (H h). simpl. lra.
Qed.

Lemma is_derivative_inverse (f : Q -> Q) (a b c z : Q) :
  2 # 10 < Qabs z ->
  (forall h, Qabs h < 1 # 10 -> f (z + h) = a * ((1 / (z + h)) * b) + c) ->
  f z = a * ((1 / z) * b) + c ->
  is_derivative f z ((- a) * b * (1 / z) * (1 / z)).
Proof.
  intros Hz Hf Hfz. exists (Qabs (a * b) * (10 * ((1 / z) * (1 / z)))), (1 # 10).
  split; [lra|]. intros h Hh. rewrite (Hf h Hh), Hfz. apply inverse_remainder; assumption.
Qed.

(** Where Z > 0.2 they are the partial derivatives of [proj] itself: the
    clamp is inactive around the point. *)
Lemma Jp_of_proj_derivative (P : hpoint) (K : intr) (r c : nat) :
  2 # 10 < hZ P -> (r < 2)%nat -> (c < 4)%nat ->
  is_derivative (fun v => nth r (proj_pt (with_coord c P v) K false) 0) (coord c P)
    (entry (Jp_of P K) r c).
Proof.
  intros Hz Hr Hc. pose proof (Qabs_above _ Hz) as Hz'.
  assert (HcZ : clamp_min (hZ P) (1 # 10) = hZ P) by (apply clamp_min_above; lra).
  unfold entry, Jp_of. rewrite (jac_d_inverse _ Hz').
  destruct r as [|[|r]]; [| |lia];
    (destruct c as [|[|[|[|c]]]]; [| | | |lia]); unfold coord, proj_pt; simpl;
    try (rewrite ?HcZ; apply is_derivative_exact; intros h; ring).
  - apply (is_derivative_inverse _ (fx K) (hX P) (cx K)); [exact Hz' | | rewrite HcZ; reflexivity].
    intros h Hh. apply Qabs_Qlt_condition in Hh. rewrite clamp_min_above by lra. reflexivity.
  - apply (is_derivative_inverse _ (fy K) (hY P) (cy K)); [exact Hz' | | rewrite HcZ; reflexivity].
    intros h Hh. apply Qabs_Qlt_condition in Hh. rewrite clamp_min_above by lra. reflexivity.
Qed.

(** Where |Z| > 0.2 the entries of [Jp] are built with the depth term
    d = 1/Z. *)
Lemma Jp_of_inverse (P : hpoint) (K : intr) :
  2 # 10 < Qabs (hZ P) ->
  mat_eq (Jp_of P K)
    [ [fx K * (1 / hZ P); 0; (- fx K) * hX P * (1 / hZ P) * (1 / hZ P); 0];
      [0; fy K * (1 / hZ P); (- fy K) * hY P * (1 / hZ P) * (1 / hZ P); 0] ].
Proof.
  intros Hz. unfold Jp_of. rewrite (jac_d_inverse _ Hz). unfold mat_eq.
  repeat constructor; reflexivity.
Qed.

(** A multiple of the step that stays below a multiple of the squared
    step near zero is zero. *)
Lemma linear_not_quadratic (a C delta : Q) :
  0 < delta -> (forall h, Qabs h < delta -> Qabs (a * h) <= C * (h * h)) -> a == 0.
Proof.
  intros Hd H.
  assert (K : forall h, 0 < h -> h < delta -> Qabs a * h <= C * (h * h)).
  { intros h H0 H1.
    assert (Hh : Qabs h < delta) by (rewrite Qabs_pos; lra).
    pose proof (H h Hh) as B. rewrite Qabs_Qmult, (Qabs_pos h) in B by lra. exact B. }
  assert (A0 : 0 <= Qabs a) by apply Qabs_nonneg.
  destruct (Qlt_le_dec 0 (Qabs a)) as [A|A].
  - exfalso. set (A' := Qabs a) in *.
    destruct (Qlt_le_dec 0 C) as [HC|HC].
    + destruct (Qlt_le_dec A' (delta * C)) as [HA|HA].
      * set (h := A' / (2 * C)).
        assert (Eh : h * (2 * C) == A') by (unfold h; field; lra).
        assert (H0 : 0 < h) by nra.
        assert (H1 : h < delta) by nra.
        pose proof (K h H0 H1) as HK. nra.
      * assert (H0 : 0 < delta * (1 # 2)) by lra.
        assert (H1 : delta * (1 # 2) < delta) by lra.
        pose proof (K (delta * (1 # 2)) H0 H1) as HK. nra.
    + assert (H0 : 0 < delta * (1 # 2)) by lra.
      assert (H1 : delta * (1 # 2) < delta) by lra.
      pose proof (K (delta * (1 # 2)) H0 H1) as HK. nra.
  - assert (E : Qabs a == 0) by lra. revert E. apply Qabs_case; intros; lra.
Qed.

(** A function has at most one derivative at a point. *)
Lemma is_derivative_unique (f : Q -> Q) (x l l' : Q) :
  is_derivative f x l -> is_derivative f x l' -> l == l'.
Proof.
  intros (C & d & Hd & H) (C' & d' & Hd' & H').
  assert (E : l - l' == 0); [|lra].
  destruct (Qlt_le_dec d d') as [D|D].
  - apply (linear_not_quadratic _ (C + C') d Hd). intros h Hh.
    assert (Hh' : Qabs h < d') by lra.
    pose proof (H h Hh) as B. pose proof (H' h Hh') as B'.
    apply Qabs_Qle_condition in B. apply Qabs_Qle_condition in B'.
    apply Qabs_Qle_condition. split; lra.
  - apply (linear_not_quadratic _ (C + C') d' Hd'). intros h Hh.
    assert (Hh' : Qabs h < d) by lra.
    pose proof (H h Hh') as B. pose proof (H' h Hh) as B'.
    apply Qabs_Qle_condition in B. apply Qabs_Qle_condition in B'.
    apply Qabs_Qle_condition. split; lra.
Qed.

(** A function that is linear near a point has the slope as derivative. *)
Lemma is_derivative_local (f : Q -> Q) (x l delta : Q) :
  0 < delta -> (forall h, Qabs h < delta -> f (x + h) - f x - l * h == 0) ->
  is_derivative f x l.
Proof.
  intros Hd H. exists 0, delta. split; [exact Hd|]. intros h Hh. rewrite (H h Hh). simpl. lra.
Qed.

(** Where Z < 0.1 the clamp of [proj] fixes the depth term at 10: the
    pixel moves with X and Y at the rates 10 fx and 10 fy and does not
    move with Z or W. *)
Lemma proj_pt_clamped_derivative (P : hpoint) (K : intr) (r c : nat) :
  hZ P < 1 # 10 -> (r < 2)%nat -> (c < 4)%nat ->
  is_derivative (fun v => nth r (proj_pt (with_coord c P v) K false) 0) (coord c P)
    (entry [ [10 * fx K; 0; 0; 0]; [0; 10 * fy K; 0; 0] ] r c).
Proof.
  intros Hz Hr Hc.
  assert (HcZ : clamp_min (hZ P) (1 # 10) = 1 # 10) by (apply clamp_min_below; exact Hz).
  assert (Hd : 0 < (1 # 10) - hZ P) by lra.
  destruct r as [|[|r]]; [| |lia];
    (destruct c as [|[|[|[|c]]]]; [| | | |lia]); unfold coord, proj_pt, entry; simpl;
    try (rewrite ?HcZ; change (1 / (1 # 10)) with 10;
         apply is_derivative_exact; intros h; ring).
  - apply (is_derivative_local _ _ _ _ Hd). intros h Hh. apply Qabs_Qlt_condition in Hh.
    rewrite HcZ, clamp_min_below by lra. ring.
  - apply (is_derivative_local _ _ _ _ Hd). intros h Hh. apply Qabs_Qlt_condition in Hh.
    rewrite HcZ, clamp_min_below by lra. ring.
Qed.

(** Behind the camera (Z < -0.2) the entries of [Jp] on the diagonal are
    not the derivatives of [proj]: they have the sign of 1/Z, the rates of
    [proj] that of the clamped depth term. *)
Lemma Jp_of_not_proj_derivative (P : hpoint) (K : intr) :
  hZ P < - (2 # 10) ->
  (~ fx K == 0 ->
   ~ is_derivative (fun v => nth 0 (proj_pt (with_coord 0 P v) K false) 0) (coord 0 P)
       (entry (Jp_of P K) 0 0)) /\
  (~ fy K == 0 ->
   ~ is_derivative (fun v => nth 1 (proj_pt (with_coord 1 P v) K false) 0) (coord 1 P)
       (entry (Jp_of P K) 1 1)).
Proof.
  intros Hz.
  assert (Ha : 2 # 10 < Qabs (hZ P)) by (rewrite Qabs_neg; lra).
  assert (Hb : hZ P < 1 # 10) by lra.
  assert (Eu : hZ P * (1 / hZ P) == 1) by (field; lra).
  assert (Hu : 1 / hZ P < 0) by nra.
  split; intros Hf Hder.
  - pose proof (proj_pt_clamped_derivative P K 0 0 Hb ltac:(lia) ltac:(lia)) as Hc.
    pose proof (is_derivative_unique _ _ _ _ Hder Hc) as E.
    unfold entry, Jp_of in E. rewrite (jac_d_inverse _ Ha) in E. simpl in E.
    apply Hf. nra.
  - pose proof (proj_pt_clamped_derivative P K 1 1 Hb ltac:(lia) ltac:(lia)) as Hc.
    pose proof (is_derivative_unique _ _ _ _ Hder Hc) as E.
    unfold entry, Jp_of in E. rewrite (jac_d_inverse _ Ha) in E. simpl in E.
    apply Hf. nra.
Qed.

(** Where |Z| <= 0.2 every entry of [Jp] is zero. *)
Lemma Jp_of_flat (P : hpoint) (K : intr) :
  Qabs (hZ P) <= 2 # 10 -> mat_eq (Jp_of P K) [[0; 0; 0; 0]; [0; 0; 0; 0]].
Proof.
  intros Hz. unfold Jp_of. rewrite (jac_d_flat _ Hz). unfold mat_eq.
  repeat constructor; ring.
Qed.

Lemma flag_matches_valid_flag (X : hpoint) : flag_matches (valid_flag X) X.
Proof. split; [apply valid_flag_true | apply valid_flag_false]. Qed.

Lemma bounded_pixel_proj_pt (X : hpoint) (K : intr) (depth : bool) :
  bounded_pixel (proj_pt X K depth) X K depth.
Proof.
  exists (1 / clamp_min (hZ X) (1 # 10)).
  destruct (proj_depth_bounded (hZ X)) as (H0 & H1). repeat split; assumption.
Qed.

Lemma at2_grid_map {A B : Type} (f : A -> B) (g : grid A) (r c : nat) :
  at2 (grid_map f g) r c = option_map f (at2 g r c).
Proof. apply at2_map_map. Qed.

(** ** Buffers that agree entry by entry *)

Lemma Forall2_nth_error_rel {A B : Type} (R : A -> B -> Prop) (l : list A) (l' : list B)
    (n : nat) (a : A) (b : B) :
  Forall2 R l l' -> nth_error l n = Some a -> nth_error l' n = Some b -> R a b.
Proof.
  intros H. revert n. induction H as [|x y l l' Hxy _ IH]; intros [|n]; simpl; try discriminate.
  - intros Ha Hb. inversion Ha; inversion Hb; subst. exact Hxy.
  - apply IH.
Qed.

Lemma Forall2_index {A B : Type} (R : A -> B -> Prop) (l : list A) (l' : list B)
    (i : Z) (a : A) (b : B) :
  Forall2 R l l' -> index l i = Ok a -> index l' i = Ok b -> R a b.
Proof.
  intros H. unfold index. rewrite <- (Forall2_length H).
  destruct ((0 <=? i) && (i <? Z.of_nat (length l)))%Z.
  - destruct (nth_error l (Z.to_nat i)) eqn:Ea; [|discriminate].
    destruct (nth_error l' (Z.to_nat i)) eqn:Eb; [|discriminate].
    intros Ha Hb. inversion Ha; inversion Hb; subst. eapply Forall2_nth_error_rel; eauto.
  - destruct ((- Z.of_nat (length l) <=? i) && (i <? 0))%Z; [|discriminate].
    destruct (nth_error l (Z.to_nat (i + Z.of_nat (length l)))) eqn:Ea; [|discriminate].
    destruct (nth_error l' (Z.to_nat (i + Z.of_nat (length l)))) eqn:Eb; [|discriminate].
    intros Ha Hb. inversion Ha; inversion Hb; subst. eapply Forall2_nth_error_rel; eauto.
Qed.

Lemma nth_error_lt {A : Type} (l : list A) (n : nat) :
  (n < length l)%nat -> exists a, nth_error l n = Some a.
Proof.
  intros H. destruct (nth_error l n) as [a|] eqn:E; [eauto|].
  apply nth_error_None in E. lia.
Qed.

(** Two edges that differ in their patch only. *)
Lemma edge_of_same_frames {P : Type} (Gb : list SE3) (Pb Pb' : list P) (Kb : list intr)
    (i j k : Z) (ed ed' : edge_data P) :
  edge_of Gb Pb Kb i j k = Ok ed -> edge_of Gb Pb' Kb i j k = Ok ed' ->
  e_Ki ed = e_Ki ed' /\ e_Kj ed = e_Kj ed' /\ e_Gi ed = e_Gi ed' /\ e_Gj ed = e_Gj ed'.
Proof.
  intros H H'. apply edge_of_inv in H as (_ & A1 & A2 & A3 & A4).
  apply edge_of_inv in H' as (_ & B1 & B2 & B3 & B4).
  rewrite A1 in B1. rewrite A2 in B2. rewrite A3 in B3. rewrite A4 in B4.
  inversion B1; inversion B2; inversion B3; inversion B4. auto.
Qed.

(** ** Entries of tensors of one shape *)




(** ** Flow magnitude *)


Lemma tmap2_eq {A B C : Type} (f : A -> B -> C)
    (s : list (list (grid A))) (t : list (list (grid B))) :
  shape2 s = shape2 t -> tmap2 f s t = Ok (grid_map2 (grid_map2 f) s t).
Proof. intros H. unfold tmap2. apply (bmap2_pure2 (grid_map2 f)). exact H. Qed.

Lemma at2_grid_map2_grid {A B C : Type} (f : A -> B -> C) (g : grid A) (h : grid B)
    (r c : nat) (a : A) (b : B) :
  at2 g r c = Some a -> at2 h r c = Some b -> at2 (grid_map2 f g h) r c = Some (f a b).
Proof. apply at2_grid_map2. Qed.

(** ** The dense path *)

Lemma nth_error_imap_from {A B : Type} (f : nat -> A -> B) (n k : nat) (l : list A) :
  nth_error (imap_from f n l) k = option_map (f (n + k)%nat) (nth_error l k).
Proof.
  revert n k; induction l as [|a l IH]; intros n [|k]; simpl; try reflexivity.
  - rewrite Nat.add_0_r. reflexivity.
  - rewrite IH. f_equal. f_equal. lia.
Qed.

Lemma at2_grid_imap {A B : Type} (f : nat -> nat -> A -> B) (g : grid A) (r c : nat) :
  at2 (grid_imap f g) r c = option_map (f r c) (at2 g r c).
Proof.
  unfold at2, grid_imap, imap. rewrite nth_error_imap_from. simpl.
  destruct (nth_error g r) as [row|]; simpl; [|reflexivity].
  rewrite nth_error_imap_from. reflexivity.
Qed.

Lemma shape2_repeat_rows {A : Type} (t : list (list A)) (n m : nat) :
  shape2 t = repeat n m -> Forall (fun row => length row = n) t.
Proof.
  revert m; induction t as [|row t IH]; intros [|m] H; try discriminate; constructor.
  - simpl in H. injection H as H _. exact H.
  - simpl in H. injection H as _ H. eapply IH; eauto.
Qed.

Lemma mask_eq (ii jj : list Z) :
  length ii = length jj -> bmap2 (fun i j => Ok (Z.eqb i j)) ii jj = Ok (mask_of ii jj).
Proof.
  intros H. rewrite bmap2_same by exact H. apply (mapM_pure (fun p => Z.eqb (fst p) (snd p))).
Qed.

Lemma length_mask_of (ii jj : list Z) : length ii = length jj -> length (mask_of ii jj) = length ii.
Proof.
  intros H. unfold mask_of. rewrite length_map, length_combine, <- H. apply Nat.min_id.
Qed.

Lemma nth_error_mask_of (ii jj : list Z) (e : nat) (i j : Z) :
  nth_error ii e = Some i -> nth_error jj e = Some j ->
  nth_error (mask_of ii jj) e = Some (Z.eqb i j).
Proof.
  intros Hi Hj. unfold mask_of.
  rewrite nth_error_map, (nth_error_combine_some _ _ _ _ _ Hi Hj). reflexivity.
Qed.

Lemma assign_masked_eq (G : list (list SE3)) (mask : list bool) (g0 : SE3) :
  Forall (fun row => length row = length mask) G ->
  assign_masked G mask g0 = Ok (masked G mask g0).
Proof.
  intros H. unfold assign_masked, masked.
  rewrite <- mapM_pure. apply mapM_ext. intros row Hrow.
  rewrite Forall_forall in H. rewrite smap2_same by (symmetry; apply H; exact Hrow).
  apply (mapM_pure (fun p : bool * SE3 => if fst p then g0 else snd p)).
Qed.

Lemma shape2_masked (G : list (list SE3)) (mask : list bool) (g0 : SE3) :
  Forall (fun row => length row = length mask) G -> shape2 (masked G mask g0) = shape2 G.
Proof.
  intros H. unfold masked, shape2. rewrite map_map. apply map_ext_in. intros row Hrow.
  rewrite Forall_forall in H. rewrite length_map, length_combine, (H row Hrow). apply Nat.min_id.
Qed.

Lemma at2_masked (G : list (list SE3)) (mask : list bool) (g0 : SE3) (b e : nat)
    (g : SE3) (m : bool) :
  at2 G b e = Some g -> nth_error mask e = Some m ->
  at2 (masked G mask g0) b e = Some (if m then g0 else g).
Proof.
  unfold at2, masked. intros Hg Hm. rewrite nth_error_map.
  destruct (nth_error G b) as [row|]; [|discriminate]. simpl.
  rewrite nth_error_map, (nth_error_combine_some _ _ _ _ _ Hm Hg). reflexivity.
Qed.

Section DensePath.

Context {L : LieOps}.

(** The outputs of [projective_transform] on well-formed inputs, pixel by
    pixel. *)
Lemma projective_transform_spec (poses : list (list SE3)) (depths : list (list (grid Q)))
    (intrinsics : list (list intr)) (ii jj : list Z) :
  wf_inputs poses depths intrinsics ii jj ii ->
  exists x1 valid,
    projective_transform poses depths intrinsics ii jj = Ok (x1, valid) /\
    forall b e Gb Db Kb i j,
      nth_error poses b = Some Gb -> nth_error depths b = Some Db ->
      nth_error intrinsics b = Some Kb ->
      nth_error ii e = Some i -> nth_error jj e = Some j ->
      exists ed G V,
        edge_of Gb Db Kb i j i = Ok ed /\ at2 x1 b e = Some G /\ at2 valid b e = Some V /\
        forall r c disp, at2 (e_src ed) r c = Some disp ->
          let Gij := if Z.eqb i j then self_edge_pose
                     else lie_mul (e_Gj ed) (lie_inv (e_Gi ed)) in
          let X0 := iproj_disps_pt r c disp (e_Ki ed) in
          let X1 := lie_act Gij X0 in
          at2 G r c = Some (proj_pt X1 (e_Kj ed) false) /\
          at2 V r c = Some [dense_flag X1 X0].
Proof.
  intros W.
  destruct (gathers_ok _ _ _ _ _ _ W)
    as (Di & Ki & Kj & Gi & Gj & HDi & HKi & HKj & HGi & HGj & S).
  simpl in S. destruct S as (SD & SKi & SKj & SGi & SGj).
  set (sh := repeat (length ii) (length poses)) in *.
  pose proof (wf_len_jj _ _ _ _ _ _ W) as Hlen.
  set (X0 := X0_dense_of Di Ki).
  set (G0 := Gij_of Gj Gi false).
  set (mask := mask_of ii jj).
  set (G1 := masked G0 mask self_edge_pose).
  set (X1 := X1_of G1 X0).
  set (x1 := x1_of X1 Kj false).
  set (vt := grid_map2 (grid_map2 dense_flag) X1 X0).
  assert (S0 : shape2 X0 = sh) by (unfold X0, X0_dense_of; rewrite shape2_grid_map2; shapes).
  assert (SG0 : shape2 G0 = sh) by (unfold G0; rewrite shape2_Gij_of; shapes).
  assert (Hrows : Forall (fun row => length row = length mask) G0).
  { unfold mask. rewrite length_mask_of by (symmetry; exact Hlen).
    eapply shape2_repeat_rows. exact SG0. }
  assert (SG1 : shape2 G1 = sh) by (unfold G1; rewrite shape2_masked; assumption).
  assert (S1 : shape2 X1 = sh) by (unfold X1, X1_of; rewrite shape2_grid_map2; shapes).
  exists x1, (map (map (grid_map (fun v => [v]))) vt). split.
  { unfold projective_transform. rewrite HDi, HKi. cbn [bind].
    unfold iproj_disps.
    rewrite (smap2_pure2 (fun D K => grid_imap (fun r c v => iproj_disps_pt r c v K) D))
      by shapes.
    cbn [bind]. fold (X0_dense_of Di Ki). fold X0. rewrite HGj, HGi. cbn [bind].
    unfold relative_pose.
    rewrite (bmap2_pure2 (fun gj gi => lie_mul gj (lie_inv gi))) by shapes. cbn [bind].
    fold (Gij_of Gj Gi false). fold G0.
    rewrite (mask_eq ii jj) by (symmetry; exact Hlen). cbn [bind]. fold mask.
    rewrite (assign_masked_eq _ _ _ Hrows). cbn [bind]. fold G1.
    unfold act_grids. rewrite (bmap2_pure2 (fun g P => grid_map (lie_act g) P)) by shapes.
    cbn [bind]. fold (X1_of G1 X0). fold X1. rewrite HKj. cbn [bind].
    unfold proj. rewrite (bmap2_pure2 (fun G K => grid_map (fun P => proj_pt P K false) G))
      by shapes.
    cbn [bind]. fold (x1_of X1 Kj false). fold x1.
    rewrite (tmap2_eq (fun P1 P0 => to_float (Qltb MIN_DEPTH (hZ P1) && Qltb MIN_DEPTH (hZ P0))))
      by shapes.
    reflexivity. }
  intros b e Gb Db Kb i j HG HD HK Hi Hj.
  destruct (edge_of_ok _ _ _ _ _ _ _ _ _ _ _ _ _ _ W HG HD HK Hi Hj Hi) as (ed & Hed).
  destruct (edge_of_inv _ _ _ _ _ _ _ Hed) as (Es & EKi & EKj & EGi & EGj).
  pose proof (gathered_at _ _ _ _ _ _ _ _ HDi HD Hi Es) as AD.
  pose proof (gathered_at _ _ _ _ _ _ _ _ HKi HK Hi EKi) as AKi.
  pose proof (gathered_at _ _ _ _ _ _ _ _ HKj HK Hj EKj) as AKj.
  pose proof (gathered_at _ _ _ _ _ _ _ _ HGi HG Hi EGi) as AGi.
  pose proof (gathered_at _ _ _ _ _ _ _ _ HGj HG Hj EGj) as AGj.
  set (g := if Z.eqb i j then self_edge_pose else lie_mul (e_Gj ed) (lie_inv (e_Gi ed))).
  assert (AG1 : at2 G1 b e = Some g).
  { unfold G1. apply at2_masked; [|apply nth_error_mask_of; assumption].
    unfold G0. rewrite (at2_Gij_of _ _ false _ _ _ _ AGj AGi). reflexivity. }
  assert (A0 : at2 X0 b e
               = Some (grid_imap (fun r c v => iproj_disps_pt r c v (e_Ki ed)) (e_src ed))).
  { exact (at2_grid_map2 (fun D K => grid_imap (fun r c v => iproj_disps_pt r c v K) D)
             _ _ _ _ _ _ AD AKi). }
  assert (A1 : at2 X1 b e
               = Some (grid_map (lie_act g)
                         (grid_imap (fun r c v => iproj_disps_pt r c v (e_Ki ed)) (e_src ed)))).
  { exact (at2_grid_map2 (fun g P => grid_map (lie_act g) P) _ _ _ _ _ _ AG1 A0). }
  eexists ed, _, _. split; [exact Hed|].
  split.
  { exact (at2_grid_map2 (fun G K => grid_map (fun P => proj_pt P K false) G)
             _ _ _ _ _ _ A1 AKj). }
  split.
  { rewrite at2_map_map. unfold vt.
    rewrite (at2_grid_map2 (grid_map2 dense_flag) _ _ _ _ _ _ A1 A0). reflexivity. }
  intros r c disp Hd. cbv zeta. fold g.
  assert (P0 : at2 (grid_imap (fun r c v => iproj_disps_pt r c v (e_Ki ed)) (e_src ed)) r c
               = Some (iproj_disps_pt r c disp (e_Ki ed))).
  { rewrite at2_grid_imap, Hd. reflexivity. }
  assert (P1 : at2 (grid_map (lie_act g)
                      (grid_imap (fun r c v => iproj_disps_pt r c v (e_Ki ed)) (e_src ed))) r c
               = Some (lie_act g (iproj_disps_pt r c disp (e_Ki ed)))).
  { rewrite at2_grid_map, P0. reflexivity. }
  split.
  - rewrite at2_grid_map, P1. reflexivity.
  - rewrite at2_grid_map, (at2_grid_map2_grid dense_flag _ _ _ _ _ _ P1 P0). reflexivity.
Qed.

End DensePath.

(** * The claims *)

(** Well-formedness of a concrete input, by evaluation. *)
Ltac wf_by_evaluation :=
  constructor; simpl; try reflexivity;
  repeat constructor; unfold in_range; simpl; lia.

Section TransformClaims.

Context {L : LieOps}.


End TransformClaims.


Section JacobianClaims.

Context {L : LieOps}.

(** C2.  For every edge, the Jacobian [Ji] that [transform] returns with
    [jacobian] for the source frame i is the negated adjoint-transpose
    transport of [Jj] through the relative transform, row by row:
    Ji = - adjT(Gij, Jj), where Jj = Jp . Ja is the Jacobian for the pose
    of frame j.  On well-formed inputs the call raises nothing. *)
Theorem Ji_is_negated_adjoint_transport (poses : list (list SE3)) (patches : list (list patch))
    (intrinsics : list (list intr)) (ii jj kk : list Z) (depth valid tonly : bool) :
  wf_inputs poses patches intrinsics ii jj kk ->
  wf_jacobian_inputs poses patches ->
  matrix_4x4 L ->
  exists x1 vm Ji Jj Jz,
    transform poses patches intrinsics ii jj kk depth valid true tonly
      = Ok (CoordsJac x1 vm Ji Jj Jz) /\
    forall b e Gb Pb Kb i j k,
      nth_error poses b = Some Gb -> nth_error patches b = Some Pb ->
      nth_error intrinsics b = Some Kb ->
      nth_error ii e = Some i -> nth_error jj e = Some j -> nth_error kk e = Some k ->
      exists ed pc JjE,
        edge_of Gb Pb Kb i j k = Ok ed /\ center (e_src ed) = Ok pc /\
        let Gij := edge_Gij ed tonly in
        let X := lie_act Gij (iproj_pt pc (e_Ki ed)) in
        matmul (Jp_of X (e_Kj ed)) (Ja_of X) = Ok JjE /\
        at2 Jj b e = Some JjE /\
        at2 Ji b e = Some (map (fun row => map Qopp (lie_adjT Gij row)) JjE).
Proof.
  intros W WJ HM.
  destruct (transform_jacobian_spec poses patches intrinsics ii jj kk depth valid tonly W WJ HM)
    as (x1 & vm & Ji & Jj & Jz & Ht & _ & _ & _ & _ & Hedge).
  exists x1, vm, Ji, Jj, Jz. split; [exact Ht|].
  intros b e Gb Pb Kb i j k HG HP HK Hi Hj Hk.
  destruct (Hedge b e Gb Pb Kb i j k HG HP HK Hi Hj Hk)
    as (ed & pc & Hed & Hpc & _ & _ & AJj & AJi & _).
  exists ed, pc, (mat_product (Jp_of (edge_point ed tonly pc) (e_Kj ed))
                    (Ja_of (edge_point ed tonly pc))).
  split; [exact Hed|]. split; [exact Hpc|]. cbv zeta.
  split; [apply matmul_Jp_Ja|]. split; [exact AJj | exact AJi].
Qed.

(** C5.  For every edge, the depth Jacobian [Jz] that [transform] returns
    with [jacobian] is the 2 x 4 projection Jacobian [Jp] times the image
    of the depth basis vector (0, 0, 0, 1) under the 4 x 4 matrix of
    [Gij]. *)
Theorem Jz_is_Jp_times_depth_direction (poses : list (list SE3))
    (patches : list (list patch)) (intrinsics : list (list intr)) (ii jj kk : list Z)
    (depth valid tonly : bool) :
  wf_inputs poses patches intrinsics ii jj kk ->
  wf_jacobian_inputs poses patches ->
  matrix_4x4 L ->
  exists x1 vm Ji Jj Jz,
    transform poses patches intrinsics ii jj kk depth valid true tonly
      = Ok (CoordsJac x1 vm Ji Jj Jz) /\
    forall b e Gb Pb Kb i j k,
      nth_error poses b = Some Gb -> nth_error patches b = Some Pb ->
      nth_error intrinsics b = Some Kb ->
      nth_error ii e = Some i -> nth_error jj e = Some j -> nth_error kk e = Some k ->
      exists ed pc JzE,
        edge_of Gb Pb Kb i j k = Ok ed /\ center (e_src ed) = Ok pc /\
        let Gij := edge_Gij ed tonly in
        let X := lie_act Gij (iproj_pt pc (e_Ki ed)) in
        at2 Jz b e = Some JzE /\
        mat_eq JzE
          (mat_product (Jp_of X (e_Kj ed))
             (mat_product (lie_matrix Gij) [[0]; [0]; [0]; [1]])).
Proof.
  intros W WJ HM.
  destruct (transform_jacobian_spec poses patches intrinsics ii jj kk depth valid tonly W WJ HM)
    as (x1 & vm & Ji & Jj & Jz & Ht & _ & _ & _ & _ & Hedge).
  exists x1, vm, Ji, Jj, Jz. split; [exact Ht|].
  intros b e Gb Pb Kb i j k HG HP HK Hi Hj Hk.
  destruct (Hedge b e Gb Pb Kb i j k HG HP HK Hi Hj Hk)
    as (ed & pc & Hed & Hpc & _ & _ & _ & _ & AJz).
  eexists ed, pc, _. split; [exact Hed|]. split; [exact Hpc|]. cbv zeta.
  split; [exact AJz|].
  destruct (HM (edge_Gij ed tonly)) as (HM4 & HR4).
  apply mat_product_2x4_4x1.
  - rewrite length_map. exact HM4.
  - apply Forall_forall. intros r Hr. apply in_map_iff in Hr as (r0 & <- & Hr0).
    rewrite Forall_forall in HR4. specialize (HR4 r0 Hr0).
    destruct (list4 r0 HR4) as (? & ? & ? & ? & ->). reflexivity.
  - apply last_column_image; assumption.
Qed.

End JacobianClaims.

Lemma Ji_is_negated_adjoint_transport_witness :
  wf_inputs [[Rigid.identity; Scene.turned]] [[Scene.patch3]] [[Scene.K1; Scene.K2]]
    [0%Z] [1%Z] [0%Z] /\
  wf_jacobian_inputs [[Rigid.identity; Scene.turned]] [[Scene.patch3]] /\
  matrix_4x4 Rigid.ops /\
  exists x1 vm Ji Jj Jz,
    transform (L := Rigid.ops) [[Rigid.identity; Scene.turned]] [[Scene.patch3]]
      [[Scene.K1; Scene.K2]] [0%Z] [1%Z] [0%Z] false false true false
      = Ok (CoordsJac x1 vm Ji Jj Jz).
Proof.
  assert (W : wf_inputs [[Rigid.identity; Scene.turned]] [[Scene.patch3]]
                [[Scene.K1; Scene.K2]] [0%Z] [1%Z] [0%Z]) by wf_by_evaluation.
  assert (WJ : wf_jacobian_inputs [[Rigid.identity; Scene.turned]] [[Scene.patch3]]).
  { constructor; [reflexivity|]. repeat constructor. eexists; reflexivity. }
  pose proof rigid_matrix_4x4 as HM.
  repeat (split; [assumption|]).
  destruct (Ji_is_negated_adjoint_transport (L := Rigid.ops) _ _ _ _ _ _ false false false W WJ HM)
    as (x1 & vm & Ji & Jj & Jz & H & _).
  exists x1, vm, Ji, Jj, Jz. exact H.
Defined.

Lemma Jz_is_Jp_times_depth_direction_witness :
  wf_inputs [[Rigid.identity; Scene.forward1]] [[Scene.patch1]] [[Scene.K1; Scene.K2]]
    [0%Z] [1%Z] [0%Z] /\
  wf_jacobian_inputs [[Rigid.identity; Scene.forward1]] [[Scene.patch1]] /\
  matrix_4x4 Rigid.ops /\
  exists x1 vm Ji Jj Jz,
    transform (L := Rigid.ops) [[Rigid.identity; Scene.forward1]] [[Scene.patch1]]
      [[Scene.K1; Scene.K2]] [0%Z] [1%Z] [0%Z] false false true false
      = Ok (CoordsJac x1 vm Ji Jj Jz).
Proof.
  assert (W : wf_inputs [[Rigid.identity; Scene.forward1]] [[Scene.patch1]]
                [[Scene.K1; Scene.K2]] [0%Z] [1%Z] [0%Z]) by wf_by_evaluation.
  assert (WJ : wf_jacobian_inputs [[Rigid.identity; Scene.forward1]] [[Scene.patch1]]).
  { constructor; [reflexivity|]. repeat constructor. eexists; reflexivity. }
  pose proof rigid_matrix_4x4 as HM.
  repeat (split; [assumption|]).
  destruct (Jz_is_Jp_times_depth_direction (L := Rigid.ops) _ _ _ _ _ _ false false false W WJ HM)
    as (x1 & vm & Ji & Jj & Jz & H & _).
  exists x1, vm, Ji, Jj, Jz. exact H.
Defined.

Section ProjectionJacobianClaim.

Context {L : LieOps}.

(** C6, as the code has it.  The 2 x 4 projection Jacobian [Jp] of the
    Jacobian path of [transform] (the factor of [Jj] and [Jz], taken at
    the transformed center point of each edge) is built with the depth
    term d = 1/Z where |Z| > 0.2 and is zero where |Z| <= 0.2, where
    nothing is raised.  In front of the camera, Z > 0.2, its entries are
    the partial derivatives of the projected pixel of [proj] with respect
    to the homogeneous point.  Behind the camera, Z < -0.2, they are not:
    [proj] clamps the depth there, its pixel moves with X and Y at the
    rates 10 fx and 10 fy and not with Z, while [Jp] keeps d = 1/Z. *)
Theorem Jp_is_projection_derivative (poses : list (list SE3)) (patches : list (list patch))
    (intrinsics : list (list intr)) (ii jj kk : list Z) (depth valid tonly : bool) :
  wf_inputs poses patches intrinsics ii jj kk ->
  wf_jacobian_inputs poses patches ->
  matrix_4x4 L ->
  exists x1 vm Ji Jj Jz,
    transform poses patches intrinsics ii jj kk depth valid true tonly
      = Ok (CoordsJac x1 vm Ji Jj Jz) /\
    forall b e Gb Pb Kb i j k,
      nth_error poses b = Some Gb -> nth_error patches b = Some Pb ->
      nth_error intrinsics b = Some Kb ->
      nth_error ii e = Some i -> nth_error jj e = Some j -> nth_error kk e = Some k ->
      exists ed pc,
        edge_of Gb Pb Kb i j k = Ok ed /\ center (e_src ed) = Ok pc /\
        let Gij := edge_Gij ed tonly in
        let X := lie_act Gij (iproj_pt pc (e_Ki ed)) in
        let K := e_Kj ed in
        let Jp := Jp_of X K in
        at2 Jj b e = Some (mat_product Jp (Ja_of X)) /\
        at2 Jz b e = Some (mat_product Jp (map (skipn 3) (lie_matrix Gij))) /\
        (Qabs (hZ X) <= 2 # 10 -> mat_eq Jp [[0; 0; 0; 0]; [0; 0; 0; 0]]) /\
        (2 # 10 < Qabs (hZ X) ->
         mat_eq Jp
           [ [fx K * (1 / hZ X); 0; (- fx K) * hX X * (1 / hZ X) * (1 / hZ X); 0];
             [0; fy K * (1 / hZ X); (- fy K) * hY X * (1 / hZ X) * (1 / hZ X); 0] ]) /\
        (2 # 10 < hZ X ->
         forall r c, (r < 2)%nat -> (c < 4)%nat ->
           is_derivative (fun v => nth r (proj_pt (with_coord c X v) K false) 0)
             (coord c X) (entry Jp r c)) /\
        (hZ X < - (2 # 10) ->
         (forall r c, (r < 2)%nat -> (c < 4)%nat ->
            is_derivative (fun v => nth r (proj_pt (with_coord c X v) K false) 0)
              (coord c X) (entry [ [10 * fx K; 0; 0; 0]; [0; 10 * fy K; 0; 0] ] r c)) /\
         (~ fx K == 0 ->
          ~ is_derivative (fun v => nth 0 (proj_pt (with_coord 0 X v) K false) 0)
              (coord 0 X) (entry Jp 0 0)) /\
         (~ fy K == 0 ->
          ~ is_derivative (fun v => nth 1 (proj_pt (with_coord 1 X v) K false) 0)
              (coord 1 X) (entry Jp 1 1))).
Proof.
  intros W WJ HM.
  destruct (transform_jacobian_spec poses patches intrinsics ii jj kk depth valid tonly W WJ HM)
    as (x1 & vm & Ji & Jj & Jz & Ht & _ & _ & _ & _ & Hedge).
  exists x1, vm, Ji, Jj, Jz. split; [exact Ht|].
  intros b e Gb Pb Kb i j k HG HP HK Hi Hj Hk.
  destruct (Hedge b e Gb Pb Kb i j k HG HP HK Hi Hj Hk)
    as (ed & pc & Hed & Hpc & _ & _ & AJj & _ & AJz).
  exists ed, pc. split; [exact Hed|]. split; [exact Hpc|]. cbv zeta.
  split; [exact AJj|]. split; [exact AJz|]. split; [apply Jp_of_flat|].
  split; [apply Jp_of_inverse|]. split.
  - intros Hz r c Hr Hc. apply Jp_of_proj_derivative; assumption.
  - intros Hz. split.
    + intros r c Hr Hc. apply proj_pt_clamped_derivative; [lra | assumption..].
    + apply Jp_of_not_proj_derivative. exact Hz.
Qed.

(** C3, as the code has it.  With [valid] (and without [jacobian]) every
    point of every patch has its own flag, which is 1 exactly when the Z
    coordinate of the transformed point exceeds 0.2 and 0 when it does
    not.  With [jacobian] there is one flag for every edge, and it is that
    of the transformed center point of the patch.  In both cases nothing
    is raised for a point with Z <= 0.2, and every point has a projected
    pixel with a depth term in (0, 10]. *)
Theorem validity_flags (poses : list (list SE3)) (patches : list (list patch))
    (intrinsics : list (list intr)) (ii jj kk : list Z) (depth valid tonly : bool) :
  wf_inputs poses patches intrinsics ii jj kk ->
  (exists x1 vm,
     transform poses patches intrinsics ii jj kk depth true false tonly
       = Ok (CoordsValid x1 vm) /\
     forall b e Gb Pb Kb i j k,
       nth_error poses b = Some Gb -> nth_error patches b = Some Pb ->
       nth_error intrinsics b = Some Kb ->
       nth_error ii e = Some i -> nth_error jj e = Some j -> nth_error kk e = Some k ->
       exists ed G V,
         edge_of Gb Pb Kb i j k = Ok ed /\ at2 x1 b e = Some G /\ at2 vm b e = Some V /\
         forall r c p, at2 (e_src ed) r c = Some p ->
           let X := lie_act (edge_Gij ed tonly) (iproj_pt p (e_Ki ed)) in
           exists v pix,
             at2 V r c = Some v /\ at2 G r c = Some pix /\
             flag_matches v X /\ bounded_pixel pix X (e_Kj ed) depth) /\
  (wf_jacobian_inputs poses patches -> matrix_4x4 L ->
   exists x1 vm Ji Jj Jz,
     transform poses patches intrinsics ii jj kk depth valid true tonly
       = Ok (CoordsJac x1 vm Ji Jj Jz) /\
     forall b e Gb Pb Kb i j k,
       nth_error poses b = Some Gb -> nth_error patches b = Some Pb ->
       nth_error intrinsics b = Some Kb ->
       nth_error ii e = Some i -> nth_error jj e = Some j -> nth_error kk e = Some k ->
       exists ed pc G v,
         edge_of Gb Pb Kb i j k = Ok ed /\ center (e_src ed) = Ok pc /\
         at2 x1 b e = Some G /\ at2 vm b e = Some v /\
         flag_matches v (lie_act (edge_Gij ed tonly) (iproj_pt pc (e_Ki ed))) /\
         forall r c p, at2 (e_src ed) r c = Some p ->
           let X := lie_act (edge_Gij ed tonly) (iproj_pt p (e_Ki ed)) in
           exists pix, at2 G r c = Some pix /\ bounded_pixel pix X (e_Kj ed) depth).
Proof.
  intros W. split.
  - destruct (transform_valid_spec poses patches intrinsics ii jj kk depth tonly W)
      as (x1 & vm & Ht & Hedge).
    exists x1, vm. split; [exact Ht|].
    intros b e Gb Pb Kb i j k HG HP HK Hi Hj Hk.
    destruct (Hedge b e Gb Pb Kb i j k HG HP HK Hi Hj Hk) as (ed & Hed & Ax & Av).
    eexists ed, _, _. split; [exact Hed|]. split; [exact Ax|]. split; [exact Av|].
    intros r c p Hp. cbv zeta. eexists _, _.
    split; [rewrite at2_grid_map, Hp; reflexivity|].
    split; [unfold edge_coords; rewrite at2_grid_map, Hp; reflexivity|].
    split; [apply flag_matches_valid_flag | apply bounded_pixel_proj_pt].
  - intros WJ HM.
    destruct (transform_jacobian_spec poses patches intrinsics ii jj kk depth valid tonly W WJ HM)
      as (x1 & vm & Ji & Jj & Jz & Ht & _ & _ & _ & _ & Hedge).
    exists x1, vm, Ji, Jj, Jz. split; [exact Ht|].
    intros b e Gb Pb Kb i j k HG HP HK Hi Hj Hk.
    destruct (Hedge b e Gb Pb Kb i j k HG HP HK Hi Hj Hk)
      as (ed & pc & Hed & Hpc & Ax & Av & _).
    eexists ed, pc, _, _. split; [exact Hed|]. split; [exact Hpc|].
    split; [exact Ax|]. split; [exact Av|]. split; [apply flag_matches_valid_flag|].
    intros r c p Hp. cbv zeta. eexists.
    split; [unfold edge_coords; rewrite at2_grid_map, Hp; reflexivity|].
    apply bounded_pixel_proj_pt.
Qed.

End ProjectionJacobianClaim.

Lemma Jp_is_projection_derivative_witness :
  wf_inputs [[Rigid.identity; Scene.forward1]] [[Scene.patch3]] [[Scene.K1; Scene.K2]]
    [0%Z] [1%Z] [0%Z] /\
  wf_jacobian_inputs [[Rigid.identity; Scene.forward1]] [[Scene.patch3]] /\
  matrix_4x4 Rigid.ops /\
  exists x1 vm Ji Jj Jz,
    transform (L := Rigid.ops) [[Rigid.identity; Scene.forward1]] [[Scene.patch3]]
      [[Scene.K1; Scene.K2]] [0%Z] [1%Z] [0%Z] false false true false
      = Ok (CoordsJac x1 vm Ji Jj Jz).
Proof.
  assert (W : wf_inputs [[Rigid.identity; Scene.forward1]] [[Scene.patch3]]
                [[Scene.K1; Scene.K2]] [0%Z] [1%Z] [0%Z]) by wf_by_evaluation.
  assert (WJ : wf_jacobian_inputs [[Rigid.identity; Scene.forward1]] [[Scene.patch3]]).
  { constructor; [reflexivity|]. repeat constructor. eexists; reflexivity. }
  pose proof rigid_matrix_4x4 as HM.
  repeat (split; [assumption|]).
  destruct (Jp_is_projection_derivative (L := Rigid.ops) _ _ _ _ _ _ false false false W WJ HM)
    as (x1 & vm & Ji & Jj & Jz & H & _).
  exists x1, vm, Ji, Jj, Jz. exact H.
Defined.

(** C6 as stated fails behind the camera.  On the edge below the center
    point of the patch is transformed to Z = -1.  The Jacobian path
    returns, and the entry of [Jp] in row 0, column 0 is fx / Z = -1,
    while the pixel of [proj] moves with X at the rate 10 fx = 10: the
    depth term of the forward projection is the clamped 10, not 1/Z. *)
Lemma Jp_behind_camera_counterexample :
  exists x1 vm Ji Jj Jz pc,
    transform (L := Rigid.ops) [[Rigid.identity; Scene.reversed]] [[Scene.patch1]]
      [[Scene.K1; Scene.K1]] [0%Z] [1%Z] [0%Z] false false true false
      = Ok (CoordsJac x1 vm Ji Jj Jz) /\
    center Scene.patch1 = Ok pc /\
    let X := Rigid.act (Rigid.mul Scene.reversed (Rigid.inv Rigid.identity))
               (iproj_pt pc Scene.K1) in
    let Jp := Jp_of X Scene.K1 in
    hZ X == - (1) /\
    at2 Jj 0 0 = Some (mat_product Jp (Ja_of X)) /\
    entry Jp 0 0 == - (1) /\
    is_derivative (fun v => nth 0 (proj_pt (with_coord 0 X v) Scene.K1 false) 0)
      (coord 0 X) 10 /\
    ~ is_derivative (fun v => nth 0 (proj_pt (with_coord 0 X v) Scene.K1 false) 0)
        (coord 0 X) (entry Jp 0 0).
Proof.
  eexists _, _, _, _, _, _. split; [vm_compute; reflexivity|].
  split; [reflexivity|]. cbv zeta.
  set (X := Rigid.act _ _).
  assert (HZ : hZ X == - (1)) by (vm_compute; reflexivity).
  assert (Hz : hZ X < - (2 # 10)) by lra.
  split; [exact HZ|]. split; [vm_compute; reflexivity|].
  split; [vm_compute; reflexivity|]. split.
  - assert (Hb : hZ X < 1 # 10) by lra.
    exact (proj_pt_clamped_derivative X Scene.K1 0 0 Hb ltac:(lia) ltac:(lia)).
  - apply (Jp_of_not_proj_derivative X Scene.K1 Hz). vm_compute. discriminate.
Qed.

Lemma validity_flags_witness :
  wf_inputs [[Rigid.identity; Scene.backward1]] [[Scene.patch3]] [[Scene.K1; Scene.K2]]
    [0%Z] [1%Z] [0%Z] /\
  wf_jacobian_inputs [[Rigid.identity; Scene.backward1]] [[Scene.patch3]] /\
  matrix_4x4 Rigid.ops /\
  (exists x1 vm,
     transform (L := Rigid.ops) [[Rigid.identity; Scene.backward1]] [[Scene.patch3]]
       [[Scene.K1; Scene.K2]] [0%Z] [1%Z] [0%Z] false true false false
       = Ok (CoordsValid x1 vm)) /\
  (exists x1 vm Ji Jj Jz,
     transform (L := Rigid.ops) [[Rigid.identity; Scene.backward1]] [[Scene.patch3]]
       [[Scene.K1; Scene.K2]] [0%Z] [1%Z] [0%Z] false false true false
       = Ok (CoordsJac x1 vm Ji Jj Jz)).
Proof.
  assert (W : wf_inputs [[Rigid.identity; Scene.backward1]] [[Scene.patch3]]
                [[Scene.K1; Scene.K2]] [0%Z] [1%Z] [0%Z]) by wf_by_evaluation.
  assert (WJ : wf_jacobian_inputs [[Rigid.identity; Scene.backward1]] [[Scene.patch3]]).
  { constructor; [reflexivity|]. repeat constructor. eexists; reflexivity. }
  pose proof rigid_matrix_4x4 as HM.
  repeat (split; [assumption|]).
  destruct (validity_flags (L := Rigid.ops) _ _ _ _ _ _ false false false W)
    as ((x1 & vm & H & _) & HJ).
  split; [exists x1, vm; exact H|].
  destruct (HJ WJ HM) as (y1 & vm' & Ji & Jj & Jz & H' & _).
  exists y1, vm', Ji, Jj, Jz. exact H'.
Defined.

(** C3 as stated fails with [jacobian]: the edge below carries the flag 1
    although the point of the pixel in row 1, column 2 of its patch is
    transformed to Z = -17/25, below 0.2. *)
Lemma validity_flag_off_center_counterexample :
  exists x1 Ji Jj Jz p,
    transform (L := Rigid.ops) [[Rigid.identity; Scene.turned]] [[Scene.patch3]]
      [[Scene.K1; Scene.K1]] [0%Z] [1%Z] [0%Z] false false true false
      = Ok (CoordsJac x1 [[1]] Ji Jj Jz) /\
    at2 Scene.patch3 1 2 = Some p /\
    hZ (Rigid.act (Rigid.mul Scene.turned (Rigid.inv Rigid.identity)) (iproj_pt p Scene.K1)) == - (17 # 25) /\
    ~ flag_matches 1
        (Rigid.act (Rigid.mul Scene.turned (Rigid.inv Rigid.identity)) (iproj_pt p Scene.K1)).
Proof.
  eexists _, _, _, _, _. split; [vm_compute; reflexivity|].
  split; [reflexivity|]. split; [vm_compute; reflexivity|].
  intros [H _]. destruct H as [H _]. specialize (H eq_refl). vm_compute in H. discriminate H.
Qed.

Section CenterClaim.

Context {L : LieOps}.

(** C10.  With [jacobian], the validity mask and the Jacobians (Ji, Jj,
    Jz) that [transform] returns are computed from the center pixel of
    each patch alone, one value or block for every edge: two patch buffers
    whose patches agree at the center pixel give the same mask and the
    same three Jacobians.  The returned coordinates still cover every
    pixel of the patch, and the path of [valid] has a flag for every
    pixel. *)
Theorem jacobian_outputs_from_center (poses : list (list SE3))
    (patches patches' : list (list patch)) (intrinsics : list (list intr))
    (ii jj kk : list Z) (depth valid tonly : bool) :
  wf_inputs poses patches intrinsics ii jj kk ->
  wf_inputs poses patches' intrinsics ii jj kk ->
  wf_jacobian_inputs poses patches ->
  wf_jacobian_inputs poses patches' ->
  matrix_4x4 L ->
  Forall2 (Forall2 (fun P P' => center P = center P')) patches patches' ->
  (exists x1 x1' vm Ji Jj Jz,
     transform poses patches intrinsics ii jj kk depth valid true tonly
       = Ok (CoordsJac x1 vm Ji Jj Jz) /\
     transform poses patches' intrinsics ii jj kk depth valid true tonly
       = Ok (CoordsJac x1' vm Ji Jj Jz) /\
     shape2 vm = [length ii] /\ shape2 Ji = [length ii] /\
     shape2 Jj = [length ii] /\ shape2 Jz = [length ii] /\
     forall b e Gb Pb Kb i j k,
       nth_error poses b = Some Gb -> nth_error patches b = Some Pb ->
       nth_error intrinsics b = Some Kb ->
       nth_error ii e = Some i -> nth_error jj e = Some j -> nth_error kk e = Some k ->
       exists ed,
         edge_of Gb Pb Kb i j k = Ok ed /\
         at2 x1 b e =
           Some (grid_map (fun p => proj_pt (lie_act (edge_Gij ed tonly) (iproj_pt p (e_Ki ed)))
                                      (e_Kj ed) depth) (e_src ed))) /\
  (exists x1 vm,
     transform poses patches intrinsics ii jj kk depth true false tonly
       = Ok (CoordsValid x1 vm) /\
     forall b e Gb Pb Kb i j k,
       nth_error poses b = Some Gb -> nth_error patches b = Some Pb ->
       nth_error intrinsics b = Some Kb ->
       nth_error ii e = Some i -> nth_error jj e = Some j -> nth_error kk e = Some k ->
       exists ed,
         edge_of Gb Pb Kb i j k = Ok ed /\
         at2 vm b e =
           Some (grid_map (fun p => valid_flag (lie_act (edge_Gij ed tonly)
                                                  (iproj_pt p (e_Ki ed)))) (e_src ed))).
Proof.
  intros W W' WJ WJ' HM Hagree. split.
  - destruct (transform_jacobian_spec poses patches intrinsics ii jj kk depth valid tonly W WJ HM)
      as (x1 & vm & Ji & Jj & Jz & Ht & Sv & Si & Sj & Sz & Hedge).
    destruct (transform_jacobian_spec poses patches' intrinsics ii jj kk depth valid tonly
                W' WJ' HM)
      as (x1' & vm' & Ji' & Jj' & Jz' & Ht' & Sv' & Si' & Sj' & Sz' & Hedge').
    assert (Key : forall b e, (b < 1)%nat -> (e < length ii)%nat ->
              at2 vm b e = at2 vm' b e /\ at2 Ji b e = at2 Ji' b e /\
              at2 Jj b e = at2 Jj' b e /\ at2 Jz b e = at2 Jz' b e).
    { intros b e Hb He.
      pose proof (wf_batch_one _ _ WJ) as HB.
      destruct (nth_error_lt poses b ltac:(lia)) as (Gb & HG).
      destruct (nth_error_lt patches b
                  ltac:(rewrite (wf_batch_patches _ _ _ _ _ _ W); lia)) as (Pb & HP).
      destruct (nth_error_lt patches' b
                  ltac:(rewrite (wf_batch_patches _ _ _ _ _ _ W'); lia)) as (Pb' & HP').
      destruct (nth_error_lt intrinsics b
                  ltac:(rewrite (wf_batch_intrinsics _ _ _ _ _ _ W); lia)) as (Kb & HK).
      destruct (nth_error_lt ii e He) as (i & Hi).
      destruct (nth_error_lt jj e ltac:(rewrite (wf_len_jj _ _ _ _ _ _ W); lia)) as (j & Hj).
      destruct (nth_error_lt kk e ltac:(rewrite (wf_len_kk _ _ _ _ _ _ W); lia)) as (k & Hk).
      destruct (Hedge b e Gb Pb Kb i j k HG HP HK Hi Hj Hk)
        as (ed & pc & Hed & Hpc & _ & Av & Aj & Ai & Az).
      destruct (Hedge' b e Gb Pb' Kb i j k HG HP' HK Hi Hj Hk)
        as (ed' & pc' & Hed' & Hpc' & _ & Av' & Aj' & Ai' & Az').
      destruct (edge_of_same_frames _ _ _ _ _ _ _ _ _ Hed Hed') as (EKi & EKj & EGi & EGj).
      assert (Epc : pc = pc').
      { pose proof (Forall2_nth_error_rel _ _ _ _ _ _ Hagree HP HP') as Hrow.
        destruct (edge_of_inv _ _ _ _ _ _ _ Hed) as (Es & _).
        destruct (edge_of_inv _ _ _ _ _ _ _ Hed') as (Es' & _).
        pose proof (Forall2_index _ _ _ _ _ _ Hrow Es Es') as Hc. simpl in Hc.
        rewrite Hpc, Hpc' in Hc. inversion Hc; reflexivity. }
      assert (Eg : edge_Gij ed tonly = edge_Gij ed' tonly).
      { unfold edge_Gij. rewrite EGi, EGj. reflexivity. }
      assert (Ec : edge_point ed tonly pc = edge_point ed' tonly pc').
      { unfold edge_point. rewrite Eg, EKi, Epc. reflexivity. }
      cbv zeta in Av, Aj, Ai, Az, Av', Aj', Ai', Az'.
      rewrite Av, Av', Aj, Aj', Ai, Ai', Az, Az', Ec, Eg, EKj. auto. }
    assert (Ext : forall (A : Type) (s t : list (list A)),
              shape2 s = [length ii] -> shape2 t = [length ii] ->
              (forall b e, (b < 1)%nat -> (e < length ii)%nat -> at2 s b e = at2 t b e) ->
              s = t).
    { intros A s t Hs Hs' H. apply tensor_ext; [congruence|].
      intros b e x y Hx Hy.
      destruct (at2_shape_repeat s (length ii) 1 b e x Hs Hx) as (Hb & He).
      specialize (H b e Hb He). congruence. }
    assert (Ev : vm = vm') by (apply Ext; auto; intros b e Hb He; apply (Key b e Hb He)).
    assert (Ei : Ji = Ji') by (apply Ext; auto; intros b e Hb He; apply (Key b e Hb He)).
    assert (Ej : Jj = Jj') by (apply Ext; auto; intros b e Hb He; apply (Key b e Hb He)).
    assert (Ez : Jz = Jz') by (apply Ext; auto; intros b e Hb He; apply (Key b e Hb He)).
    subst vm' Ji' Jj' Jz'.
    exists x1, x1', vm, Ji, Jj, Jz. repeat (split; [assumption|]).
    intros b e Gb Pb Kb i j k HG HP HK Hi Hj Hk.
    destruct (Hedge b e Gb Pb Kb i j k HG HP HK Hi Hj Hk) as (ed & pc & Hed & _ & Ax & _).
    exists ed. split; [exact Hed | exact Ax].
  - destruct (transform_valid_spec poses patches intrinsics ii jj kk depth tonly W)
      as (x1 & vm & Ht & Hedge).
    exists x1, vm. split; [exact Ht|].
    intros b e Gb Pb Kb i j k HG HP HK Hi Hj Hk.
    destruct (Hedge b e Gb Pb Kb i j k HG HP HK Hi Hj Hk) as (ed & Hed & _ & Av).
    exists ed. split; [exact Hed | exact Av].
Qed.

End CenterClaim.

Lemma jacobian_outputs_from_center_witness :
  wf_inputs [[Rigid.identity; Scene.turned]] [[Scene.patch3]] [[Scene.K1; Scene.K2]]
    [0%Z] [1%Z] [0%Z] /\
  wf_inputs [[Rigid.identity; Scene.turned]] [[Scene.patch3']] [[Scene.K1; Scene.K2]]
    [0%Z] [1%Z] [0%Z] /\
  wf_jacobian_inputs [[Rigid.identity; Scene.turned]] [[Scene.patch3]] /\
  wf_jacobian_inputs [[Rigid.identity; Scene.turned]] [[Scene.patch3']] /\
  matrix_4x4 Rigid.ops /\
  Forall2 (Forall2 (fun P P' : patch => center P = center P'))
    [[Scene.patch3]] [[Scene.patch3']] /\
  exists x1 x1' vm Ji Jj Jz,
    transform (L := Rigid.ops) [[Rigid.identity; Scene.turned]] [[Scene.patch3]]
      [[Scene.K1; Scene.K2]] [0%Z] [1%Z] [0%Z] false false true false
      = Ok (CoordsJac x1 vm Ji Jj Jz) /\
    transform (L := Rigid.ops) [[Rigid.identity; Scene.turned]] [[Scene.patch3']]
      [[Scene.K1; Scene.K2]] [0%Z] [1%Z] [0%Z] false false true false
      = Ok (CoordsJac x1' vm Ji Jj Jz) /\
    x1 <> x1'.
Proof.
  assert (W : wf_inputs [[Rigid.identity; Scene.turned]] [[Scene.patch3]]
                [[Scene.K1; Scene.K2]] [0%Z] [1%Z] [0%Z]) by wf_by_evaluation.
  assert (W' : wf_inputs [[Rigid.identity; Scene.turned]] [[Scene.patch3']]
                 [[Scene.K1; Scene.K2]] [0%Z] [1%Z] [0%Z]) by wf_by_evaluation.
  assert (WJ : wf_jacobian_inputs [[Rigid.identity; Scene.turned]] [[Scene.patch3]]).
  { constructor; [reflexivity|]. repeat constructor. eexists; reflexivity. }
  assert (WJ' : wf_jacobian_inputs [[Rigid.identity; Scene.turned]] [[Scene.patch3']]).
  { constructor; [reflexivity|]. repeat constructor. eexists; reflexivity. }
  pose proof rigid_matrix_4x4 as HM.
  assert (HA : Forall2 (Forall2 (fun P P' : patch => center P = center P'))
                 [[Scene.patch3]] [[Scene.patch3']]).
  { repeat constructor. }
  repeat (split; [assumption|]).
  destruct (jacobian_outputs_from_center (L := Rigid.ops) _ _ _ _ _ _ _ false false false
              W W' WJ WJ' HM HA) as ((x1 & x1' & vm & Ji & Jj & Jz & H & H' & _) & _).
  exists x1, x1', vm, Ji, Jj, Jz. split; [exact H|]. split; [exact H'|].
  intros E. subst x1'. pose proof (eq_trans H (eq_sym H')) as D. vm_compute in D. discriminate D.
Defined.



Section FlowMagnitudeClaim.

Context {L : LieOps}.

Variable norm : list Q -> Q.


End FlowMagnitudeClaim.


Section DenseClaims.

Context {L : LieOps}.

(** C4, as the code has it.  In the dense path ([projective_transform],
    and [induced_flow] through it) every transformed point is projected
    by [proj], with the clamp of the patch path: the depth term is
    d = 1 / clamp(Z, min=0.1), which is 10 for a point with Z < 0.1.  The
    projected pixel of such a point is therefore finite and the point is
    flagged invalid by the validity mask.  The substitution of Z by 1.0
    before the inversion is what [proj_disps] does, which this path does
    not call. *)
Theorem dense_projection_clamps (poses : list (list SE3)) (depths : list (list (grid Q)))
    (intrinsics : list (list intr)) (ii jj : list Z) :
  wf_inputs poses depths intrinsics ii jj ii ->
  exists x1 valid flow,
    projective_transform poses depths intrinsics ii jj = Ok (x1, valid) /\
    induced_flow poses depths intrinsics ii jj = Ok (flow, valid) /\
    forall b e Gb Db Kb i j,
      nth_error poses b = Some Gb -> nth_error depths b = Some Db ->
      nth_error intrinsics b = Some Kb ->
      nth_error ii e = Some i -> nth_error jj e = Some j ->
      exists ed G V F,
        edge_of Gb Db Kb i j i = Ok ed /\ at2 x1 b e = Some G /\
        at2 valid b e = Some V /\ at2 flow b e = Some F /\
        forall r c disp, at2 (e_src ed) r c = Some disp ->
          let Gij := if Z.eqb i j then self_edge_pose
                     else lie_mul (e_Gj ed) (lie_inv (e_Gi ed)) in
          let X1 := lie_act Gij (iproj_disps_pt r c disp (e_Ki ed)) in
          let K := e_Kj ed in
          let d := 1 / clamp_min (hZ X1) (1 # 10) in
          let pix := [fx K * (d * hX X1) + cx K; fy K * (d * hY X1) + cy K] in
          at2 G r c = Some pix /\
          at2 F r c = Some (vsub pix [inject_Z (Z.of_nat c); inject_Z (Z.of_nat r)]) /\
          (hZ X1 < 1 # 10 ->
           d == 10 /\ at2 V r c = Some [0] /\
           Forall2 Qeq (proj_disps_pt X1 K false)
             [fx K * (hX X1 * 1) + cx K; fy K * (hY X1 * 1) + cy K]).
Proof.
  intros W.
  destruct (projective_transform_spec poses depths intrinsics ii jj W)
    as (x1 & valid & Ht & Hedge).
  eexists x1, valid, _. split; [exact Ht|].
  split; [unfold induced_flow; rewrite Ht; reflexivity|].
  intros b e Gb Db Kb i j HG HD HK Hi Hj.
  destruct (Hedge b e Gb Db Kb i j HG HD HK Hi Hj) as (ed & G & V & Hed & AG & AV & Hpix).
  eexists ed, G, V, _. split; [exact Hed|]. split; [exact AG|]. split; [exact AV|].
  split; [cbn [fst]; rewrite at2_map_map, AG; reflexivity|].
  intros r c disp Hd. destruct (Hpix r c disp Hd) as (PG & PV). cbv zeta in PG, PV |- *.
  split; [exact PG|].
  split; [rewrite at2_grid_imap, PG; reflexivity|].
  intros Hz. split; [|split].
  - rewrite clamp_min_below by exact Hz. reflexivity.
  - rewrite PV. unfold dense_flag, MIN_DEPTH.
    replace (Qltb (2 # 10) _) with false; [reflexivity|].
    symmetry. apply Qltb_ge. lra.
  - unfold proj_disps_pt, MIN_DEPTH.
    replace (Qltb _ ((5 # 10) * (2 # 10))) with true; [repeat constructor; reflexivity|].
    symmetry. apply Qltb_lt. lra.
Qed.

End DenseClaims.

Lemma dense_projection_clamps_witness :
  wf_inputs [[Rigid.identity; Scene.backward1]] DenseScene.depths_one [[Scene.K1; Scene.K1]]
    [0%Z] [1%Z] [0%Z] /\
  exists x1 valid flow,
    projective_transform (L := Rigid.ops) [[Rigid.identity; Scene.backward1]]
      DenseScene.depths_one [[Scene.K1; Scene.K1]] [0%Z] [1%Z] = Ok (x1, valid) /\
    induced_flow (L := Rigid.ops) [[Rigid.identity; Scene.backward1]]
      DenseScene.depths_one [[Scene.K1; Scene.K1]] [0%Z] [1%Z] = Ok (flow, valid).
Proof.
  assert (W : wf_inputs [[Rigid.identity; Scene.backward1]] DenseScene.depths_one
                [[Scene.K1; Scene.K1]] [0%Z] [1%Z] [0%Z]) by wf_by_evaluation.
  split; [exact W|].
  destruct (dense_projection_clamps (L := Rigid.ops) _ _ _ _ _ W)
    as (x1 & valid & flow & H & H' & _).
  exists x1, valid, flow. split; assumption.
Defined.

(** C4 as stated fails: the pixel in row 0, column 1 of the edge below is
    transformed to Z = 0, below 0.1, and [projective_transform] projects
    it with the depth term 10 of the clamp, to (10, 0); with Z substituted
    by 1.0 ([proj_disps]) it would be projected to (1, 0). *)
Lemma dense_projection_substitution_counterexample :
  exists x1 valid G pix,
    projective_transform (L := Rigid.ops) [[Rigid.identity; Scene.backward1]]
      DenseScene.depths_one [[Scene.K1; Scene.K1]] [0%Z] [1%Z] = Ok (x1, valid) /\
    at2 x1 0 0 = Some G /\ at2 G 0 1 = Some pix /\
    let X1 := Rigid.act (Rigid.mul Scene.backward1 (Rigid.inv Rigid.identity))
                (iproj_disps_pt 0 1 1 Scene.K1) in
    hZ X1 < 1 # 10 /\
    Forall2 Qeq pix [10; 0] /\
    Forall2 Qeq (proj_disps_pt X1 Scene.K1 false) [1; 0] /\
    ~ Forall2 Qeq pix (proj_disps_pt X1 Scene.K1 false).
Proof.
  eexists _, _, _, _. split; [vm_compute; reflexivity|].
  split; [reflexivity|]. split; [reflexivity|]. cbv zeta.
  split; [vm_compute; reflexivity|].
  split; [repeat constructor; vm_compute; reflexivity|].
  split; [repeat constructor; vm_compute; reflexivity|].
  intros H. inversion H as [|? ? ? ? Hx _]. vm_compute in Hx. discriminate Hx.
Qed.

Section DenseValidityClaim.

Context {L : LieOps}.

(** C9.  In the dense path ([projective_transform], and [induced_flow],
    which returns its validity unchanged) the validity of a pixel is 0
    exactly when the Z coordinate of its source point (the backprojected
    point of the pixel) or of its transformed point is at or below
    [MIN_DEPTH] = 0.2, and 1 otherwise. *)
Theorem dense_validity_gate (poses : list (list SE3)) (depths : list (list (grid Q)))
    (intrinsics : list (list intr)) (ii jj : list Z) :
  wf_inputs poses depths intrinsics ii jj ii ->
  exists x1 valid flow,
    projective_transform poses depths intrinsics ii jj = Ok (x1, valid) /\
    induced_flow poses depths intrinsics ii jj = Ok (flow, valid) /\
    MIN_DEPTH == 2 # 10 /\
    forall b e Gb Db Kb i j,
      nth_error poses b = Some Gb -> nth_error depths b = Some Db ->
      nth_error intrinsics b = Some Kb ->
      nth_error ii e = Some i -> nth_error jj e = Some j ->
      exists ed V,
        edge_of Gb Db Kb i j i = Ok ed /\ at2 valid b e = Some V /\
        forall r c disp, at2 (e_src ed) r c = Some disp ->
          let Gij := if Z.eqb i j then self_edge_pose
                     else lie_mul (e_Gj ed) (lie_inv (e_Gi ed)) in
          let X0 := iproj_disps_pt r c disp (e_Ki ed) in
          let X1 := lie_act Gij X0 in
          exists v,
            at2 V r c = Some [v] /\
            (v = 0 <-> hZ X0 <= MIN_DEPTH \/ hZ X1 <= MIN_DEPTH) /\
            (v = 1 <-> MIN_DEPTH < hZ X0 /\ MIN_DEPTH < hZ X1) /\
            (v = 0 \/ v = 1).
Proof.
  intros W.
  destruct (projective_transform_spec poses depths intrinsics ii jj W)
    as (x1 & valid & Ht & Hedge).
  eexists x1, valid, _. split; [exact Ht|].
  split; [unfold induced_flow; rewrite Ht; reflexivity|].
  split; [reflexivity|].
  intros b e Gb Db Kb i j HG HD HK Hi Hj.
  destruct (Hedge b e Gb Db Kb i j HG HD HK Hi Hj) as (ed & G & V & Hed & _ & AV & Hpix).
  exists ed, V. split; [exact Hed|]. split; [exact AV|].
  intros r c disp Hd. destruct (Hpix r c disp Hd) as (_ & PV). cbv zeta in PV |- *.
  eexists. split; [exact PV|]. unfold dense_flag.
  destruct (Qltb MIN_DEPTH (hZ (lie_act _ _))) eqn:E1;
    destruct (Qltb MIN_DEPTH (hZ (iproj_disps_pt r c disp (e_Ki ed)))) eqn:E0;
    cbn [andb to_float];
    try apply Qltb_lt in E1; try apply Qltb_ge in E1;
    try apply Qltb_lt in E0; try apply Qltb_ge in E0.
  - split; [|split; [|right; reflexivity]].
    + split; [discriminate|]. intros [H|H]; exfalso; lra.
    + split; [intros _; split; assumption | reflexivity].
  - split; [|split; [|left; reflexivity]].
    + split; [intros _; left; exact E0 | reflexivity].
    + split; [discriminate|]. intros [H _]. exfalso. lra.
  - split; [|split; [|left; reflexivity]].
    + split; [intros _; right; exact E1 | reflexivity].
    + split; [discriminate|]. intros [_ H]. exfalso. lra.
  - split; [|split; [|left; reflexivity]].
    + split; [intros _; left; exact E0 | reflexivity].
    + split; [discriminate|]. intros [H _]. exfalso. lra.
Qed.

End DenseValidityClaim.

Lemma dense_validity_gate_witness :
  wf_inputs [[Rigid.identity; Scene.backward1]] DenseScene.depths_shallow
    [[Scene.K1; Scene.K1]] [0%Z] [1%Z] [0%Z] /\
  exists x1 valid flow,
    projective_transform (L := Rigid.ops) [[Rigid.identity; Scene.backward1]]
      DenseScene.depths_shallow [[Scene.K1; Scene.K1]] [0%Z] [1%Z] = Ok (x1, valid) /\
    induced_flow (L := Rigid.ops) [[Rigid.identity; Scene.backward1]]
      DenseScene.depths_shallow [[Scene.K1; Scene.K1]] [0%Z] [1%Z] = Ok (flow, valid).
Proof.
  assert (W : wf_inputs [[Rigid.identity; Scene.backward1]] DenseScene.depths_shallow
                [[Scene.K1; Scene.K1]] [0%Z] [1%Z] [0%Z]) by wf_by_evaluation.
  split; [exact W|].
  destruct (dense_validity_gate (L := Rigid.ops) _ _ _ _ _ W)
    as (x1 & valid & flow & H & H' & _).
  exists x1, valid, flow. split; assumption.
Defined.

(** * Further properties of the source *)

(** ** Index errors *)

Lemma index_in_range {A : Type} (l : list A) (i : Z) (a : A) :
  index l i = Ok a -> in_range (length l) i.
Proof.
  unfold index, in_range.
  destruct ((0 <=? i) && (i <? Z.of_nat (length l)))%Z eqn:E1.
  - intros _. apply andb_prop in E1 as [E1 E2]. apply Z.leb_le in E1. apply Z.ltb_lt in E2. lia.
  - destruct ((- Z.of_nat (length l) <=? i) && (i <? 0))%Z eqn:E2; [|discriminate].
    intros _. apply andb_prop in E2 as [E2 E3]. apply Z.leb_le in E2. apply Z.ltb_lt in E3. lia.
Qed.

Lemma index_error {A : Type} (l : list A) (i : Z) (e : error) :
  index l i = Err e -> e = IndexError.
Proof.
  unfold index.
  destruct ((0 <=? i) && (i <? Z.of_nat (length l)))%Z.
  - destruct (nth_error l (Z.to_nat i)); simpl; intros H; inversion H; reflexivity.
  - destruct ((- Z.of_nat (length l) <=? i) && (i <? 0))%Z.
    + destruct (nth_error l (Z.to_nat (i + Z.of_nat (length l)))); simpl; intros H;
        inversion H; reflexivity.
    + intros H; inversion H; reflexivity.
Qed.

Lemma mapM_error {A B : Type} (f : A -> result B) (l : list A) (e e0 : error) :
  (forall a e', In a l -> f a = Err e' -> e' = e0) -> mapM f l = Err e -> e = e0.
Proof.
  induction l as [|a l IH]; simpl; intros Hf H; [discriminate|].
  destruct (f a) as [b|e'] eqn:Ea; simpl in H.
  - assert (IH' : mapM f l = Err e -> e = e0).
    { apply IH. intros a' e1 Hin. apply Hf. right. exact Hin. }
    destruct (mapM f l) as [bs|e'']; simpl in H; [discriminate|].
    inversion H; subst. apply IH'. reflexivity.
  - inversion H; subst. apply (Hf a e); [left; reflexivity | exact Ea].
Qed.

Lemma mapM_ok_all {A B : Type} (f : A -> result B) (P : A -> Prop) (l : list A) (r : list B) :
  (forall a b, f a = Ok b -> P a) -> mapM f l = Ok r -> Forall P l.
Proof.
  revert r; induction l as [|a l IH]; simpl; intros r Hf H; [constructor|].
  apply bind_ok in H as (b & Hb & H). apply bind_ok in H as (bs & Hbs & _).
  constructor; eauto.
Qed.

Lemma index_dim1_in_range {A : Type} (t r : list (list A)) (idx : list Z) :
  index_dim1 t idx = Ok r -> all_in_range t idx.
Proof.
  unfold index_dim1, all_in_range. apply mapM_ok_all. intros row rr Hrow.
  eapply mapM_ok_all; [|exact Hrow]. intros i a. apply index_in_range.
Qed.

Lemma index_dim1_error {A : Type} (t : list (list A)) (idx : list Z) (e : error) :
  index_dim1 t idx = Err e -> e = IndexError.
Proof.
  unfold index_dim1. apply mapM_error. intros row e' _.
  apply mapM_error. intros i e'' _. apply index_error.
Qed.

(** A gather either succeeds, with every index in range, or raises
    [IndexError]. *)
Lemma index_dim1_cases {A : Type} (t : list (list A)) (idx : list Z) :
  (exists r, index_dim1 t idx = Ok r /\ all_in_range t idx /\
             shape2 r = repeat (length idx) (length t)) \/
  (index_dim1 t idx = Err IndexError /\ ~ all_in_range t idx).
Proof.
  destruct (index_dim1 t idx) as [r|e] eqn:E.
  - left. exists r. split; [reflexivity|]. split; [eapply index_dim1_in_range; eauto|].
    eapply index_dim1_shape; eauto.
  - right. rewrite (index_dim1_error _ _ _ E) in *. split; [reflexivity|].
    intros H. destruct (index_dim1_ok _ _ H) as (r & Hr). congruence.
Qed.

Section IndexErrors.

Context {L : LieOps}.

(** X1.  With operands of agreeing sizes, [transform] returns a result
    exactly when every index of [ii], [jj] and [kk] is in range of the
    buffers it reads (negative indices counting from the end); when some
    index is out of range it raises [IndexError], whatever the flags. *)
Theorem transform_index_error (poses : list (list SE3)) (patches : list (list patch))
    (intrinsics : list (list intr)) (ii jj kk : list Z) (depth valid jacobian tonly : bool) :
  shapes_agree poses patches intrinsics ii jj kk ->
  (indices_in_range poses patches intrinsics ii jj kk ->
   exists out, transform poses patches intrinsics ii jj kk depth valid false tonly = Ok out) /\
  (~ indices_in_range poses patches intrinsics ii jj kk ->
   transform poses patches intrinsics ii jj kk depth valid jacobian tonly = Err IndexError).
Proof.
  intros [S1 S2 S3 S4]. split.
  - intros [R1 R2 R3 R4 R5].
    assert (W : wf_inputs poses patches intrinsics ii jj kk) by (constructor; assumption).
    destruct (transform_wf poses patches intrinsics ii jj kk depth valid false tonly W)
      as (Pk & Ki & Kj & Gi & Gj & _ & H). cbv zeta in H. destruct H as (_ & Ht).
    rewrite Ht. destruct valid; eauto.
  - intros HN. unfold transform.
    destruct (index_dim1_cases patches kk) as [(Pk & HPk & RP & SP)|(HPk & _)];
      [|rewrite HPk; reflexivity].
    rewrite HPk. cbn [bind].
    destruct (index_dim1_cases intrinsics ii) as [(Ki & HKi & RKi & SKi)|(HKi & _)];
      [|rewrite HKi; reflexivity].
    rewrite HKi. cbn [bind].
    rewrite S1, S4 in SP. rewrite S2 in SKi.
    assert (E0 : iproj Pk Ki = Ok (X0_of Pk Ki)) by (apply bmap2_into_pure2; shapes).
    rewrite E0. cbn [bind].
    destruct (index_dim1_cases poses jj) as [(Gj & HGj & RGj & SGj)|(HGj & _)];
      [|rewrite HGj; reflexivity].
    rewrite HGj. cbn [bind].
    destruct (index_dim1_cases poses ii) as [(Gi & HGi & RGi & SGi)|(HGi & _)];
      [|rewrite HGi; reflexivity].
    rewrite HGi. cbn [bind]. rewrite S3 in SGj.
    destruct (index_dim1_cases intrinsics jj) as [(Kj & HKj & RKj & SKj)|(HKj & _)].
    2:{ destruct (front_eq Pk Ki Ki Gi Gj depth tonly _ SP SKi SKi SGi SGj)
          as (_ & EG & E1 & _).
        rewrite EG. cbn [bind]. cbv zeta.
        replace (if tonly then map (map set_rotation_identity) (Gij_of Gj Gi false)
                 else Gij_of Gj Gi false) with (Gij_of Gj Gi tonly)
          by (unfold Gij_of; destruct tonly; reflexivity).
        simpl in E1. rewrite E1. cbn [bind]. rewrite HKj. reflexivity. }
    exfalso. apply HN. constructor; assumption.
Qed.

End IndexErrors.

Lemma transform_index_error_witness :
  shapes_agree [[Rigid.identity; Scene.forward1]] [[Scene.patch3]] [[Scene.K1; Scene.K2]]
    [0%Z] [1%Z] [1%Z] /\
  transform (L := Rigid.ops) [[Rigid.identity; Scene.forward1]] [[Scene.patch3]]
    [[Scene.K1; Scene.K2]] [0%Z] [1%Z] [1%Z] false true true false = Err IndexError.
Proof.
  assert (S : shapes_agree [[Rigid.identity; Scene.forward1]] [[Scene.patch3]]
                [[Scene.K1; Scene.K2]] [0%Z] [1%Z] [1%Z]) by (constructor; reflexivity).
  split; [exact S|].
  apply (transform_index_error (L := Rigid.ops) _ _ _ _ _ _ false true true false S).
  intros [_ _ _ _ H]. inversion H as [|? ? Hrow _]. inversion Hrow as [|? ? Hi _].
  unfold in_range in Hi. simpl in Hi. lia.
Defined.

(** ** The batch size of the Jacobian path *)

Lemma list_sum_repeat (n m : nat) : list_sum (repeat n m) = (m * n)%nat.
Proof. induction m as [|m IH]; simpl; [reflexivity | rewrite IH; reflexivity]. Qed.

Lemma length_concat_shape {A : Type} (t : list (list A)) (n m : nat) :
  shape2 t = repeat n m -> length (concat t) = (m * n)%nat.
Proof.
  intros H. rewrite length_concat. unfold shape2 in H. rewrite H. apply list_sum_repeat.
Qed.

Section JacobianBatch.

Context {L : LieOps}.

(** X2.  The Jacobian path views its matrices as (1, len(ii), ...): on
    well-formed inputs with a batch of two or more and at least one edge,
    [transform] with [jacobian] raises the shape error of that view, while
    the same call without [jacobian] returns. *)
Theorem transform_jacobian_needs_batch_one (poses : list (list SE3))
    (patches : list (list patch)) (intrinsics : list (list intr)) (ii jj kk : list Z)
    (depth valid tonly : bool) :
  wf_inputs poses patches intrinsics ii jj kk ->
  Forall (Forall has_center) patches ->
  (2 <= length poses)%nat -> (1 <= length ii)%nat ->
  transform poses patches intrinsics ii jj kk depth valid true tonly = Err ShapeError /\
  exists out, transform poses patches intrinsics ii jj kk depth valid false tonly = Ok out.
Proof.
  intros W HC HB HE. split.
  - destruct (transform_wf poses patches intrinsics ii jj kk depth valid true tonly W)
      as (Pk & Ki & Kj & Gi & Gj & (HPk & HKi & HKj & HGi & HGj) & H).
    cbv zeta in H. destruct H as ((SG & S1 & SK) & Ht). rewrite Ht. clear Ht.
    set (X1 := X1_of (Gij_of Gj Gi tonly) (X0_of Pk Ki)) in *.
    assert (HCk : Forall (Forall has_center) Pk) by (eapply index_dim1_Forall; eauto).
    assert (HC1 : Forall (Forall (fun G => exists c, center G = Ok c)) X1).
    { unfold X1, X1_of. apply Forall2_grid_map2_r with (PB := has_center).
      - intros g G HG. apply (has_center_grid_map (lie_act g)). exact HG.
      - unfold X0_of. apply Forall2_grid_map2_l with (PA := has_center); [|exact HCk].
        intros P K HP. apply (has_center_grid_map (fun p => iproj_pt p K)). exact HP. }
    destruct (mapM2_ok _ _ HC1) as (Xc & HXc).
    assert (Sc : shape2 Xc = repeat (length ii) (length poses)).
    { rewrite (mapM2_shape _ _ _ HXc). exact S1. }
    unfold transform_jacobian. rewrite HXc. cbn [bind]. rewrite HKj. cbn [bind].
    unfold view1.
    rewrite (length_concat_shape (map (map Ja_of) Xc) (length ii) (length poses))
      by (rewrite shape2_map_map; exact Sc).
    replace (Nat.eqb (length poses * length ii) (length ii)) with false; [reflexivity|].
    symmetry. apply Nat.eqb_neq. nia.
  - destruct (transform_wf poses patches intrinsics ii jj kk depth valid false tonly W)
      as (Pk & Ki & Kj & Gi & Gj & _ & H). cbv zeta in H. destruct H as (_ & Ht).
    rewrite Ht. destruct valid; eauto.
Qed.

End JacobianBatch.

Lemma transform_jacobian_needs_batch_one_witness :
  wf_inputs [[Rigid.identity; Scene.forward1]; [Rigid.identity; Scene.turned]]
    [[Scene.patch3]; [Scene.patch3']] [[Scene.K1; Scene.K2]; [Scene.K1; Scene.K2]]
    [0%Z] [1%Z] [0%Z] /\
  Forall (Forall has_center) [[Scene.patch3]; [Scene.patch3']] /\
  transform (L := Rigid.ops) [[Rigid.identity; Scene.forward1]; [Rigid.identity; Scene.turned]]
    [[Scene.patch3]; [Scene.patch3']] [[Scene.K1; Scene.K2]; [Scene.K1; Scene.K2]]
    [0%Z] [1%Z] [0%Z] false false true false = Err ShapeError.
Proof.
  assert (W : wf_inputs [[Rigid.identity; Scene.forward1]; [Rigid.identity; Scene.turned]]
                [[Scene.patch3]; [Scene.patch3']] [[Scene.K1; Scene.K2]; [Scene.K1; Scene.K2]]
                [0%Z] [1%Z] [0%Z]) by wf_by_evaluation.
  assert (HC : Forall (Forall has_center) [[Scene.patch3]; [Scene.patch3']]).
  { repeat constructor; eexists; reflexivity. }
  repeat (split; [assumption|]).
  apply (transform_jacobian_needs_batch_one (L := Rigid.ops) _ _ _ _ _ _ false false false W HC);
    simpl; lia.
Defined.

(** ** Edges are independent of one another *)

Lemma all_in_range_app {A : Type} (t : list (list A)) (idx idx' : list Z) :
  all_in_range t idx -> all_in_range t idx' -> all_in_range t (idx ++ idx').
Proof.
  unfold all_in_range. intros H H'. rewrite Forall_forall in *. intros row Hrow.
  apply Forall_app. split; [apply H | apply H']; exact Hrow.
Qed.

Lemma wf_inputs_app {P : Type} (poses : list (list SE3)) (patches : list (list P))
    (intrinsics : list (list intr)) (ii jj kk ii' jj' kk' : list Z) :
  wf_inputs poses patches intrinsics ii jj kk ->
  wf_inputs poses patches intrinsics ii' jj' kk' ->
  wf_inputs poses patches intrinsics (ii ++ ii') (jj ++ jj') (kk ++ kk').
Proof.
  intros W W'. constructor; try apply W; try (apply all_in_range_app; [apply W | apply W']).
  - rewrite !length_app, (wf_len_jj _ _ _ _ _ _ W), (wf_len_jj _ _ _ _ _ _ W'). reflexivity.
  - rewrite !length_app, (wf_len_kk _ _ _ _ _ _ W), (wf_len_kk _ _ _ _ _ _ W'). reflexivity.
Qed.

Lemma shape2_append_edges {A : Type} (s t : list (list A)) (n n' m : nat) :
  shape2 s = repeat n m -> shape2 t = repeat n' m ->
  shape2 (append_edges s t) = repeat (n + n')%nat m.
Proof.
  revert t m; induction s as [|rs s IH]; intros [|rt t] [|m] Hs Ht; try discriminate;
    try reflexivity.
  simpl in Hs, Ht. injection Hs as Hrs Hs. injection Ht as Hrt Ht.
  unfold append_edges in *. simpl. rewrite length_app, Hrs, Hrt. f_equal. apply IH; assumption.
Qed.

Lemma at2_append_edges {A : Type} (s t : list (list A)) (b e : nat) (rs rt : list A) :
  nth_error s b = Some rs -> nth_error t b = Some rt ->
  at2 (append_edges s t) b e = nth_error (rs ++ rt) e.
Proof.
  intros Hs Ht. unfold at2, append_edges.
  rewrite nth_error_map, (nth_error_combine_some _ _ _ _ _ Hs Ht). reflexivity.
Qed.

Lemma shape2_row_length {A : Type} (t : list (list A)) (n m b : nat) (row : list A) :
  shape2 t = repeat n m -> nth_error t b = Some row -> length row = n.
Proof.
  intros H Hb. pose proof (shape2_repeat_rows _ _ _ H) as F. rewrite Forall_forall in F.
  apply F. eapply nth_error_In; eauto.
Qed.

Lemma shape2_row {A : Type} (t : list (list A)) (n m b : nat) :
  shape2 t = repeat n m -> (b < m)%nat -> exists row, nth_error t b = Some row /\ length row = n.
Proof.
  intros H Hb. destruct (nth_error_lt t b) as (row & Hrow).
  { apply (f_equal (@length nat)) in H. unfold shape2 in H.
    rewrite length_map, repeat_length in H. lia. }
  exists row. split; [exact Hrow | eapply shape2_row_length; eauto].
Qed.

Section EdgeLocality.

Context {L : LieOps}.

(** X3.  Edges do not influence one another: on well-formed inputs the
    reprojection of two edge lists joined is the reprojection of the
    first joined, along the edge dimension, with the reprojection of the
    second. *)
Theorem transform_edges_append (poses : list (list SE3)) (patches : list (list patch))
    (intrinsics : list (list intr)) (ii jj kk ii' jj' kk' : list Z) (depth tonly : bool) :
  wf_inputs poses patches intrinsics ii jj kk ->
  wf_inputs poses patches intrinsics ii' jj' kk' ->
  exists x1 x1',
    transform poses patches intrinsics ii jj kk depth false false tonly = Ok (Coords x1) /\
    transform poses patches intrinsics ii' jj' kk' depth false false tonly = Ok (Coords x1') /\
    transform poses patches intrinsics (ii ++ ii') (jj ++ jj') (kk ++ kk')
      depth false false tonly = Ok (Coords (append_edges x1 x1')).
Proof.
  intros W W'. pose proof (wf_inputs_app _ _ _ _ _ _ _ _ _ W W') as W2.
  destruct (transform_coords_spec poses patches intrinsics ii jj kk depth tonly W)
    as (x1 & H1 & S1 & E1).
  destruct (transform_coords_spec poses patches intrinsics ii' jj' kk' depth tonly W')
    as (x1' & H1' & S1' & E1').
  destruct (transform_coords_spec poses patches intrinsics _ _ _ depth tonly W2)
    as (x2 & H2 & S2 & E2).
  exists x1, x1'. split; [exact H1|]. split; [exact H1'|].
  rewrite H2. do 2 f_equal.
  rewrite length_app in S2.
  pose proof (shape2_append_edges _ _ _ _ _ S1 S1') as SA.
  apply tensor_ext; [rewrite S2, SA; reflexivity|].
  intros b e x y Hx Hy.
  destruct (at2_shape_repeat _ _ _ _ _ _ S2 Hx) as (Hb & He).
  destruct (nth_error_lt poses b Hb) as (Gb & HG).
  destruct (nth_error_lt patches b ltac:(rewrite (wf_batch_patches _ _ _ _ _ _ W); lia))
    as (Pb & HP).
  destruct (nth_error_lt intrinsics b
              ltac:(rewrite (wf_batch_intrinsics _ _ _ _ _ _ W); lia)) as (Kb & HK).
  destruct (shape2_row _ _ _ _ S1 Hb) as (r1 & Hr1 & L1).
  destruct (shape2_row _ _ _ _ S1' Hb) as (r1' & Hr1' & L1').
  rewrite (at2_append_edges _ _ _ _ _ _ Hr1 Hr1') in Hy.
  pose proof (wf_len_jj _ _ _ _ _ _ W) as Lj. pose proof (wf_len_kk _ _ _ _ _ _ W) as Lk.
  pose proof (wf_len_jj _ _ _ _ _ _ W') as Lj'. pose proof (wf_len_kk _ _ _ _ _ _ W') as Lk'.
  destruct (Nat.lt_ge_cases e (length ii)) as [Hlt|Hge].
  - destruct (nth_error_lt ii e Hlt) as (i & Hi).
    destruct (nth_error_lt jj e ltac:(lia)) as (j & Hj).
    destruct (nth_error_lt kk e ltac:(lia)) as (k & Hk).
    destruct (E1 b e Gb Pb Kb i j k HG HP HK Hi Hj Hk) as (ed & Hed & A1).
    destruct (E2 b e Gb Pb Kb i j k HG HP HK) as (ed2 & Hed2 & A2);
      try (rewrite nth_error_app1 by lia; assumption).
    rewrite nth_error_app1 in Hy by lia.
    unfold at2 in A1. rewrite Hr1 in A1. congruence.
  - destruct (nth_error_lt ii' (e - length ii) ltac:(lia)) as (i & Hi).
    destruct (nth_error_lt jj' (e - length ii) ltac:(lia)) as (j & Hj).
    destruct (nth_error_lt kk' (e - length ii) ltac:(lia)) as (k & Hk).
    destruct (E1' b (e - length ii)%nat Gb Pb Kb i j k HG HP HK Hi Hj Hk) as (ed & Hed & A1).
    destruct (E2 b e Gb Pb Kb i j k HG HP HK) as (ed2 & Hed2 & A2);
      try (rewrite nth_error_app2 by lia;
           first [rewrite Lj | rewrite Lk | idtac]; assumption).
    rewrite nth_error_app2, L1 in Hy by lia.
    unfold at2 in A1. rewrite Hr1' in A1. congruence.
Qed.

End EdgeLocality.

Lemma transform_edges_append_witness :
  wf_inputs [[Rigid.identity; Scene.turned]] [[Scene.patch3; Scene.patch1]]
    [[Scene.K1; Scene.K2]] [0%Z] [1%Z] [0%Z] /\
  wf_inputs [[Rigid.identity; Scene.turned]] [[Scene.patch3; Scene.patch1]]
    [[Scene.K1; Scene.K2]] [1%Z; (-1)%Z] [0%Z; 0%Z] [1%Z; (-2)%Z] /\
  exists x1 x1',
    transform (L := Rigid.ops) [[Rigid.identity; Scene.turned]] [[Scene.patch3; Scene.patch1]]
      [[Scene.K1; Scene.K2]] [0%Z; 1%Z; (-1)%Z] [1%Z; 0%Z; 0%Z] [0%Z; 1%Z; (-2)%Z]
      true false false false = Ok (Coords (append_edges x1 x1')).
Proof.
  assert (W : wf_inputs [[Rigid.identity; Scene.turned]] [[Scene.patch3; Scene.patch1]]
                [[Scene.K1; Scene.K2]] [0%Z] [1%Z] [0%Z]) by wf_by_evaluation.
  assert (W' : wf_inputs [[Rigid.identity; Scene.turned]] [[Scene.patch3; Scene.patch1]]
                 [[Scene.K1; Scene.K2]] [1%Z; (-1)%Z] [0%Z; 0%Z] [1%Z; (-2)%Z])
    by wf_by_evaluation.
  repeat (split; [assumption|]).
  destruct (transform_edges_append (L := Rigid.ops) _ _ _ _ _ _ _ _ _ true false W W')
    as (x1 & x1' & _ & _ & H).
  exists x1, x1'. exact H.
Defined.

(** ** The flags and the returned coordinates *)

Lemma map_map_grid_map2 {A B C D : Type} (h : C -> D) (g : A -> B -> C)
    (s : list (list A)) (t : list (list B)) :
  map (map h) (grid_map2 g s t) = grid_map2 (fun a b => h (g a b)) s t.
Proof.
  unfold grid_map2. rewrite map_map. apply map_ext. intros p. apply map_map.
Qed.

Section Flags.

Context {L : LieOps}.

Lemma transform_jacobian_coords (intrinsics : list (list intr)) (ii jj : list Z)
    (Gij : list (list SE3)) (X1 : list (list (grid hpoint)))
    (x1 : list (list (grid (list Q)))) (out : transform_out) :
  transform_jacobian intrinsics ii jj Gij X1 x1 = Ok out -> out_coords out = x1.
Proof.
  unfold transform_jacobian. intros H.
  repeat (apply bind_ok in H as (? & _ & H)). inversion H; reflexivity.
Qed.

(** X4.  The flags [valid] and [jacobian] never change the coordinates
    that [transform] returns, and [depth] only appends the depth term to
    every pixel: the first two entries of a pixel are those returned
    without [depth]. *)
Theorem transform_coords_flags (poses : list (list SE3)) (patches : list (list patch))
    (intrinsics : list (list intr)) (ii jj kk : list Z) (depth valid tonly : bool) :
  wf_inputs poses patches intrinsics ii jj kk ->
  wf_jacobian_inputs poses patches ->
  matrix_4x4 L ->
  exists x1 xd vm vm' Ji Jj Jz,
    transform poses patches intrinsics ii jj kk depth false false tonly = Ok (Coords x1) /\
    transform poses patches intrinsics ii jj kk depth true false tonly
      = Ok (CoordsValid x1 vm) /\
    transform poses patches intrinsics ii jj kk depth valid true tonly
      = Ok (CoordsJac x1 vm' Ji Jj Jz) /\
    transform poses patches intrinsics ii jj kk true false false tonly = Ok (Coords xd) /\
    map (map (grid_map (firstn 2))) xd = map (map (grid_map (firstn 2))) x1 /\
    (depth = false -> x1 = map (map (grid_map (firstn 2))) xd).
Proof.
  intros W WJ HM.
  destruct (transform_wf poses patches intrinsics ii jj kk depth false false tonly W)
    as (Pk & Ki & Kj & Gi & Gj & (HPk & HKi & HKj & HGi & HGj) & H).
  cbv zeta in H. destruct H as (_ & H0).
  destruct (transform_wf poses patches intrinsics ii jj kk depth true false tonly W)
    as (Pk1 & Ki1 & Kj1 & Gi1 & Gj1 & (HPk1 & HKi1 & HKj1 & HGi1 & HGj1) & H).
  cbv zeta in H. destruct H as (_ & H1).
  assert (Pk1 = Pk) by congruence. assert (Ki1 = Ki) by congruence.
  assert (Kj1 = Kj) by congruence. assert (Gi1 = Gi) by congruence.
  assert (Gj1 = Gj) by congruence. subst Pk1 Ki1 Kj1 Gi1 Gj1.
  destruct (transform_wf poses patches intrinsics ii jj kk depth valid true tonly W)
    as (Pk2 & Ki2 & Kj2 & Gi2 & Gj2 & (HPk2 & HKi2 & HKj2 & HGi2 & HGj2) & H).
  cbv zeta in H. destruct H as (_ & H2).
  assert (Pk2 = Pk) by congruence. assert (Ki2 = Ki) by congruence.
  assert (Kj2 = Kj) by congruence. assert (Gi2 = Gi) by congruence.
  assert (Gj2 = Gj) by congruence. subst Pk2 Ki2 Kj2 Gi2 Gj2.
  destruct (transform_wf poses patches intrinsics ii jj kk true false false tonly W)
    as (Pk3 & Ki3 & Kj3 & Gi3 & Gj3 & (HPk3 & HKi3 & HKj3 & HGi3 & HGj3) & H).
  cbv zeta in H. destruct H as (_ & H3).
  assert (Pk3 = Pk) by congruence. assert (Ki3 = Ki) by congruence.
  assert (Kj3 = Kj) by congruence. assert (Gi3 = Gi) by congruence.
  assert (Gj3 = Gj) by congruence. subst Pk3 Ki3 Kj3 Gi3 Gj3.
  destruct (transform_jacobian_spec poses patches intrinsics ii jj kk depth valid tonly W WJ HM)
    as (y1 & vm' & Ji & Jj & Jz & HJ & _).
  set (X1 := X1_of (Gij_of Gj Gi tonly) (X0_of Pk Ki)) in *.
  assert (Ey : y1 = x1_of X1 Kj depth).
  { rewrite HJ in H2. symmetry in H2.
    apply transform_jacobian_coords in H2. simpl in H2. exact H2. }
  subst y1.
  assert (Ed : map (map (grid_map (firstn 2))) (x1_of X1 Kj true) = x1_of X1 Kj false).
  { unfold x1_of. rewrite map_map_grid_map2. unfold grid_map2. apply map_ext. intros p.
    apply map_ext. intros q. rewrite grid_map_map. reflexivity. }
  exists (x1_of X1 Kj depth), (x1_of X1 Kj true). eexists _, vm', Ji, Jj, Jz.
  split; [exact H0|]. split; [exact H1|]. split; [exact HJ|]. split; [exact H3|].
  split.
  - destruct depth; [reflexivity|]. rewrite Ed.
    unfold x1_of. rewrite map_map_grid_map2. unfold grid_map2. apply map_ext. intros p.
    apply map_ext. intros q. rewrite grid_map_map. reflexivity.
  - intros ->. symmetry. exact Ed.
Qed.

End Flags.

Lemma transform_coords_flags_witness :
  wf_inputs [[Rigid.identity; Scene.turned]] [[Scene.patch3]] [[Scene.K1; Scene.K2]]
    [0%Z] [1%Z] [0%Z] /\
  wf_jacobian_inputs [[Rigid.identity; Scene.turned]] [[Scene.patch3]] /\
  matrix_4x4 Rigid.ops /\
  exists x1 vm vm' Ji Jj Jz,
    transform (L := Rigid.ops) [[Rigid.identity; Scene.turned]] [[Scene.patch3]]
      [[Scene.K1; Scene.K2]] [0%Z] [1%Z] [0%Z] false true false false
      = Ok (CoordsValid x1 vm) /\
    transform (L := Rigid.ops) [[Rigid.identity; Scene.turned]] [[Scene.patch3]]
      [[Scene.K1; Scene.K2]] [0%Z] [1%Z] [0%Z] false false true false
      = Ok (CoordsJac x1 vm' Ji Jj Jz).
Proof.
  assert (W : wf_inputs [[Rigid.identity; Scene.turned]] [[Scene.patch3]]
                [[Scene.K1; Scene.K2]] [0%Z] [1%Z] [0%Z]) by wf_by_evaluation.
  assert (WJ : wf_jacobian_inputs [[Rigid.identity; Scene.turned]] [[Scene.patch3]]).
  { constructor; [reflexivity|]. repeat constructor. eexists; reflexivity. }
  pose proof rigid_matrix_4x4 as HM.
  repeat (split; [assumption|]).
  destruct (transform_coords_flags (L := Rigid.ops) _ _ _ _ _ _ false false false W WJ HM)
    as (x1 & xd & vm & vm' & Ji & Jj & Jz & _ & H1 & H2 & _).
  exists x1, vm, vm', Ji, Jj, Jz. split; assumption.
Defined.

(** ** The two projections *)

Lemma proj_eq (X : list (list (grid hpoint))) (K : list (list intr)) (depth : bool) :
  shape2 X = shape2 K -> proj X K depth = Ok (x1_of X K depth).
Proof.
  intros H. unfold proj, x1_of.
  destruct depth; [apply bmap2_into_pure2 | apply bmap2_pure2]; exact H.
Qed.

Lemma at2_x1_of (X : list (list (grid hpoint))) (K : list (list intr)) (depth : bool)
    (b e r c : nat) (G : grid hpoint) (k : intr) (P : hpoint) :
  at2 X b e = Some G -> at2 K b e = Some k -> at2 G r c = Some P ->
  exists Go,
    at2 (x1_of X K depth) b e = Some Go /\ at2 Go r c = Some (proj_pt P k depth).
Proof.
  intros HG Hk HP. eexists. split.
  - exact (at2_grid_map2 (fun G K => grid_map (fun P => proj_pt P K depth) G) _ _ _ _ _ _ HG Hk).
  - rewrite at2_grid_map, HP. reflexivity.
Qed.

Lemma clamp_min_floor (z : Q) : z <= 1 # 10 -> clamp_min z (1 # 10) == 1 # 10.
Proof.
  intros Hz. unfold clamp_min. destruct (Qltb z (1 # 10)) eqn:E; [reflexivity|].
  apply Qltb_ge in E. lra.
Qed.

(** At or below the floor [proj] uses the depth term 10. *)
Lemma proj_pt_floor (P : hpoint) (k : intr) (depth : bool) :
  hZ P <= 1 # 10 ->
  vec_eq (proj_pt P k depth)
    (let x := fx k * (10 * hX P) + cx k in
     let y := fy k * (10 * hY P) + cy k in
     if depth then [x; y; 10] else [x; y]).
Proof.
  intros Hz. pose proof (clamp_min_floor _ Hz) as E. unfold proj_pt, vec_eq. cbv zeta.
  destruct depth; repeat constructor; rewrite E; reflexivity.
Qed.

(** At or above the floor [proj] is the pinhole projection. *)
Lemma proj_pt_pinhole (P : hpoint) (k : intr) (depth : bool) :
  1 # 10 <= hZ P ->
  vec_eq (proj_pt P k depth)
    (let x := fx k * (hX P / hZ P) + cx k in
     let y := fy k * (hY P / hZ P) + cy k in
     if depth then [x; y; 1 / hZ P] else [x; y]).
Proof.
  intros Hz. unfold proj_pt, vec_eq. cbv zeta. rewrite (clamp_min_above _ _ Hz).
  destruct depth; repeat constructor; try reflexivity; field; lra.
Qed.

(** X5.  [proj] on operands of one shape raises nothing; it is the
    pinhole projection (fx X/Z + cx, fy Y/Z + cy, and 1/Z with [depth])
    of every point with Z >= 0.1, and it projects every point with
    Z <= 0.1, whatever its Z, with the depth term 10. *)
Theorem proj_clamps_at_floor (X : list (list (grid hpoint))) (K : list (list intr))
    (depth : bool) :
  shape2 X = shape2 K ->
  exists out,
    proj X K depth = Ok out /\ shape2 out = shape2 X /\
    forall b e G k r c P,
      at2 X b e = Some G -> at2 K b e = Some k -> at2 G r c = Some P ->
      exists Go pix,
        at2 out b e = Some Go /\ at2 Go r c = Some pix /\
        (1 # 10 <= hZ P ->
         vec_eq pix (let x := fx k * (hX P / hZ P) + cx k in
                     let y := fy k * (hY P / hZ P) + cy k in
                     if depth then [x; y; 1 / hZ P] else [x; y])) /\
        (hZ P <= 1 # 10 ->
         vec_eq pix (let x := fx k * (10 * hX P) + cx k in
                     let y := fy k * (10 * hY P) + cy k in
                     if depth then [x; y; 10] else [x; y])).
Proof.
  intros H. exists (x1_of X K depth). split; [apply proj_eq; exact H|].
  split; [unfold x1_of; apply shape2_grid_map2; exact H|].
  intros b e G k r c P HG Hk HP.
  destruct (at2_x1_of X K depth b e r c G k P HG Hk HP) as (Go & AG & AP).
  exists Go, (proj_pt P k depth). split; [exact AG|]. split; [exact AP|].
  split; [apply proj_pt_pinhole | apply proj_pt_floor].
Qed.

Lemma proj_clamps_at_floor_witness :
  shape2 [[ [[ {| hX := 1; hY := 2; hZ := 0; hW := 1 |} ]] ]] = shape2 [[Scene.K2]] /\
  exists out,
    proj [[ [[ {| hX := 1; hY := 2; hZ := 0; hW := 1 |} ]] ]] [[Scene.K2]] true = Ok out.
Proof.
  assert (H : shape2 [[ [[ {| hX := 1; hY := 2; hZ := 0; hW := 1 |} ]] ]] = shape2 [[Scene.K2]])
    by reflexivity.
  split; [exact H|].
  destruct (proj_clamps_at_floor _ _ true H) as (out & Ho & _). exists out. exact Ho.
Defined.

Lemma proj_disps_eq (X : list (list (grid hpoint))) (K : list (list intr))
    (jacobian return_depth : bool) :
  shape2 X = shape2 K ->
  proj_disps X K jacobian return_depth =
    Ok (grid_map2 (fun G k => grid_map (fun P => proj_disps_pt P k return_depth) G) X K,
        if jacobian
        then Some (grid_map2 (fun G k => grid_map (fun P => proj_disps_jac P k) G) X K)
        else None).
Proof.
  intros H. unfold proj_disps.
  assert (E : (if return_depth
               then bmap2_into (bmap2_into
                      (fun G k => Ok (grid_map (fun P => proj_disps_pt P k return_depth) G))) X K
               else bmap2 (bmap2
                      (fun G k => Ok (grid_map (fun P => proj_disps_pt P k return_depth) G))) X K)
              = Ok (grid_map2 (fun G k => grid_map (fun P => proj_disps_pt P k return_depth) G)
                      X K)).
  { destruct return_depth; [apply bmap2_into_pure2 | apply bmap2_pure2]; exact H. }
  rewrite E. cbn [bind]. destruct jacobian; [|reflexivity].
  rewrite (bmap2_into_pure2 (fun G k => grid_map (fun P => proj_disps_jac P k) G)) by exact H.
  reflexivity.
Qed.

Lemma proj_disps_pt_above (P : hpoint) (k : intr) :
  1 # 10 <= hZ P -> vec_eq (proj_disps_pt P k false) (proj_pt P k false).
Proof.
  intros Hz. unfold proj_disps_pt, proj_pt, vec_eq, MIN_DEPTH.
  replace (Qltb (hZ P) ((5 # 10) * (2 # 10))) with false
    by (symmetry; apply Qltb_ge; lra).
  rewrite (clamp_min_above _ _ Hz). repeat constructor; ring.
Qed.

Lemma proj_disps_pt_below (P : hpoint) (k : intr) :
  hZ P < 1 # 10 ->
  vec_eq (proj_disps_pt P k false) [fx k * hX P + cx k; fy k * hY P + cy k].
Proof.
  intros Hz. unfold proj_disps_pt, vec_eq, MIN_DEPTH.
  replace (Qltb (hZ P) ((5 # 10) * (2 # 10))) with true
    by (symmetry; apply Qltb_lt; lra).
  repeat constructor; field.
Qed.

(** X6.  [proj_disps] and [proj] agree on every point with Z >= 0.1.
    Below 0.1 they differ: [proj_disps] projects the point as if its Z
    were 1, to (fx X + cx, fy Y + cy), where [proj] uses the depth term
    10.  Without [jacobian] the second component that [proj_disps]
    returns is [None]. *)
Theorem proj_disps_and_proj (X : list (list (grid hpoint))) (K : list (list intr)) :
  shape2 X = shape2 K ->
  exists out out',
    proj X K false = Ok out /\ proj_disps X K false false = Ok (out', None) /\
    forall b e G k r c P,
      at2 X b e = Some G -> at2 K b e = Some k -> at2 G r c = Some P ->
      exists Go Go' pix pix',
        at2 out b e = Some Go /\ at2 Go r c = Some pix /\
        at2 out' b e = Some Go' /\ at2 Go' r c = Some pix' /\
        (1 # 10 <= hZ P -> vec_eq pix' pix) /\
        (hZ P < 1 # 10 ->
         vec_eq pix' [fx k * hX P + cx k; fy k * hY P + cy k] /\
         vec_eq pix [fx k * (10 * hX P) + cx k; fy k * (10 * hY P) + cy k]).
Proof.
  intros H. eexists _, _. split; [apply proj_eq; exact H|].
  split; [apply (proj_disps_eq X K false false H)|].
  intros b e G k r c P HG Hk HP.
  destruct (at2_x1_of X K false b e r c G k P HG Hk HP) as (Go & AG & AP).
  exists Go. eexists _, (proj_pt P k false), (proj_disps_pt P k false).
  split; [exact AG|]. split; [exact AP|].
  split.
  { exact (at2_grid_map2 (fun G k => grid_map (fun P => proj_disps_pt P k false) G)
             _ _ _ _ _ _ HG Hk). }
  split; [rewrite at2_grid_map, HP; reflexivity|].
  split; [apply proj_disps_pt_above|].
  intros Hz. split; [apply proj_disps_pt_below; exact Hz|].
  apply (proj_pt_floor P k false). lra.
Qed.

Lemma proj_disps_and_proj_witness :
  shape2 [[ [[ {| hX := 1; hY := 2; hZ := 0; hW := 1 |} ]] ]] = shape2 [[Scene.K2]] /\
  exists out out',
    proj [[ [[ {| hX := 1; hY := 2; hZ := 0; hW := 1 |} ]] ]] [[Scene.K2]] false = Ok out /\
    proj_disps [[ [[ {| hX := 1; hY := 2; hZ := 0; hW := 1 |} ]] ]] [[Scene.K2]] false false
      = Ok (out', None) /\
    out <> out'.
Proof.
  assert (H : shape2 [[ [[ {| hX := 1; hY := 2; hZ := 0; hW := 1 |} ]] ]] = shape2 [[Scene.K2]])
    by reflexivity.
  split; [exact H|].
  destruct (proj_disps_and_proj _ _ H) as (out & out' & Ho & Ho' & _).
  exists out, out'. split; [exact Ho|]. split; [exact Ho'|].
  intros E. subst out'. vm_compute in Ho, Ho'. injection Ho as E1. injection Ho' as E2.
  rewrite <- E1 in E2. discriminate E2.
Defined.

(** ** The Jacobian of [proj_disps] *)

Lemma inverse_remainder_near (a b c z h : Q) :
  1 # 10 < z -> Qabs h < z - (1 # 10) ->
  Qabs ((a * (b * (1 / (z + h))) + c) - (a * (b * (1 / z)) + c)
        - ((- a) * b * (1 / z) * (1 / z)) * h)
    <= (Qabs (a * b) * (10 * ((1 / z) * (1 / z)))) * (h * h).
Proof.
  intros Hz Hh. apply Qabs_Qlt_condition in Hh. destruct Hh as [Hh1 Hh2].
  assert (Z0 : ~ z == 0) by lra. assert (Z1 : ~ z + h == 0) by lra.
  assert (Hu : Qabs (1 / (z + h)) <= 10).
  { rewrite Qabs_pos.
    - apply Qle_shift_div_r; lra.
    - apply Qle_shift_div_l; lra. }
  assert (E : (a * (b * (1 / (z + h))) + c) - (a * (b * (1 / z)) + c)
              - ((- a) * b * (1 / z) * (1 / z)) * h
              == (a * b) * ((h * h) * ((1 / z) * (1 / z)) * (1 / (z + h)))) by (field; auto).
  assert (S0 : 0 <= h * h) by nra.
  assert (W0 : 0 <= (1 / z) * (1 / z)) by nra.
  assert (SW : 0 <= (h * h) * ((1 / z) * (1 / z))) by nra.
  rewrite E. clear E.
  set (s := h * h) in *. set (w := 1 / z * (1 / z)) in *. set (v := 1 / (z + h)) in *.
  rewrite (Qabs_Qmult (a * b)), (Qabs_Qmult (s * w)), (Qabs_pos (s * w)) by exact SW.
  set (A := Qabs (a * b)).
  assert (A0 : 0 <= A) by apply Qabs_nonneg.
  set (u := Qabs v) in *.
  assert (U0 : 0 <= u) by apply Qabs_nonneg.
  assert (ASW : 0 <= A * (s * w)) by nra.
  nra.
Qed.

Lemma is_derivative_inverse_near (f : Q -> Q) (a b c z : Q) :
  1 # 10 < z ->
  (forall h, Qabs h < z - (1 # 10) -> f (z + h) = a * (b * (1 / (z + h))) + c) ->
  f z = a * (b * (1 / z)) + c ->
  is_derivative f z ((- a) * b * (1 / z) * (1 / z)).
Proof.
  intros Hz Hf Hfz. exists (Qabs (a * b) * (10 * ((1 / z) * (1 / z)))), (z - (1 # 10)).
  split; [lra|]. intros h Hh. rewrite (Hf h Hh), Hfz. apply inverse_remainder_near; assumption.
Qed.

Lemma proj_disps_threshold (z : Q) :
  1 # 10 <= z -> Qltb z ((5 # 10) * MIN_DEPTH) = false.
Proof. intros H. apply Qltb_ge. unfold MIN_DEPTH. lra. Qed.

(** Where Z > 0.1 the matrix of [proj_disps] is the derivative of the
    coordinates it returns. *)
Lemma proj_disps_jac_derivative (P : hpoint) (k : intr) (r c : nat) :
  1 # 10 < hZ P -> (r < 2)%nat -> (c < 4)%nat ->
  is_derivative (fun v => nth r (proj_disps_pt (with_coord c P v) k false) 0) (coord c P)
    (entry (proj_disps_jac P k) r c).
Proof.
  intros Hz Hr Hc.
  assert (T : Qltb (hZ P) ((5 # 10) * MIN_DEPTH) = false) by (apply proj_disps_threshold; lra).
  unfold entry, proj_disps_jac. rewrite T.
  destruct r as [|[|r]]; [| |lia];
    (destruct c as [|[|[|[|c]]]]; [| | | |lia]); unfold coord, proj_disps_pt; simpl;
    try (rewrite ?T; apply is_derivative_exact; intros h; ring).
  - apply (is_derivative_inverse_near _ (fx k) (hX P) (cx k)); [exact Hz | | rewrite T; reflexivity].
    intros h Hh. apply Qabs_Qlt_condition in Hh.
    rewrite proj_disps_threshold by lra. reflexivity.
  - apply (is_derivative_inverse_near _ (fy k) (hY P) (cy k)); [exact Hz | | rewrite T; reflexivity].
    intros h Hh. apply Qabs_Qlt_condition in Hh.
    rewrite proj_disps_threshold by lra. reflexivity.
Qed.

Lemma proj_disps_jac_is_Jp (P : hpoint) (k : intr) :
  2 # 10 < hZ P -> proj_disps_jac P k = Jp_of P k.
Proof.
  intros Hz. unfold proj_disps_jac, Jp_of.
  rewrite proj_disps_threshold by lra. rewrite (jac_d_inverse _ (Qabs_above _ Hz)). reflexivity.
Qed.

(** X7.  With [jacobian], [proj_disps] on operands of one shape returns
    a 2 x 4 matrix for every point.  Where Z > 0.1 its entries are the
    partial derivatives of the two returned coordinates with respect to
    the four coordinates of the point, and where Z > 0.2 it is the matrix
    [Jp] of [transform]. *)
Theorem proj_disps_jacobian (X : list (list (grid hpoint))) (K : list (list intr))
    (return_depth : bool) :
  shape2 X = shape2 K ->
  exists out jac,
    proj_disps X K true return_depth = Ok (out, Some jac) /\
    forall b e G k r c P,
      at2 X b e = Some G -> at2 K b e = Some k -> at2 G r c = Some P ->
      exists Gj J,
        at2 jac b e = Some Gj /\ at2 Gj r c = Some J /\
        length J = 2%nat /\ Forall (fun row => length row = 4%nat) J /\
        (1 # 10 < hZ P ->
         forall m n, (m < 2)%nat -> (n < 4)%nat ->
           is_derivative (fun v => nth m (proj_disps_pt (with_coord n P v) k false) 0)
             (coord n P) (entry J m n)) /\
        (2 # 10 < hZ P -> J = Jp_of P k).
Proof.
  intros H. eexists _, _. split; [apply (proj_disps_eq X K true return_depth H)|].
  intros b e G k r c P HG Hk HP.
  eexists _, (proj_disps_jac P k). split.
  { exact (at2_grid_map2 (fun G k => grid_map (fun P => proj_disps_jac P k) G)
             _ _ _ _ _ _ HG Hk). }
  split; [rewrite at2_grid_map, HP; reflexivity|].
  split; [reflexivity|]. split; [repeat constructor|].
  split.
  - intros Hz m n Hm Hn. apply proj_disps_jac_derivative; assumption.
  - apply proj_disps_jac_is_Jp.
Qed.

Lemma proj_disps_jacobian_witness :
  shape2 [[ [[ {| hX := 1; hY := 2; hZ := 1; hW := 1 |} ]] ]] = shape2 [[Scene.K2]] /\
  exists out jac,
    proj_disps [[ [[ {| hX := 1; hY := 2; hZ := 1; hW := 1 |} ]] ]] [[Scene.K2]] true true
      = Ok (out, Some jac).
Proof.
  assert (H : shape2 [[ [[ {| hX := 1; hY := 2; hZ := 1; hW := 1 |} ]] ]] = shape2 [[Scene.K2]])
    by reflexivity.
  split; [exact H|].
  destruct (proj_disps_jacobian _ _ true H) as (out & jac & Ho & _). exists out, jac. exact Ho.
Defined.

(** ** Jacobians of points near the camera *)

Lemma Jj_flat (P : hpoint) (k : intr) :
  Qabs (hZ P) <= 2 # 10 ->
  mat_eq (mat_product (Jp_of P k) (Ja_of P))
    [[0; 0; 0; 0; 0; 0]; [0; 0; 0; 0; 0; 0]].
Proof.
  intros Hz. unfold Jp_of. rewrite (jac_d_flat _ Hz).
  unfold mat_eq, mat_product, Ja_of, dot, column. simpl. repeat constructor; ring.
Qed.

Lemma Jz_flat (P : hpoint) (k : intr) (M : matrix) :
  length M = 4%nat -> Forall (fun r => length r = 4%nat) M ->
  Qabs (hZ P) <= 2 # 10 ->
  mat_eq (mat_product (Jp_of P k) (map (skipn 3) M)) [[0]; [0]].
Proof.
  intros HM HR Hz. unfold Jp_of. rewrite (jac_d_flat _ Hz).
  destruct (list4 M HM) as (r0 & r1 & r2 & r3 & ->).
  inversion HR as [|? ? H0 HR1]; subst. inversion HR1 as [|? ? H1 HR2]; subst.
  inversion HR2 as [|? ? H2 HR3]; subst. inversion HR3 as [|? ? H3 _]; subst.
  destruct (list4 _ H0) as (? & ? & ? & ? & ->). destruct (list4 _ H1) as (? & ? & ? & ? & ->).
  destruct (list4 _ H2) as (? & ? & ? & ? & ->). destruct (list4 _ H3) as (? & ? & ? & ? & ->).
  unfold mat_eq, mat_product, dot, column. simpl. repeat constructor; ring.
Qed.

Lemma Jz_size (P : hpoint) (k : intr) (M : matrix) :
  length M = 4%nat -> Forall (fun r => length r = 4%nat) M ->
  Forall (fun row => length row = 1%nat) (mat_product (Jp_of P k) (map (skipn 3) M)).
Proof.
  intros HM HR. destruct (list4 M HM) as (r0 & r1 & r2 & r3 & ->).
  inversion HR as [|? ? H0 _]; subst. destruct (list4 _ H0) as (? & ? & ? & ? & ->).
  repeat constructor.
Qed.

Section NearCamera.

Context {L : LieOps}.

(** X8.  For every edge the Jacobian path returns a 2 x 6 block [Jj] and
    a 2 x 1 block [Jz].  When the transformed center point of the patch
    has |Z| <= 0.2, both blocks are zero and the validity flag of the
    edge is 0; an edge whose flag is 1 has Z > 0.2. *)
Theorem jacobians_vanish_near_camera (poses : list (list SE3)) (patches : list (list patch))
    (intrinsics : list (list intr)) (ii jj kk : list Z) (depth valid tonly : bool) :
  wf_inputs poses patches intrinsics ii jj kk ->
  wf_jacobian_inputs poses patches ->
  matrix_4x4 L ->
  exists x1 vm Ji Jj Jz,
    transform poses patches intrinsics ii jj kk depth valid true tonly
      = Ok (CoordsJac x1 vm Ji Jj Jz) /\
    forall b e Gb Pb Kb i j k,
      nth_error poses b = Some Gb -> nth_error patches b = Some Pb ->
      nth_error intrinsics b = Some Kb ->
      nth_error ii e = Some i -> nth_error jj e = Some j -> nth_error kk e = Some k ->
      exists ed pc v JjE JzE,
        edge_of Gb Pb Kb i j k = Ok ed /\ center (e_src ed) = Ok pc /\
        at2 vm b e = Some v /\ at2 Jj b e = Some JjE /\ at2 Jz b e = Some JzE /\
        length JjE = 2%nat /\ Forall (fun row => length row = 6%nat) JjE /\
        length JzE = 2%nat /\ Forall (fun row => length row = 1%nat) JzE /\
        let X := lie_act (edge_Gij ed tonly) (iproj_pt pc (e_Ki ed)) in
        (Qabs (hZ X) <= 2 # 10 ->
         v = 0 /\
         mat_eq JjE [[0; 0; 0; 0; 0; 0]; [0; 0; 0; 0; 0; 0]] /\
         mat_eq JzE [[0]; [0]]) /\
        (v = 1 -> 2 # 10 < hZ X).
Proof.
  intros W WJ HM.
  destruct (transform_jacobian_spec poses patches intrinsics ii jj kk depth valid tonly W WJ HM)
    as (x1 & vm & Ji & Jj & Jz & Ht & _ & _ & _ & _ & Hedge).
  exists x1, vm, Ji, Jj, Jz. split; [exact Ht|].
  intros b e Gb Pb Kb i j k HG HP HK Hi Hj Hk.
  destruct (Hedge b e Gb Pb Kb i j k HG HP HK Hi Hj Hk)
    as (ed & pc & Hed & Hpc & _ & Av & AJj & _ & AJz).
  cbv zeta in Av, AJj, AJz.
  destruct (HM (edge_Gij ed tonly)) as (HM4 & HR4).
  eexists ed, pc, _, _, _. split; [exact Hed|]. split; [exact Hpc|].
  split; [exact Av|]. split; [exact AJj|]. split; [exact AJz|].
  split; [reflexivity|]. split; [repeat constructor|].
  split; [reflexivity|]. split; [apply Jz_size; assumption|].
  cbv zeta. split.
  - intros Hz. split; [|split].
    + apply valid_flag_false. apply Qabs_Qle_condition in Hz. exact (proj2 Hz).
    + apply Jj_flat. exact Hz.
    + apply Jz_flat; assumption.
  - intros Hv. apply valid_flag_true. exact Hv.
Qed.

End NearCamera.

Lemma jacobians_vanish_near_camera_witness :
  wf_inputs [[Rigid.identity; Scene.backward1]] [[Scene.patch3]] [[Scene.K1; Scene.K2]]
    [0%Z] [1%Z] [0%Z] /\
  wf_jacobian_inputs [[Rigid.identity; Scene.backward1]] [[Scene.patch3]] /\
  matrix_4x4 Rigid.ops /\
  exists x1 Ji Jj Jz,
    transform (L := Rigid.ops) [[Rigid.identity; Scene.backward1]] [[Scene.patch3]]
      [[Scene.K1; Scene.K2]] [0%Z] [1%Z] [0%Z] false false true false
      = Ok (CoordsJac x1 [[0]] Ji Jj Jz).
Proof.
  assert (W : wf_inputs [[Rigid.identity; Scene.backward1]] [[Scene.patch3]]
                [[Scene.K1; Scene.K2]] [0%Z] [1%Z] [0%Z]) by wf_by_evaluation.
  assert (WJ : wf_jacobian_inputs [[Rigid.identity; Scene.backward1]] [[Scene.patch3]]).
  { constructor; [reflexivity|]. repeat constructor. eexists; reflexivity. }
  pose proof rigid_matrix_4x4 as HM.
  repeat (split; [assumption|]).
  destruct (jacobians_vanish_near_camera (L := Rigid.ops) _ _ _ _ _ _ false false false W WJ HM)
    as (x1 & vm & Ji & Jj & Jz & H & _).
  exists x1, Ji, Jj, Jz. rewrite H. vm_compute in H. injection H as _ Hv _ _ _.
  rewrite <- Hv. reflexivity.
Defined.

(** ** The dense path, grid by grid *)

Section DenseGrids.

Context {L : LieOps}.

(** The relative pose that [projective_transform] applies on an edge. *)
Let dense_pose (ed : edge_data (grid Q)) (i j : Z) : SE3 :=
  if Z.eqb i j then self_edge_pose else lie_mul (e_Gj ed) (lie_inv (e_Gi ed)).

Lemma projective_transform_grids (poses : list (list SE3)) (depths : list (list (grid Q)))
    (intrinsics : list (list intr)) (ii jj : list Z) :
  wf_inputs poses depths intrinsics ii jj ii ->
  exists x1 valid,
    projective_transform poses depths intrinsics ii jj = Ok (x1, valid) /\
    induced_flow poses depths intrinsics ii jj
      = Ok (map (map (grid_imap (fun r c v =>
              vsub (firstn 2 v) [inject_Z (Z.of_nat c); inject_Z (Z.of_nat r)]))) x1, valid) /\
    forall b e Gb Db Kb i j,
      nth_error poses b = Some Gb -> nth_error depths b = Some Db ->
      nth_error intrinsics b = Some Kb ->
      nth_error ii e = Some i -> nth_error jj e = Some j ->
      exists ed,
        edge_of Gb Db Kb i j i = Ok ed /\
        let X0 := grid_imap (fun r c v => iproj_disps_pt r c v (e_Ki ed)) (e_src ed) in
        let X1 := grid_map (lie_act (dense_pose ed i j)) X0 in
        at2 x1 b e = Some (grid_map (fun P => proj_pt P (e_Kj ed) false) X1) /\
        at2 valid b e = Some (grid_map (fun v => [v]) (grid_map2 dense_flag X1 X0)).
Proof.
  intros W.
  destruct (gathers_ok _ _ _ _ _ _ W)
    as (Di & Ki & Kj & Gi & Gj & HDi & HKi & HKj & HGi & HGj & S).
  simpl in S. destruct S as (SD & SKi & SKj & SGi & SGj).
  set (sh := repeat (length ii) (length poses)) in *.
  pose proof (wf_len_jj _ _ _ _ _ _ W) as Hlen.
  set (X0 := X0_dense_of Di Ki).
  set (G0 := Gij_of Gj Gi false).
  set (mask := mask_of ii jj).
  set (G1 := masked G0 mask self_edge_pose).
  set (X1 := X1_of G1 X0).
  set (x1 := x1_of X1 Kj false).
  set (vt := grid_map2 (grid_map2 dense_flag) X1 X0).
  assert (S0 : shape2 X0 = sh) by (unfold X0, X0_dense_of; rewrite shape2_grid_map2; shapes).
  assert (SG0 : shape2 G0 = sh) by (unfold G0; rewrite shape2_Gij_of; shapes).
  assert (Hrows : Forall (fun row => length row = length mask) G0).
  { unfold mask. rewrite length_mask_of by (symmetry; exact Hlen).
    eapply shape2_repeat_rows. exact SG0. }
  assert (SG1 : shape2 G1 = sh) by (unfold G1; rewrite shape2_masked; assumption).
  assert (S1 : shape2 X1 = sh) by (unfold X1, X1_of; rewrite shape2_grid_map2; shapes).
  assert (Ht : projective_transform poses depths intrinsics ii jj
               = Ok (x1, map (map (grid_map (fun v => [v]))) vt)).
  { unfold projective_transform. rewrite HDi, HKi. cbn [bind].
    unfold iproj_disps.
    rewrite (smap2_pure2 (fun D K => grid_imap (fun r c v => iproj_disps_pt r c v K) D))
      by shapes.
    cbn [bind]. fold (X0_dense_of Di Ki). fold X0. rewrite HGj, HGi. cbn [bind].
    unfold relative_pose.
    rewrite (bmap2_pure2 (fun gj gi => lie_mul gj (lie_inv gi))) by shapes. cbn [bind].
    fold (Gij_of Gj Gi false). fold G0.
    rewrite (mask_eq ii jj) by (symmetry; exact Hlen). cbn [bind]. fold mask.
    rewrite (assign_masked_eq _ _ _ Hrows). cbn [bind]. fold G1.
    unfold act_grids. rewrite (bmap2_pure2 (fun g P => grid_map (lie_act g) P)) by shapes.
    cbn [bind]. fold (X1_of G1 X0). fold X1. rewrite HKj. cbn [bind].
    rewrite (proj_eq X1 Kj false) by shapes. cbn [bind]. fold x1.
    rewrite (tmap2_eq (fun P1 P0 => to_float (Qltb MIN_DEPTH (hZ P1) && Qltb MIN_DEPTH (hZ P0))))
      by shapes.
    reflexivity. }
  exists x1, (map (map (grid_map (fun v => [v]))) vt). split; [exact Ht|].
  split; [unfold induced_flow; rewrite Ht; reflexivity|].
  intros b e Gb Db Kb i j HG HD HK Hi Hj.
  destruct (edge_of_ok _ _ _ _ _ _ _ _ _ _ _ _ _ _ W HG HD HK Hi Hj Hi) as (ed & Hed).
  destruct (edge_of_inv _ _ _ _ _ _ _ Hed) as (Es & EKi & EKj & EGi & EGj).
  pose proof (gathered_at _ _ _ _ _ _ _ _ HDi HD Hi Es) as AD.
  pose proof (gathered_at _ _ _ _ _ _ _ _ HKi HK Hi EKi) as AKi.
  pose proof (gathered_at _ _ _ _ _ _ _ _ HKj HK Hj EKj) as AKj.
  pose proof (gathered_at _ _ _ _ _ _ _ _ HGi HG Hi EGi) as AGi.
  pose proof (gathered_at _ _ _ _ _ _ _ _ HGj HG Hj EGj) as AGj.
  assert (AG1 : at2 G1 b e = Some (dense_pose ed i j)).
  { unfold G1, dense_pose. apply at2_masked; [|apply nth_error_mask_of; assumption].
    unfold G0. rewrite (at2_Gij_of _ _ false _ _ _ _ AGj AGi). reflexivity. }
  assert (A0 : at2 X0 b e
               = Some (grid_imap (fun r c v => iproj_disps_pt r c v (e_Ki ed)) (e_src ed))).
  { exact (at2_grid_map2 (fun D K => grid_imap (fun r c v => iproj_disps_pt r c v K) D)
             _ _ _ _ _ _ AD AKi). }
  assert (A1 : at2 X1 b e
               = Some (grid_map (lie_act (dense_pose ed i j))
                         (grid_imap (fun r c v => iproj_disps_pt r c v (e_Ki ed)) (e_src ed)))).
  { exact (at2_grid_map2 (fun g P => grid_map (lie_act g) P) _ _ _ _ _ _ AG1 A0). }
  exists ed. split; [exact Hed|]. cbv zeta. split.
  - exact (at2_grid_map2 (fun G K => grid_map (fun P => proj_pt P K false) G)
             _ _ _ _ _ _ A1 AKj).
  - rewrite at2_map_map. unfold vt.
    rewrite (at2_grid_map2 (grid_map2 dense_flag) _ _ _ _ _ _ A1 A0). reflexivity.
Qed.

(** X9.  [projective_transform] overwrites the relative pose of every
    edge from a frame to itself (equal entries of [ii] and [jj]) with a
    fixed pose, so on such an edge the returned coordinates and validity,
    and the flow of [induced_flow], do not depend on the pose buffer. *)
Theorem dense_self_edges_ignore_poses (poses poses' : list (list SE3))
    (depths : list (list (grid Q))) (intrinsics : list (list intr)) (ii jj : list Z) :
  wf_inputs poses depths intrinsics ii jj ii ->
  wf_inputs poses' depths intrinsics ii jj ii ->
  exists x1 valid flow x1' valid' flow',
    projective_transform poses depths intrinsics ii jj = Ok (x1, valid) /\
    projective_transform poses' depths intrinsics ii jj = Ok (x1', valid') /\
    induced_flow poses depths intrinsics ii jj = Ok (flow, valid) /\
    induced_flow poses' depths intrinsics ii jj = Ok (flow', valid') /\
    forall b e i, (b < length depths)%nat ->
      nth_error ii e = Some i -> nth_error jj e = Some i ->
      exists G V F,
        at2 x1 b e = Some G /\ at2 x1' b e = Some G /\
        at2 valid b e = Some V /\ at2 valid' b e = Some V /\
        at2 flow b e = Some F /\ at2 flow' b e = Some F.
Proof.
  intros W W'.
  destruct (projective_transform_grids poses depths intrinsics ii jj W)
    as (x1 & valid & Ht & Hf & Hedge).
  destruct (projective_transform_grids poses' depths intrinsics ii jj W')
    as (x1' & valid' & Ht' & Hf' & Hedge').
  eexists x1, valid, _, x1', valid', _. repeat (split; [eassumption|]).
  intros b e i Hb Hi Hj.
  destruct (nth_error_lt depths b Hb) as (Db & HD).
  destruct (nth_error_lt poses b ltac:(rewrite <- (wf_batch_patches _ _ _ _ _ _ W); lia))
    as (Gb & HG).
  destruct (nth_error_lt poses' b ltac:(rewrite <- (wf_batch_patches _ _ _ _ _ _ W'); lia))
    as (Gb' & HG').
  destruct (nth_error_lt intrinsics b
              ltac:(rewrite (wf_batch_intrinsics _ _ _ _ _ _ W),
                      <- (wf_batch_patches _ _ _ _ _ _ W); lia)) as (Kb & HK).
  destruct (Hedge b e Gb Db Kb i i HG HD HK Hi Hj) as (ed & Hed & Ax & Av).
  destruct (Hedge' b e Gb' Db Kb i i HG' HD HK Hi Hj) as (ed' & Hed' & Ax' & Av').
  destruct (edge_of_inv _ _ _ _ _ _ _ Hed) as (Es & EKi & EKj & _).
  destruct (edge_of_inv _ _ _ _ _ _ _ Hed') as (Es' & EKi' & EKj' & _).
  assert (Q1 : e_src ed' = e_src ed) by congruence.
  assert (Q2 : e_Ki ed' = e_Ki ed) by congruence.
  assert (Q3 : e_Kj ed' = e_Kj ed) by congruence.
  cbv zeta in Ax, Av, Ax', Av'. unfold dense_pose in *.
  rewrite Z.eqb_refl in Ax, Av, Ax', Av'. rewrite Q1, Q2, Q3 in Ax'.
  rewrite Q1, Q2 in Av'.
  eexists _, _, _. split; [exact Ax|]. split; [exact Ax'|].
  split; [exact Av|]. split; [exact Av'|].
  split; [rewrite at2_map_map, Ax; reflexivity | rewrite at2_map_map, Ax'; reflexivity].
Qed.

End DenseGrids.

Lemma dense_self_edges_ignore_poses_witness :
  wf_inputs [[Rigid.identity; Scene.backward1]] DenseScene.depths_one [[Scene.K1; Scene.K2]]
    [0%Z; 1%Z] [0%Z; 0%Z] [0%Z; 1%Z] /\
  wf_inputs [[Scene.turned; Scene.forward1]] DenseScene.depths_one [[Scene.K1; Scene.K2]]
    [0%Z; 1%Z] [0%Z; 0%Z] [0%Z; 1%Z] /\
  exists x1 valid x1' valid' G,
    projective_transform (L := Rigid.ops) [[Rigid.identity; Scene.backward1]]
      DenseScene.depths_one [[Scene.K1; Scene.K2]] [0%Z; 1%Z] [0%Z; 0%Z] = Ok (x1, valid) /\
    projective_transform (L := Rigid.ops) [[Scene.turned; Scene.forward1]]
      DenseScene.depths_one [[Scene.K1; Scene.K2]] [0%Z; 1%Z] [0%Z; 0%Z] = Ok (x1', valid') /\
    at2 x1 0 0 = Some G /\ at2 x1' 0 0 = Some G /\ at2 x1 0 1 <> at2 x1' 0 1.
Proof.
  assert (W : wf_inputs [[Rigid.identity; Scene.backward1]] DenseScene.depths_one
                [[Scene.K1; Scene.K2]] [0%Z; 1%Z] [0%Z; 0%Z] [0%Z; 1%Z]) by wf_by_evaluation.
  assert (W' : wf_inputs [[Scene.turned; Scene.forward1]] DenseScene.depths_one
                 [[Scene.K1; Scene.K2]] [0%Z; 1%Z] [0%Z; 0%Z] [0%Z; 1%Z]) by wf_by_evaluation.
  repeat (split; [assumption|]).
  destruct (dense_self_edges_ignore_poses (L := Rigid.ops) _ _ _ _ _ _ W W')
    as (x1 & valid & flow & x1' & valid' & flow' & H & H' & _ & _ & Hedge).
  destruct (Hedge 0%nat 0%nat 0%Z ltac:(simpl; lia) eq_refl eq_refl)
    as (G & V & F & A & A' & _).
  exists x1, valid, x1', valid', G. repeat (split; [assumption|]).
  vm_compute in H, H'. injection H as E1 _. injection H' as E2 _. subst x1 x1'.
  vm_compute. discriminate.
Defined.

(** ** The pixel grid and the induced flow *)






Section InducedFlow.

Context {L : LieOps}.


End InducedFlow.


(** ** Points with equal coordinates *)

Lemma Qltb_proper (a a' b b' : Q) : a == a' -> b == b' -> Qltb a b = Qltb a' b'.
Proof.
  intros Ha Hb. destruct (Qltb a' b') eqn:E.
  - apply Qltb_lt. apply Qltb_lt in E. lra.
  - apply Qltb_ge. apply Qltb_ge in E. lra.
Qed.

Lemma clamp_min_proper (z z' m : Q) : z == z' -> clamp_min z m == clamp_min z' m.
Proof.
  intros H. unfold clamp_min. rewrite (Qltb_proper z z' m m H (Qeq_refl m)).
  destruct (Qltb z' m); [reflexivity | exact H].
Qed.

Lemma proj_pt_proper (P P' : hpoint) (k : intr) (depth : bool) :
  hpoint_eq P P' -> vec_eq (proj_pt P k depth) (proj_pt P' k depth).
Proof.
  intros (HX & HY & HZ & _). pose proof (clamp_min_proper _ _ (1 # 10) HZ) as Hc.
  unfold proj_pt, vec_eq. destruct depth; repeat constructor; rewrite ?HX, ?HY, Hc; reflexivity.
Qed.

Lemma vsub_pair (a b c d : Q) : vsub [a; b] [c; d] = [a - c; b - d].
Proof. reflexivity. Qed.

Section SelfEdgeFlow.

Context {L : LieOps}.

(** X11.  In the dense path an edge from a frame to itself does not
    report zero flow.  When the pose written over such edges acts as the
    translation by (-0.1, 0, 0) and the focal lengths are not zero, the
    pixel in row r, column c with depth-map value v is reprojected to
    (c - 0.1 fx v, r), its flow is (-0.1 fx v, 0), and it is valid. *)
Theorem dense_self_edge_flow (poses : list (list SE3)) (depths : list (list (grid Q)))
    (intrinsics : list (list intr)) (ii jj : list Z) :
  wf_inputs poses depths intrinsics ii jj ii ->
  self_edge_pose_translates ->
  Forall (Forall (fun k => ~ fx k == 0 /\ ~ fy k == 0)) intrinsics ->
  exists x1 valid flow,
    projective_transform poses depths intrinsics ii jj = Ok (x1, valid) /\
    induced_flow poses depths intrinsics ii jj = Ok (flow, valid) /\
    forall b e Db Kb i, nth_error depths b = Some Db -> nth_error intrinsics b = Some Kb ->
      nth_error ii e = Some i -> nth_error jj e = Some i ->
      exists D k G V F,
        index Db i = Ok D /\ index Kb i = Ok k /\
        at2 x1 b e = Some G /\ at2 valid b e = Some V /\ at2 flow b e = Some F /\
        forall r c v, at2 D r c = Some v ->
          exists pix fl,
            at2 G r c = Some pix /\ at2 V r c = Some [1] /\ at2 F r c = Some fl /\
            vec_eq pix [inject_Z (Z.of_nat c) - (1 # 10) * fx k * v; inject_Z (Z.of_nat r)] /\
            vec_eq fl [- ((1 # 10) * fx k * v); 0].
Proof.
  intros W Hact HK.
  destruct (projective_transform_grids poses depths intrinsics ii jj W)
    as (x1 & valid & Ht & Hf & Hedge).
  eexists x1, valid, _. split; [exact Ht|]. split; [exact Hf|].
  intros b e Db Kb i HD HKb Hi Hj.
  destruct (nth_error_lt poses b) as (Gb & HG).
  { rewrite <- (wf_batch_patches _ _ _ _ _ _ W). apply nth_error_Some. congruence. }
  destruct (Hedge b e Gb Db Kb i i HG HD HKb Hi Hj) as (ed & Hed & Ax & Av).
  cbv zeta in Ax, Av. rewrite Z.eqb_refl in Ax, Av.
  destruct (edge_of_inv _ _ _ _ _ _ _ Hed) as (Es & EKi & EKj & _).
  assert (EK : e_Kj ed = e_Ki ed) by congruence. rewrite EK in Ax.
  assert (Hk : ~ fx (e_Ki ed) == 0 /\ ~ fy (e_Ki ed) == 0).
  { rewrite Forall_forall in HK. specialize (HK Kb (nth_error_In _ _ HKb)).
    rewrite Forall_forall in HK. apply HK. eapply index_In; eauto. }
  destruct Hk as (Hfx & Hfy).
  eexists (e_src ed), (e_Ki ed), _, _, _. split; [exact Es|]. split; [exact EKi|].
  split; [exact Ax|]. split; [exact Av|].
  split; [rewrite at2_map_map, Ax; reflexivity|].
  intros r c v Hv.
  set (k := e_Ki ed) in *. set (X0 := iproj_disps_pt r c v k).
  assert (A0 : at2 (grid_imap (fun r c v => iproj_disps_pt r c v k) (e_src ed)) r c = Some X0).
  { rewrite at2_grid_imap, Hv. reflexivity. }
  assert (A1 : at2 (grid_map (lie_act self_edge_pose)
                      (grid_imap (fun r c v => iproj_disps_pt r c v k) (e_src ed))) r c
               = Some (lie_act self_edge_pose X0)).
  { rewrite at2_grid_map, A0. reflexivity. }
  assert (AP : at2 (grid_map (fun P => proj_pt P k false)
                      (grid_map (lie_act self_edge_pose)
                         (grid_imap (fun r c v => iproj_disps_pt r c v k) (e_src ed)))) r c
               = Some (proj_pt (lie_act self_edge_pose X0) k false)).
  { rewrite at2_grid_map, A1. reflexivity. }
  pose proof (Hact X0) as HX. destruct HX as (HX1 & HY1 & HZ1 & HW1).
  simpl in HX1, HY1, HZ1, HW1.
  assert (Hc : clamp_min (hZ (lie_act self_edge_pose X0)) (1 # 10) == 1).
  { rewrite (clamp_min_proper _ 1 (1 # 10) HZ1). reflexivity. }
  assert (Epix : vec_eq (proj_pt (lie_act self_edge_pose X0) k false)
                   [inject_Z (Z.of_nat c) - (1 # 10) * fx k * v; inject_Z (Z.of_nat r)]).
  { unfold proj_pt, vec_eq. repeat constructor; rewrite Hc, ?HX1, ?HY1; field; assumption. }
  exists (proj_pt (lie_act self_edge_pose X0) k false).
  eexists. split; [exact AP|]. split.
  { rewrite at2_grid_map, (at2_grid_map2_grid dense_flag _ _ _ _ _ _ A1 A0). cbn [option_map].
    do 2 f_equal. unfold dense_flag, MIN_DEPTH.
    rewrite (Qltb_proper (2 # 10) (2 # 10) _ 1 (Qeq_refl _) HZ1). reflexivity. }
  split; [rewrite at2_grid_imap, AP; reflexivity|].
  split; [exact Epix|].
  unfold proj_pt in *. cbn [firstn]. rewrite vsub_pair. unfold vec_eq in *.
  apply Forall2_cons_iff in Epix as (E1 & Epix). apply Forall2_cons_iff in Epix as (E2 & _).
  apply Forall2_cons; [rewrite E1; ring|]. apply Forall2_cons; [rewrite E2; ring|]. constructor.
Qed.

End SelfEdgeFlow.

Lemma rigid_self_edge_pose_translates : self_edge_pose_translates (L := Rigid.ops).
Proof.
  intros P. unfold hpoint_eq. simpl. unfold dot. simpl. repeat split; ring.
Qed.

Lemma dense_self_edge_flow_witness :
  wf_inputs [[Rigid.identity; Scene.turned]] DenseScene.depths_one [[Scene.K1; Scene.K2]]
    [0%Z; 1%Z] [0%Z; 1%Z] [0%Z; 1%Z] /\
  self_edge_pose_translates (L := Rigid.ops) /\
  Forall (Forall (fun k => ~ fx k == 0 /\ ~ fy k == 0)) [[Scene.K1; Scene.K2]] /\
  exists x1 valid flow,
    projective_transform (L := Rigid.ops) [[Rigid.identity; Scene.turned]]
      DenseScene.depths_one [[Scene.K1; Scene.K2]] [0%Z; 1%Z] [0%Z; 1%Z] = Ok (x1, valid) /\
    induced_flow (L := Rigid.ops) [[Rigid.identity; Scene.turned]]
      DenseScene.depths_one [[Scene.K1; Scene.K2]] [0%Z; 1%Z] [0%Z; 1%Z] = Ok (flow, valid).
Proof.
  assert (W : wf_inputs [[Rigid.identity; Scene.turned]] DenseScene.depths_one
                [[Scene.K1; Scene.K2]] [0%Z; 1%Z] [0%Z; 1%Z] [0%Z; 1%Z]) by wf_by_evaluation.
  pose proof rigid_self_edge_pose_translates as HA.
  assert (HK : Forall (Forall (fun k => ~ fx k == 0 /\ ~ fy k == 0)) [[Scene.K1; Scene.K2]]).
  { repeat constructor; simpl; intros H; discriminate H. }
  repeat (split; [assumption|]).
  destruct (dense_self_edge_flow (L := Rigid.ops) _ _ _ _ _ W HA HK)
    as (x1 & valid & flow & H & H' & _).
  exists x1, valid, flow. split; assumption.
Defined.

(** ** The blend of the flow magnitudes *)

Section FlowBlend.

Context {L : LieOps}.

Variable norm : list Q -> Q.



End FlowBlend.


(** ** The point cloud and its reprojection *)

Lemma index_position {A : Type} (l : list A) (i : Z) (a : A) :
  index l i = Ok a -> nth_error l (position (length l) i) = Some a.
Proof.
  unfold index, position.
  destruct ((0 <=? i) && (i <? Z.of_nat (length l)))%Z eqn:E1.
  - apply andb_prop in E1 as [E1 _]. rewrite E1.
    destruct (nth_error l (Z.to_nat i)); [|discriminate]. intros H; inversion H; reflexivity.
  - destruct ((- Z.of_nat (length l) <=? i) && (i <? 0))%Z eqn:E2; [|discriminate].
    apply andb_prop in E2 as [_ E3]. apply Z.ltb_lt in E3.
    destruct (0 <=? i)%Z eqn:E4; [apply Z.leb_le in E4; lia|].
    destruct (nth_error l (Z.to_nat (i + Z.of_nat (length l)))); [|discriminate].
    intros H; inversion H; reflexivity.
Qed.

Lemma shape2_rows {A : Type} (t : list (list A)) (n : nat) :
  Forall (fun row => length row = n) t -> shape2 t = repeat n (length t).
Proof.
  induction 1 as [|row t H _ IH]; [reflexivity|]. simpl. rewrite H, IH. reflexivity.
Qed.

Section PointCloudSpec.

Context {L : LieOps}.

(** The entries of [point_cloud]. *)
Lemma point_cloud_entries (poses : list (list SE3)) (patches : list (list patch))
    (intrinsics : list (list intr)) (ix : list Z) :
  length patches = length poses -> length intrinsics = length poses ->
  all_in_range poses ix -> all_in_range intrinsics ix ->
  Forall (fun Pb => length Pb = length ix) patches ->
  exists C,
    point_cloud poses patches intrinsics ix = Ok C /\
    shape2 C = shape2 patches /\
    forall b m Gb Pb Kb i P,
      nth_error poses b = Some Gb -> nth_error patches b = Some Pb ->
      nth_error intrinsics b = Some Kb ->
      nth_error ix m = Some i -> nth_error Pb m = Some P ->
      exists g K,
        index Gb i = Ok g /\ index Kb i = Ok K /\
        at2 C b m = Some (grid_map (fun p => lie_act (lie_inv g) (iproj_pt p K)) P).
Proof.
  intros LP LK RG RK HP.
  destruct (index_dim1_ok _ _ RG) as (G & HG).
  destruct (index_dim1_ok _ _ RK) as (K & HK).
  pose proof (index_dim1_shape _ _ _ HG) as SG.
  pose proof (index_dim1_shape _ _ _ HK) as SK.
  pose proof (shape2_rows _ _ HP) as SP. rewrite LP in SP. rewrite LK in SK.
  set (back := fun (P : patch) (k : intr) => grid_map (fun p => iproj_pt p k) P).
  set (move := fun (g : SE3) (X : grid hpoint) => grid_map (lie_act g) X).
  assert (SX : shape2 (grid_map2 back patches K) = shape2 patches)
    by (apply shape2_grid_map2; shapes).
  assert (SI : shape2 (map (map lie_inv) G) = shape2 G) by apply shape2_map_map.
  exists (grid_map2 move (map (map lie_inv) G) (grid_map2 back patches K)).
  split; [|split].
  - unfold point_cloud. rewrite HG, HK. cbn [bind]. unfold iproj.
    rewrite (bmap2_into_pure2 back) by shapes. cbn [bind]. unfold act_grids.
    apply (bmap2_pure2 move). rewrite SI, SX. shapes.
  - rewrite shape2_grid_map2 by (rewrite SI, SX; shapes). rewrite SI. shapes.
  - intros b m Gb Pb Kb i P EG EP EK Ei Em.
    destruct (index_dim1_at _ _ _ b m _ _ HG EG Ei) as (g & Ag & Ig).
    destruct (index_dim1_at _ _ _ b m _ _ HK EK Ei) as (k & Ak & Ik).
    exists g, k. split; [exact Ig|]. split; [exact Ik|].
    assert (AP : at2 patches b m = Some P) by (unfold at2; rewrite EP; exact Em).
    assert (AX : at2 (grid_map2 back patches K) b m = Some (back P k))
      by exact (at2_grid_map2 back _ _ _ _ _ _ AP Ak).
    assert (AI : at2 (map (map lie_inv) G) b m = Some (lie_inv g))
      by (rewrite at2_map_map, Ag; reflexivity).
    rewrite (at2_grid_map2 move _ _ _ _ _ _ AI AX). unfold move, back.
    rewrite grid_map_map. reflexivity.
Qed.

(** X13.  With one frame index [ix[m]] per patch, [point_cloud] returns
    for patch m its backprojection moved by the inverse of pose [ix[m]],
    in the shape of the patch buffer.  [transform] then is the projection
    of that cloud: for an edge (i, j, k) whose patch has [ix] entry i, the
    reprojected coordinates are the projection with the intrinsics of
    frame j of pose j applied to the cloud points of patch k, when the
    action of the poses is compatible with composition. *)
Theorem transform_projects_point_cloud (poses : list (list SE3))
    (patches : list (list patch)) (intrinsics : list (list intr)) (ii jj kk ix : list Z) :
  wf_inputs poses patches intrinsics ii jj kk ->
  all_in_range poses ix -> all_in_range intrinsics ix ->
  Forall (fun Pb => length Pb = length ix) patches ->
  acts_compatibly poses ->
  exists C x1,
    point_cloud poses patches intrinsics ix = Ok C /\
    transform poses patches intrinsics ii jj kk false false false false = Ok (Coords x1) /\
    shape2 C = shape2 patches /\
    forall b e Gb Pb Kb i j k,
      nth_error poses b = Some Gb -> nth_error patches b = Some Pb ->
      nth_error intrinsics b = Some Kb ->
      nth_error ii e = Some i -> nth_error jj e = Some j -> nth_error kk e = Some k ->
      nth_error ix (position (length Pb) k) = Some i ->
      exists ed Ce xe,
        edge_of Gb Pb Kb i j k = Ok ed /\
        at2 C b (position (length Pb) k) = Some Ce /\ at2 x1 b e = Some xe /\
        shape2 Ce = shape2 (e_src ed) /\
        forall r c X, at2 Ce r c = Some X ->
          exists v, at2 xe r c = Some v /\
                    vec_eq v (proj_pt (lie_act (e_Gj ed) X) (e_Kj ed) false).
Proof.
  intros W RG RK HP Hact.
  destruct (point_cloud_entries poses patches intrinsics ix
              (wf_batch_patches _ _ _ _ _ _ W) (wf_batch_intrinsics _ _ _ _ _ _ W) RG RK HP)
    as (C & HC & SC & EC).
  destruct (transform_coords_spec poses patches intrinsics ii jj kk false false W)
    as (x1 & Hx & _ & Ex).
  exists C, x1. split; [exact HC|]. split; [exact Hx|]. split; [exact SC|].
  intros b e Gb Pb Kb i j k EG EP EK Ei Ej Ek Em.
  destruct (Ex b e Gb Pb Kb i j k EG EP EK Ei Ej Ek) as (ed & Hed & Ax).
  destruct (edge_of_inv _ _ _ _ _ _ _ Hed) as (Is & IKi & _ & IGi & IGj).
  pose proof (index_position _ _ _ Is) as Ps.
  destruct (EC b _ Gb Pb Kb i (e_src ed) EG EP EK Em Ps) as (g & K & Ig & IK & AC).
  assert (g = e_Gi ed) by congruence. assert (K = e_Ki ed) by congruence. subst g K.
  eexists ed, _, _. split; [exact Hed|]. split; [exact AC|]. split; [exact Ax|].
  split; [apply shape2_map_map|].
  intros r c X AX. rewrite at2_grid_map in AX.
  destruct (at2 (e_src ed) r c) as [p|] eqn:Ap; [|discriminate].
  cbn [option_map] in AX. inversion AX; subst X. clear AX.
  eexists. split.
  - unfold edge_coords. rewrite at2_grid_map, Ap. reflexivity.
  - apply proj_pt_proper. unfold edge_point, edge_Gij. apply Hact.
    + apply in_concat. exists Gb. split; [eapply nth_error_In; exact EG|].
      eapply index_In; exact IGj.
    + apply in_concat. exists Gb. split; [eapply nth_error_In; exact EG|].
      eapply index_In; exact IGi.
Qed.

End PointCloudSpec.

Lemma rigid_acts_compatibly :
  acts_compatibly (L := Rigid.ops) [[Rigid.identity; Scene.turned]].
Proof.
  intros g g' P Hg Hg'. simpl in Hg, Hg'.
  destruct Hg as [<-|[<-|[]]]; destruct Hg' as [<-|[<-|[]]];
    cbv -[Qplus Qmult Qopp Qminus Qeq hX hY hZ hW]; cbn [hX hY hZ hW];
    repeat split; ring.
Qed.

Lemma transform_projects_point_cloud_witness :
  wf_inputs [[Rigid.identity; Scene.turned]] [[Scene.patch3; Scene.patch3']]
    [[Scene.K1; Scene.K2]] [0%Z; 1%Z] [1%Z; 0%Z] [0%Z; (-1)%Z] /\
  acts_compatibly (L := Rigid.ops) [[Rigid.identity; Scene.turned]] /\
  exists C x1,
    point_cloud (L := Rigid.ops) [[Rigid.identity; Scene.turned]]
      [[Scene.patch3; Scene.patch3']] [[Scene.K1; Scene.K2]] [0%Z; 1%Z] = Ok C /\
    transform (L := Rigid.ops) [[Rigid.identity; Scene.turned]]
      [[Scene.patch3; Scene.patch3']] [[Scene.K1; Scene.K2]] [0%Z; 1%Z] [1%Z; 0%Z]
      [0%Z; (-1)%Z] false false false false = Ok (Coords x1).
Proof.
  assert (W : wf_inputs [[Rigid.identity; Scene.turned]] [[Scene.patch3; Scene.patch3']]
                [[Scene.K1; Scene.K2]] [0%Z; 1%Z] [1%Z; 0%Z] [0%Z; (-1)%Z])
    by wf_by_evaluation.
  pose proof rigid_acts_compatibly as HA.
  split; [exact W|]. split; [exact HA|].
  assert (RG : all_in_range [[Rigid.identity; Scene.turned]] [0%Z; 1%Z])
    by (repeat constructor; unfold in_range; simpl; lia).
  assert (RK : all_in_range [[Scene.K1; Scene.K2]] [0%Z; 1%Z])
    by (repeat constructor; unfold in_range; simpl; lia).
  assert (HP : Forall (fun Pb : list patch => length Pb = length [0%Z; 1%Z])
                 [[Scene.patch3; Scene.patch3']]) by (repeat constructor).
  destruct (transform_projects_point_cloud (L := Rigid.ops) _ _ _ _ _ _ _ W RG RK HP HA)
    as (C & x1 & H1 & H2 & _).
  exists C, x1. split; assumption.
Defined.

(** ** The frame pairs of the pose loss *)

Lemma meshgrid_flat (xs ys : list Z) :
  reshape_flat (fst (meshgrid xs ys)) = map fst (list_prod xs ys) /\
  reshape_flat (snd (meshgrid xs ys)) = map snd (list_prod xs ys).
Proof.
  unfold meshgrid, reshape_flat. cbn [fst snd].
  induction xs as [|x xs [IH1 IH2]]; [split; reflexivity|].
  cbn [map concat list_prod]. rewrite !map_app, !map_map, IH1, IH2. cbn [fst snd].
  split; [reflexivity|]. rewrite map_id. reflexivity.
Qed.

Lemma combine_fst_snd {A B : Type} (ps : list (A * B)) :
  combine (map fst ps) (map snd ps) = ps.
Proof. induction ps as [|[a b] ps IH]; [reflexivity|]. simpl. rewrite IH. reflexivity. Qed.

Lemma mask_select_map {A B : Type} (f : A -> bool) (g : A -> B) (l : list A) :
  mask_select (map f l) (map g l) = map g (filter f l).
Proof.
  unfold mask_select. induction l as [|a l IH]; [reflexivity|].
  cbn [map combine filter fst]. destruct (f a); cbn [map snd]; rewrite IH; reflexivity.
Qed.

Lemma train_edges_pairs (N : nat) :
  combine (fst (train_edges N)) (snd (train_edges N))
  = filter (fun p => negb (fst p =? snd p)%Z) (list_prod (arange N) (arange N)) /\
  fst (train_edges N)
  = map fst (filter (fun p => negb (fst p =? snd p)%Z) (list_prod (arange N) (arange N))) /\
  snd (train_edges N)
  = map snd (filter (fun p => negb (fst p =? snd p)%Z) (list_prod (arange N) (arange N))).
Proof.
  unfold train_edges.
  destruct (meshgrid_flat (arange N) (arange N)) as [E1 E2].
  destruct (meshgrid (arange N) (arange N)) as [gi gj]. cbn [fst snd] in *.
  rewrite E1, E2. unfold ne_mask. rewrite combine_fst_snd, !mask_select_map.
  split; [apply combine_fst_snd|]. split; reflexivity.
Qed.

Lemma in_arange (N : nat) (i : Z) : In i (arange N) <-> (0 <= i < Z.of_nat N)%Z.
Proof.
  unfold arange. rewrite in_map_iff. split.
  - intros (n & <- & Hn). apply in_seq in Hn. lia.
  - intros H. exists (Z.to_nat i). split; [lia|]. apply in_seq. lia.
Qed.

Lemma NoDup_map_injective {A B : Type} (f : A -> B) (l : list A) :
  (forall a b, f a = f b -> a = b) -> NoDup l -> NoDup (map f l).
Proof.
  intros Hf. induction 1 as [|a l Hn _ IH]; [constructor|]. cbn [map]. constructor; [|exact IH].
  intros Hin. apply in_map_iff in Hin as (b & E & Hb). apply Hf in E. subst b. contradiction.
Qed.

Lemma NoDup_arange (N : nat) : NoDup (arange N).
Proof.
  unfold arange. apply NoDup_map_injective; [|apply seq_NoDup].
  intros a b H. lia.
Qed.

Lemma NoDup_list_prod {A B : Type} (xs : list A) (ys : list B) :
  NoDup xs -> NoDup ys -> NoDup (list_prod xs ys).
Proof.
  intros Hx Hy. induction Hx as [|x xs Hn Hx IH]; [constructor|].
  cbn [list_prod]. apply NoDup_app.
  - apply NoDup_map_injective; [|exact Hy]. intros a b H. congruence.
  - exact IH.
  - intros [a b] H1 H2. apply in_map_iff in H1 as (y & E & _). inversion E; subst.
    apply in_prod_iff in H2 as [H2 _]. contradiction.
Qed.

Lemma length_filter_others (x : Z) (ys : list Z) :
  NoDup ys -> In x ys ->
  length (filter (fun y => negb (x =? y)%Z) ys) = pred (length ys).
Proof.
  induction 1 as [|y ys Hn Hy IH]; intros Hin; [destruct Hin|].
  cbn [filter length pred]. destruct (x =? y)%Z eqn:E; cbn [negb].
  - apply Z.eqb_eq in E. subst y. clear IH Hin.
    assert (F : forall l, ~ In x l -> filter (fun y => negb (x =? y)%Z) l = l).
    { induction l as [|a l IHl]; intros H; [reflexivity|]. cbn [filter].
      destruct (x =? a)%Z eqn:Ea.
      - apply Z.eqb_eq in Ea. subst a. exfalso. apply H. left. reflexivity.
      - cbn [negb]. rewrite IHl; [reflexivity|]. intros Hl. apply H. right. exact Hl. }
    rewrite F by exact Hn. reflexivity.
  - apply Z.eqb_neq in E. destruct Hin as [->|Hin]; [contradiction|].
    cbn [length]. rewrite IH by exact Hin. destruct ys; [destruct Hin|reflexivity].
Qed.

Lemma length_filter_prod (xs ys : list Z) :
  NoDup ys -> incl xs ys ->
  length (filter (fun p => negb (fst p =? snd p)%Z) (list_prod xs ys))
  = (length xs * pred (length ys))%nat.
Proof.
  intros Hy. induction xs as [|x xs IH]; intros Hin; [reflexivity|].
  cbn [list_prod]. rewrite filter_app, length_app.
  rewrite IH by (intros a Ha; apply Hin; right; exact Ha).
  assert (E : filter (fun p => negb (fst p =? snd p)%Z) (map (fun y => (x, y)) ys)
              = map (fun y => (x, y)) (filter (fun y => negb (x =? y)%Z) ys)).
  { clear. induction ys as [|y ys IH]; [reflexivity|]. cbn [map filter fst snd].
    destruct (x =? y)%Z; cbn [negb map]; rewrite IH; reflexivity. }
  rewrite E, length_map, length_filter_others by (try exact Hy; apply Hin; left; reflexivity).
  reflexivity.
Qed.

(** X14.  The index arrays that the training loop builds for N frames
    (meshgrid, flattening, the mask [ii != jj]) list every ordered pair
    (i, j) of distinct frames 0 <= i, j < N exactly once and nothing else:
    there are N (N - 1) pairs, in the order of the flattened grid, no pair
    has i = j, and every index is in range of a buffer with N frames per
    batch entry, so that gathering poses with them is defined. *)
Theorem train_edges_distinct_pairs (N : nat) :
  let ii := fst (train_edges N) in
  let jj := snd (train_edges N) in
  length ii = (N * (N - 1))%nat /\ length jj = (N * (N - 1))%nat /\
  (forall i j, In (i, j) (combine ii jj)
               <-> (0 <= i < Z.of_nat N)%Z /\ (0 <= j < Z.of_nat N)%Z /\ i <> j) /\
  NoDup (combine ii jj) /\
  combine ii jj = filter (fun p => negb (fst p =? snd p)%Z) (list_prod (arange N) (arange N)) /\
  forall (A : Type) (P1 : list (list A)),
    Forall (fun row => length row = N) P1 ->
    exists Pi Pj, index_dim1 P1 ii = Ok Pi /\ index_dim1 P1 jj = Ok Pj /\
                  shape2 Pi = repeat (N * (N - 1))%nat (length P1) /\ shape2 Pj = shape2 Pi.
Proof.
  cbv zeta. destruct (train_edges_pairs N) as (Ec & Ei & Ej).
  set (ne := fun p : Z * Z => negb (fst p =? snd p)%Z) in *.
  assert (LN : length (arange N) = N) by (unfold arange; rewrite length_map, length_seq; reflexivity).
  assert (Len : length (filter ne (list_prod (arange N) (arange N))) = (N * (N - 1))%nat).
  { unfold ne. rewrite length_filter_prod by (apply NoDup_arange || apply incl_refl).
    rewrite LN. f_equal. lia. }
  assert (Li : length (fst (train_edges N)) = (N * (N - 1))%nat)
    by (rewrite Ei, length_map; exact Len).
  assert (Lj : length (snd (train_edges N)) = (N * (N - 1))%nat)
    by (rewrite Ej, length_map; exact Len).
  assert (Mem : forall i j, In (i, j) (filter ne (list_prod (arange N) (arange N)))
                            <-> (0 <= i < Z.of_nat N)%Z /\ (0 <= j < Z.of_nat N)%Z /\ i <> j).
  { intros i j. rewrite filter_In, in_prod_iff, !in_arange. unfold ne. cbn [fst snd].
    rewrite Bool.negb_true_iff, Z.eqb_neq. tauto. }
  split; [exact Li|]. split; [exact Lj|]. split; [rewrite Ec; exact Mem|].
  split; [rewrite Ec; apply NoDup_filter, NoDup_list_prod; apply NoDup_arange|].
  split; [exact Ec|].
  intros A P1 HP.
  assert (Ri : all_in_range P1 (fst (train_edges N))).
  { unfold all_in_range. eapply Forall_impl; [|exact HP]. intros row Hrow. cbv beta in Hrow.
    apply Forall_forall. intros i Hi. rewrite Ei in Hi.
    apply in_map_iff in Hi as ([i' j] & <- & Hp). apply Mem in Hp. cbn [fst].
    unfold in_range. rewrite Hrow. lia. }
  assert (Rj : all_in_range P1 (snd (train_edges N))).
  { unfold all_in_range. eapply Forall_impl; [|exact HP]. intros row Hrow. cbv beta in Hrow.
    apply Forall_forall. intros j Hj. rewrite Ej in Hj.
    apply in_map_iff in Hj as ([i j'] & <- & Hp). apply Mem in Hp. cbn [snd].
    unfold in_range. rewrite Hrow. lia. }
  destruct (index_dim1_ok _ _ Ri) as (Pi & HPi).
  destruct (index_dim1_ok _ _ Rj) as (Pj & HPj).
  exists Pi, Pj. split; [exact HPi|]. split; [exact HPj|].
  pose proof (index_dim1_shape _ _ _ HPi) as Si. pose proof (index_dim1_shape _ _ _ HPj) as Sj.
  rewrite Li in Si. rewrite Lj in Sj. split; [exact Si|]. rewrite Si, Sj. reflexivity.
Qed.

Lemma train_edges_distinct_pairs_witness :
  Forall (fun row : list SE3 => length row = 3%nat)
    [[Rigid.identity; Scene.turned; Scene.forward1]] /\
  exists Pi Pj,
    index_dim1 [[Rigid.identity; Scene.turned; Scene.forward1]] (fst (train_edges 3)) = Ok Pi /\
    index_dim1 [[Rigid.identity; Scene.turned; Scene.forward1]] (snd (train_edges 3)) = Ok Pj.
Proof.
  assert (H : Forall (fun row : list SE3 => length row = 3%nat)
                [[Rigid.identity; Scene.turned; Scene.forward1]]) by (repeat constructor).
  split; [exact H|].
  destruct (train_edges_distinct_pairs 3) as (_ & _ & _ & _ & _ & G).
  destruct (G SE3 _ H) as (Pi & Pj & H1 & H2 & _).
  exists Pi, Pj. split; assumption.
Defined.
